(** * Ray/primitive intersection tests and octree traversal of the path tracer

    A shallow embedding of [src/intersections.h]: the box, sphere, brute-force
    mesh and octree ray tests, over IEEE binary32 arithmetic; and of the
    render loop and input callbacks of [src/main.cpp], over its globals. *)

From Stdlib Require Import ZArith List Bool Lia Permutation.
From Stdlib Require Import Floats.SpecFloat.
Import ListNotations.

(** ** C [float]: IEEE 754 binary32

    Values are [spec_float]s; every operation rounds to nearest-even with
    24 bits of precision and infinities at exponent 128.  Operations are
    taken in the order the source text writes them (no fused multiply-add
    contraction). *)
Module F32.

Definition prec : Z := 24.
Definition emax : Z := 128.

Definition float := spec_float.

Definition add : float -> float -> float := SFadd prec emax.
Definition sub : float -> float -> float := SFsub prec emax.
Definition mul : float -> float -> float := SFmul prec emax.
Definition div : float -> float -> float := SFdiv prec emax.
Definition sqrt : float -> float := SFsqrt prec emax.
Definition opp : float -> float := SFopp.

(** C comparisons: all false as soon as one side is a NaN. *)
Definition ltb : float -> float -> bool := SFltb.
Definition leb : float -> float -> bool := SFleb.
Definition gtb (a b : float) : bool := ltb b a.
Definition geb (a b : float) : bool := leb b a.
Definition eqb : float -> float -> bool := SFeqb.

Definition is_nan (a : float) : bool :=
  match a with S754_nan => true | _ => false end.

(** The literals of the source, as exact binary32 values [m * 2^e]. *)
Definition zero : float := S754_zero false.
Definition one : float := S754_finite false 8388608 (-23).
Definition mone : float := S754_finite true 8388608 (-23).
Definition half : float := S754_finite false 8388608 (-24).
Definition mhalf : float := S754_finite true 8388608 (-24).
(** [.0001f] *)
Definition bias : float := S754_finite false 13743895 (-37).
(** [1e38f] and [-1e38f] *)
Definition big : float := S754_finite false 9860761 103.
Definition mbig : float := S754_finite true 9860761 103.
(** [std::numeric_limits<float>::epsilon()], 2^-23 *)
Definition epsilon : float := S754_finite false 8388608 (-46).

(** An integer or dyadic literal [m * 2^e], rounded to binary32. *)
Definition lit (m e : Z) : float := binary_normalize prec emax m e false.

End F32.

Declare Scope f32_scope.
Delimit Scope f32_scope with f32.
Infix "+" := F32.add : f32_scope.
Infix "-" := F32.sub : f32_scope.
Infix "*" := F32.mul : f32_scope.
Infix "/" := F32.div : f32_scope.
Notation "- a" := (F32.opp a) : f32_scope.
Infix "<?" := F32.ltb : f32_scope.
Infix "<=?" := F32.leb : f32_scope.
Infix ">?" := F32.gtb : f32_scope.
Infix ">=?" := F32.geb : f32_scope.

Local Open Scope f32_scope.

(** ** The parts of glm the intersection tests call

    glm is an external header library and not among the sources.  The
    definitions below follow glm 0.9.x, the line whose
    [intersectRayTriangle] takes six arguments as the tests call it:
    [vec3], [vec4], [mat4] in column-major order, and the functions of
    [glm/geometric.hpp], [glm/common.hpp] and [glm/gtx/intersect.hpp] that
    the tests use. *)
Module glm.

Record vec3 : Type := Vec3 { x : F32.float; y : F32.float; z : F32.float }.
Record vec4 : Type :=
  Vec4 { x4 : F32.float; y4 : F32.float; z4 : F32.float; w4 : F32.float }.
(** [m[c]] is the c-th column. *)
Record mat4 : Type := Mat4 { col0 : vec4; col1 : vec4; col2 : vec4; col3 : vec4 }.

(** [glm::vec3 v;] : the default constructor of glm 0.9.x zero-initialises. *)
Definition vec3_default : vec3 := Vec3 F32.zero F32.zero F32.zero.

(** [glm::vec4(v, w)] and [glm::vec3(v4)]. *)
Definition mk_vec4 (v : vec3) (w : F32.float) : vec4 := Vec4 (x v) (y v) (z v) w.
Definition to_vec3 (v : vec4) : vec3 := Vec3 (x4 v) (y4 v) (z4 v).

(** [v[i]] and [v[i] = a] for [i] in 0..2. *)
Definition get (v : vec3) (i : nat) : F32.float :=
  match i with O => x v | S O => y v | _ => z v end.
Definition set (v : vec3) (i : nat) (a : F32.float) : vec3 :=
  match i with
  | O => Vec3 a (y v) (z v)
  | S O => Vec3 (x v) a (z v)
  | _ => Vec3 (x v) (y v) a
  end.

Definition vadd (a b : vec3) : vec3 := Vec3 (x a + x b) (y a + y b) (z a + z b).
Definition vsub (a b : vec3) : vec3 := Vec3 (x a - x b) (y a - y b) (z a - z b).
Definition vmul (a b : vec3) : vec3 := Vec3 (x a * x b) (y a * y b) (z a * z b).
Definition vneg (a : vec3) : vec3 := Vec3 (- x a) (- y a) (- z a).
(** [s * v] and [v * s]. *)
Definition smul (s : F32.float) (v : vec3) : vec3 := Vec3 (s * x v) (s * y v) (s * z v).
Definition vscale (v : vec3) (s : F32.float) : vec3 := Vec3 (x v * s) (y v * s) (z v * s).

Definition vadd4 (a b : vec4) : vec4 :=
  Vec4 (x4 a + x4 b) (y4 a + y4 b) (z4 a + z4 b) (w4 a + w4 b).
Definition vscale4 (v : vec4) (s : F32.float) : vec4 :=
  Vec4 (x4 v * s) (y4 v * s) (z4 v * s) (w4 v * s).

(** [m * v]: columns scaled by the components of [v], summed pairwise. *)
Definition mat_mul_vec (m : mat4) (v : vec4) : vec4 :=
  vadd4 (vadd4 (vscale4 (col0 m) (x4 v)) (vscale4 (col1 m) (y4 v)))
        (vadd4 (vscale4 (col2 m) (z4 v)) (vscale4 (col3 m) (w4 v))).

Definition dot (a b : vec3) : F32.float :=
  let tmp := vmul a b in x tmp + y tmp + z tmp.

Definition cross (a b : vec3) : vec3 :=
  Vec3 (y a * z b - y b * z a)
       (z a * x b - z b * x a)
       (x a * y b - x b * y a).

Definition length (v : vec3) : F32.float := F32.sqrt (dot v v).

Definition inversesqrt (a : F32.float) : F32.float := F32.one / F32.sqrt a.

Definition normalize (v : vec3) : vec3 := vscale v (inversesqrt (dot v v)).

(** [glm::min(a, b)] is [a < b ? a : b], [glm::max(a, b)] is [a > b ? a : b],
    as in the releases up to 0.9.8. *)
Definition min (a b : F32.float) : F32.float := if a <? b then a else b.
Definition max (a b : F32.float) : F32.float := if a >? b then a else b.

(** [glm::intersectRayTriangle(orig, dir, v0, v1, v2, baryPosition)] of
    [glm/gtx/intersect.hpp]: [None] when it returns false, the
    barycentric position it has written when it returns true. *)
Definition intersectRayTriangle (orig dir v0 v1 v2 : vec3) : option vec3 :=
  let e1 := vsub v1 v0 in
  let e2 := vsub v2 v0 in
  let p := cross dir e2 in
  let a := dot e1 p in
  if a <? F32.epsilon then None else
  let f := F32.one / a in
  let s := vsub orig v0 in
  let bx := f * dot s p in
  if bx <? F32.zero then None else
  if bx >? F32.one then None else
  let q := cross s e1 in
  let by_ := f * dot dir q in
  if by_ <? F32.zero then None else
  if (by_ + bx) >? F32.one then None else
  let bz := f * dot e2 q in
  if bz >=? F32.zero then Some (Vec3 bx by_ bz) else None.

End glm.

(** ** Scene records *)

(** Modelled from the spec: the declarations of [sceneStructs.h] ([Ray],
    [Geom], [Mesh], [OctreeNode], [Triangle], [OctreeDev]) are not among the
    sources; the records carry the fields the tests read.  The three
    matrices of a [Mesh] and of an [OctreeDev] are kept together as a
    [Geom].  Device arrays are lists, and reading outside one is a fault. *)
Record Ray : Type := mkRay { origin : glm.vec3; direction : glm.vec3 }.

Record Geom : Type := mkGeom {
  transform : glm.mat4;
  inverseTransform : glm.mat4;
  invTranspose : glm.mat4
}.

Record Mesh : Type := mkMesh {
  mesh_geom : Geom;
  vertices : list F32.float;
  indices : list Z;
  numIndices : Z
}.

(** [vertices0 t] is [t.vertices[0]], and so on. *)
Record Triangle : Type := mkTriangle {
  vertices0 : glm.vec3; vertices1 : glm.vec3; vertices2 : glm.vec3
}.

(** [children] is the [int[8]] array of the node, a list of its eight
    entries, [-1] marking an absent child. *)
Record OctreeNode : Type := mkOctreeNode {
  children : list Z;
  isLeaf : bool
}.

Record OctreeDev : Type := mkOctreeDev {
  octree_geom : Geom;
  root : Z;
  nodes : list OctreeNode;
  boundingBoxes : list Geom;
  dataStarts : list Z;
  triangles : list Triangle
}.

(** The three output parameters, passed by reference in the source. *)
Record Out : Type := mkOut {
  intersectionPoint : glm.vec3;
  normal : glm.vec3;
  outside : bool
}.

Definition set_intersectionPoint (o : Out) (p : glm.vec3) : Out :=
  mkOut p (normal o) (outside o).
Definition set_normal (o : Out) (n : glm.vec3) : Out :=
  mkOut (intersectionPoint o) n (outside o).
Definition set_outside (o : Out) (b : bool) : Out :=
  mkOut (intersectionPoint o) (normal o) b.

(** [a[i]] on a device array: [None] outside the array.  Indices are
    integers without wrap-around: the arrays are shorter than the range of
    [int], so an index computation that would overflow [int] falls outside
    its array here. *)
Definition at_ {A : Type} (a : list A) (i : Z) : option A :=
  if (i <? 0)%Z then None else nth_error a (Z.to_nat i).

(** ** intersections.h *)

(** C [unsigned int]: a 32-bit word, every sum and left shift reduced
    modulo 2^32. *)
Definition wrap32 (a : Z) : Z := (a mod 2 ^ 32)%Z.

(** The three kinds of line of [utilhash]: [a = (a + c) + (a << k)],
    [a = (a ^ c) ^ (a >> k)] and [a = (a + c) ^ (a << k)]. *)
Definition add_shl (c k a : Z) : Z :=
  wrap32 (wrap32 (a + c) + wrap32 (Z.shiftl a k))%Z.
Definition xor_shr (c k a : Z) : Z :=
  Z.lxor (Z.lxor a c) (Z.shiftr a k).
Definition add_xor_shl (c k a : Z) : Z :=
  Z.lxor (wrap32 (a + c)%Z) (wrap32 (Z.shiftl a k)).

Definition utilhash (a : Z) : Z :=
  let a := add_shl 0x7ed55d16 12 a in
  let a := xor_shr 0xc761c23c 19 a in
  let a := add_shl 0x165667b1 5 a in
  let a := add_xor_shl 0xd3a2646c 9 a in
  let a := add_shl 0xfd7046c5 3 a in
  let a := xor_shr 0xb55a4f09 16 a in
  a.

Definition getPointOnRay (r : Ray) (t : F32.float) : glm.vec3 :=
  glm.vadd (origin r) (glm.smul (t - F32.bias) (glm.normalize (direction r))).

Definition multiplyMV (m : glm.mat4) (v : glm.vec4) : glm.vec3 :=
  glm.to_vec3 (glm.mat_mul_vec m v).

(** The ray taken into the local space of a primitive. *)
Definition localRay (g : Geom) (r : Ray) : Ray :=
  mkRay (multiplyMV (inverseTransform g) (glm.mk_vec4 (origin r) F32.one))
        (glm.normalize (multiplyMV (inverseTransform g) (glm.mk_vec4 (direction r) F32.zero))).

(** *** boxIntersectionTest *)

(** The locals [tmin], [tmax], [tmin_n], [tmax_n] of the slab loop. *)
Record Slabs : Type := mkSlabs {
  tmin : F32.float;
  tmax : F32.float;
  tmin_n : glm.vec3;
  tmax_n : glm.vec3
}.

Definition slabs_init : Slabs :=
  mkSlabs F32.mbig F32.big glm.vec3_default glm.vec3_default.

(** The near and far parameters of one axis, and the candidate normal. *)
Definition axis_t1 (q : Ray) (xyz : nat) : F32.float :=
  (F32.mhalf - glm.get (origin q) xyz) / glm.get (direction q) xyz.
Definition axis_t2 (q : Ray) (xyz : nat) : F32.float :=
  (F32.half - glm.get (origin q) xyz) / glm.get (direction q) xyz.
Definition axis_ta (q : Ray) (xyz : nat) : F32.float :=
  glm.min (axis_t1 q xyz) (axis_t2 q xyz).
Definition axis_tb (q : Ray) (xyz : nat) : F32.float :=
  glm.max (axis_t1 q xyz) (axis_t2 q xyz).
Definition axis_n (q : Ray) (xyz : nat) : glm.vec3 :=
  glm.set glm.vec3_default xyz
    (if axis_t2 q xyz <? axis_t1 q xyz then F32.one else F32.mone).

(** One iteration of [for (int xyz = 0; xyz < 3; ++xyz)]. *)
Definition box_axis (q : Ray) (s : Slabs) (xyz : nat) : Slabs :=
  let ta := axis_ta q xyz in
  let tb := axis_tb q xyz in
  let n := axis_n q xyz in
  let s1 :=
    if (ta >? F32.zero) && (ta >? tmin s)
    then mkSlabs ta (tmax s) n (tmax_n s) else s in
  if tb <? tmax s1
  then mkSlabs (tmin s1) tb (tmin_n s1) n else s1.

Definition box_slabs (q : Ray) : Slabs :=
  fold_left (box_axis q) [0%nat; 1%nat; 2%nat] slabs_init.

Definition boxIntersectionTest (box : Geom) (r : Ray) (out : Out)
  : F32.float * Out :=
  let q := localRay box r in
  let s := box_slabs q in
  if (tmax s >=? tmin s) && (tmax s >? F32.zero) then
    let out := set_outside out true in
    let '(s, out) :=
      if tmin s <=? F32.zero
      then (mkSlabs (tmax s) (tmax s) (tmax_n s) (tmax_n s), set_outside out false)
      else (s, out) in
    let out := set_intersectionPoint out
      (multiplyMV (transform box) (glm.mk_vec4 (getPointOnRay q (tmin s)) F32.one)) in
    let out := set_normal out
      (glm.normalize (multiplyMV (invTranspose box) (glm.mk_vec4 (tmin_n s) F32.zero))) in
    (glm.length (glm.vsub (origin r) (intersectionPoint out)), out)
  else (F32.mone, out).

(** *** sphereIntersectionTest *)

(** [powf(radius, 2)]: the square of the radius. *)
Definition powf2 (a : F32.float) : F32.float := a * a.

(** [min] and [max] of the CUDA math API on two floats. *)
Definition fmin (a b : F32.float) : F32.float := if b <? a then b else a.
Definition fmax (a b : F32.float) : F32.float := if a <? b then b else a.

Definition sphere_radicand (rt : Ray) : F32.float :=
  let radius := F32.half in
  let vDotDirection := glm.dot (origin rt) (direction rt) in
  vDotDirection * vDotDirection - (glm.dot (origin rt) (origin rt) - powf2 radius).

Definition sphere_t1 (rt : Ray) : F32.float :=
  (- glm.dot (origin rt) (direction rt)) + F32.sqrt (sphere_radicand rt).
Definition sphere_t2 (rt : Ray) : F32.float :=
  (- glm.dot (origin rt) (direction rt)) - F32.sqrt (sphere_radicand rt).

Definition sphereIntersectionTest (sphere : Geom) (r : Ray) (out : Out)
  : F32.float * Out :=
  let rt := localRay sphere r in
  let radicand := sphere_radicand rt in
  if radicand <? F32.zero then (F32.mone, out) else
  let t1 := sphere_t1 rt in
  let t2 := sphere_t2 rt in
  if (t1 <? F32.zero) && (t2 <? F32.zero) then (F32.mone, out) else
  let '(t, out) :=
    if (t1 >? F32.zero) && (t2 >? F32.zero)
    then (fmin t1 t2, set_outside out true)
    else (fmax t1 t2, set_outside out false) in
  let objspaceIntersection := getPointOnRay rt t in
  let out := set_intersectionPoint out
    (multiplyMV (transform sphere) (glm.mk_vec4 objspaceIntersection F32.one)) in
  let out := set_normal out
    (glm.normalize (multiplyMV (invTranspose sphere) (glm.mk_vec4 objspaceIntersection F32.zero))) in
  let out := if negb (outside out) then set_normal out (glm.vneg (normal out)) else out in
  (glm.length (glm.vsub (origin r) (intersectionPoint out)), out).

(** *** meshIntersectionTest *)

(** The arrays a test indexes: the local [stack] of the traversal, and the
    device arrays of a mesh or an octree. *)
Inductive array : Type := StackArray | DeviceArray.

(** What a call can do: return, read or write outside an array, or (for the
    octree loop, run with a bound on its iterations) still be running. *)
Inductive outcome (A : Type) : Type :=
| Returns (a : A)
| OutOfBounds (arr : array)
| NoFuel.
Arguments Returns {A} a.
Arguments OutOfBounds {A} arr.
Arguments NoFuel {A}.

Definition bind {A B : Type} (m : outcome A) (k : A -> outcome B) : outcome B :=
  match m with
  | Returns a => k a
  | OutOfBounds arr => OutOfBounds arr
  | NoFuel => NoFuel
  end.

(** [a[i]] on a device array. *)
Definition read {A : Type} (a : list A) (i : Z) : outcome A :=
  match at_ a i with Some v => Returns v | None => OutOfBounds DeviceArray end.

Notation "x <- m ;; k" := (bind m (fun x => k))
  (at level 61, m at next level, right associativity).

(** The local [t] and the output parameters, as the triangle loops update them. *)
Record Best : Type := mkBest { best_t : F32.float; best_out : Out }.

(** The body shared by the two triangle loops: test one triangle against the
    local ray [rt] and keep it when it is the first hit or strictly closer. *)
Definition triangleStep (rt : Ray) (tri : Triangle) (b : Best) : Best :=
  let vert0 := vertices0 tri in
  let vert1 := vertices1 tri in
  let vert2 := vertices2 tri in
  match glm.intersectRayTriangle (origin rt) (direction rt) vert0 vert1 vert2 with
  | Some barycentric =>
      let intersection :=
        glm.vadd (glm.vadd vert0 (glm.smul (glm.x barycentric) (glm.vsub vert1 vert0)))
                 (glm.smul (glm.y barycentric) (glm.vsub vert2 vert0)) in
      let current_t := glm.length (glm.vsub intersection (origin rt)) in
      if (best_t b <? F32.zero) || (current_t <? best_t b) then
        mkBest current_t
          (set_normal (set_intersectionPoint (best_out b) intersection)
             (glm.normalize (glm.cross (glm.vsub vert1 vert0) (glm.vsub vert2 vert0))))
      else b
  | None => b
  end.

(** The vertex [mesh.indices[k]] names: three consecutive floats of [mesh.vertices]. *)
Definition mesh_vertex (mesh : Mesh) (k : Z) : outcome glm.vec3 :=
  idx <- read (indices mesh) k ;;
  a <- read (vertices mesh) (idx * 3)%Z ;;
  b <- read (vertices mesh) (idx * 3 + 1)%Z ;;
  c <- read (vertices mesh) (idx * 3 + 2)%Z ;;
  Returns (glm.Vec3 a b c).

Definition mesh_triangle (mesh : Mesh) (i : Z) : outcome Triangle :=
  vert0 <- mesh_vertex mesh i ;;
  vert1 <- mesh_vertex mesh (i + 1)%Z ;;
  vert2 <- mesh_vertex mesh (i + 2)%Z ;;
  Returns (mkTriangle vert0 vert1 vert2).

(** The values [i] takes in [for (int i = 0; i < n; i += 3)]. *)
Definition range3 (n : Z) : list Z :=
  map (fun k => (3 * Z.of_nat k)%Z) (seq 0 (Z.to_nat ((n + 2) / 3))).

Fixpoint mesh_for (mesh : Mesh) (rt : Ray) (idxs : list Z) (b : Best) : outcome Best :=
  match idxs with
  | [] => Returns b
  | i :: idxs' =>
      tri <- mesh_triangle mesh i ;;
      mesh_for mesh rt idxs' (triangleStep rt tri b)
  end.

(** The end of the mesh and octree tests, once [t >= 0]: back to world
    space, and [outside] from the facing of the normal. *)
Definition finishHit (g : Geom) (r rt : Ray) (out : Out) : F32.float * Out :=
  let out := set_intersectionPoint out
    (multiplyMV (transform g) (glm.mk_vec4 (intersectionPoint out) F32.one)) in
  let out := set_normal out
    (glm.normalize (multiplyMV (invTranspose g) (glm.mk_vec4 (normal out) F32.zero))) in
  let out := set_outside out (glm.dot (normal out) (direction rt) <? F32.zero) in
  let out := if negb (outside out) then set_normal out (glm.vneg (normal out)) else out in
  (glm.length (glm.vsub (origin r) (intersectionPoint out)), out).

Definition meshIntersectionTest (mesh : Mesh) (r : Ray) (out : Out)
  : outcome (F32.float * Out) :=
  let rt := localRay (mesh_geom mesh) r in
  b <- mesh_for mesh rt (range3 (numIndices mesh)) (mkBest F32.mone out) ;;
  if best_t b <? F32.zero then Returns (F32.mone, best_out b)
  else Returns (finishHit (mesh_geom mesh) r rt (best_out b)).

(** *** octreeIntersectionTest *)

(** [int stack[8*8*8]] *)
Definition STACK_CAPACITY : Z := 8 * 8 * 8.

(** The locals of the traversal loop. *)
Record Traversal : Type := mkTraversal {
  stack : list Z;
  stackSize : Z;
  best : Best
}.

(** [stack[i]] *)
Definition stack_read (stk : list Z) (i : Z) : outcome Z :=
  if ((0 <=? i) && (i <? STACK_CAPACITY))%Z
  then match nth_error stk (Z.to_nat i) with
       | Some v => Returns v
       | None => OutOfBounds StackArray
       end
  else OutOfBounds StackArray.

(** [stack[i] = v] *)
Fixpoint list_update {A : Type} (l : list A) (n : nat) (v : A) : list A :=
  match l, n with
  | [], _ => []
  | _ :: l', O => v :: l'
  | a :: l', S n' => a :: list_update l' n' v
  end.

Definition stack_write (stk : list Z) (i : Z) (v : Z) : outcome (list Z) :=
  if ((0 <=? i) && (i <? STACK_CAPACITY))%Z
  then Returns (list_update stk (Z.to_nat i) v)
  else OutOfBounds StackArray.

(** The values [i] takes in [for (int i = lo; i < hi; i++)]. *)
Definition range (lo hi : Z) : list Z :=
  map (fun k => (lo + Z.of_nat k)%Z) (seq 0 (Z.to_nat (hi - lo))).

Fixpoint leaf_for (octree : OctreeDev) (rt : Ray) (idxs : list Z) (b : Best) : outcome Best :=
  match idxs with
  | [] => Returns b
  | i :: idxs' =>
      tri <- read (triangles octree) i ;;
      leaf_for octree rt idxs' (triangleStep rt tri b)
  end.

(** [for (int i = 0; i < 8; i++) if (node.children[i] != -1) push] *)
Fixpoint push_children (cs : list Z) (stk : list Z) (size : Z) : outcome (list Z * Z) :=
  match cs with
  | [] => Returns (stk, size)
  | c :: cs' =>
      if (c =? -1)%Z then push_children cs' stk size
      else
        stk' <- stack_write stk size c ;;
        push_children cs' stk' (size + 1)%Z
  end.

(** One iteration of [while (stackSize > 0)]. *)
Definition octree_body (octree : OctreeDev) (r rt : Ray) (st : Traversal)
  : outcome Traversal :=
  nodeIndex <- stack_read (stack st) (stackSize st - 1)%Z ;;
  let stackSize1 := (stackSize st - 1)%Z in
  node <- read (nodes octree) nodeIndex ;;
  boundingBox <- read (boundingBoxes octree) nodeIndex ;;
  let tmp_intersect := glm.vec3_default in
  let tmp_normal := glm.vec3_default in
  let '(box_intersect, box_out) :=
    boxIntersectionTest boundingBox r
      (mkOut tmp_intersect tmp_normal (outside (best_out (best st)))) in
  let b := mkBest (best_t (best st)) (set_outside (best_out (best st)) (outside box_out)) in
  if box_intersect >? F32.zero then
    if isLeaf node then
      lo <- read (dataStarts octree) nodeIndex ;;
      hi <- read (dataStarts octree) (nodeIndex + 1)%Z ;;
      b' <- leaf_for octree rt (range lo hi) b ;;
      Returns (mkTraversal (stack st) stackSize1 b')
    else
      p <- push_children (children node) (stack st) stackSize1 ;;
      Returns (mkTraversal (fst p) (snd p) b)
  else Returns (mkTraversal (stack st) stackSize1 b).

(** [while (stackSize > 0)], run for at most [fuel] iterations: [NoFuel]
    when the stack is not empty after them. *)
Fixpoint octree_while (fuel : nat) (octree : OctreeDev) (r rt : Ray) (st : Traversal)
  : outcome Traversal :=
  if (stackSize st >? 0)%Z then
    match fuel with
    | O => NoFuel
    | S fuel' =>
        st' <- octree_body octree r rt st ;;
        octree_while fuel' octree r rt st'
    end
  else Returns st.

(** The storage of the uninitialised [stack] array. *)
Definition stack_uninit : list Z := repeat 0%Z (Z.to_nat STACK_CAPACITY).

(** The state after [stack[stackSize] = octree.root; stackSize++]. *)
Definition octree_start (octree : OctreeDev) (out : Out) : Traversal :=
  mkTraversal (list_update stack_uninit 0 (root octree)) 1 (mkBest F32.mone out).

(** The octree test, its loop run for at most [fuel] iterations. *)
Definition octreeIntersectionTest (fuel : nat) (octree : OctreeDev) (r : Ray) (out : Out)
  : outcome (F32.float * Out) :=
  let rt := localRay (octree_geom octree) r in
  st <- octree_while fuel octree r rt (octree_start octree out) ;;
  let b := best st in
  if best_t b <? F32.zero then Returns (F32.mone, best_out b)
  else Returns (finishHit (octree_geom octree) r rt (best_out b)).

(** ** C [double] and the conversions between [int], [float] and [double]

    IEEE 754 binary64, rounded to nearest-even as binary32 is above. *)
Module F64.

Definition prec : Z := 53.
Definition emax : Z := 1024.

Definition double := spec_float.

Definition sub : double -> double -> double := SFsub prec emax.
Definition add : double -> double -> double := SFadd prec emax.
Definition mul : double -> double -> double := SFmul prec emax.
Definition div : double -> double -> double := SFdiv prec emax.
Definition eqb : double -> double -> bool := SFeqb.

(** An [int] as a [double]: exact. *)
Definition of_int (n : Z) : double := binary_normalize prec emax n 0 false.

(** A [float] as a [double]: the same value, on 53 bits. *)
Definition of_float (a : F32.float) : double :=
  match a with
  | S754_finite s m e => binary_round prec emax s m e
  | _ => a
  end.

(** A [double] as a [float]: rounded to 24 bits, an infinity beyond the
    range of [float]. *)
Definition to_float (a : double) : F32.float :=
  match a with
  | S754_finite s m e => binary_round F32.prec F32.emax s m e
  | _ => a
  end.

End F64.

(** [std::fmin] and [std::fmax] on two floats: when one argument is a NaN
    the other is returned. *)
Definition std_fmin (a b : F32.float) : F32.float :=
  if F32.is_nan a then b else if F32.is_nan b then a
  else if b <? a then b else a.
Definition std_fmax (a b : F32.float) : F32.float :=
  if F32.is_nan a then b else if F32.is_nan b then a
  else if a <? b then b else a.

(** [v / s] of glm on a vector and a scalar. *)
Definition vdiv (v : glm.vec3) (s : F32.float) : glm.vec3 :=
  glm.Vec3 (glm.x v / s) (glm.y v / s) (glm.z v / s).

(** ** GLFW

    GLFW is an external library; these are the values of its header
    [glfw3.h] for the constants main.cpp names. *)
Definition GLFW_PRESS : Z := 1.
Definition GLFW_MOUSE_BUTTON_LEFT : Z := 0.
Definition GLFW_MOUSE_BUTTON_RIGHT : Z := 1.
Definition GLFW_MOUSE_BUTTON_MIDDLE : Z := 2.
Definition GLFW_KEY_SPACE : Z := 32.
Definition GLFW_KEY_S : Z := 83.
Definition GLFW_KEY_ESCAPE : Z := 256.

(** ** main.cpp: the globals *)

(** The variables the GUI edits. *)
Record Ui : Type := mkUi {
  ui_iterations : Z;
  ui_showGbuffer : bool;
  ui_denoise : bool;
  ui_filterSize : Z;
  ui_colorWeight : F32.float;
  ui_normalWeight : F32.float;
  ui_positionWeight : F32.float;
  ui_saveAndExit : bool
}.

(** [ui_denoise_prev], [ui_filterSize_prev] and the three [..Weight_prev]. *)
Record UiPrev : Type := mkUiPrev {
  ui_denoise_prev : bool;
  ui_filterSize_prev : Z;
  ui_colorWeight_prev : F32.float;
  ui_normalWeight_prev : F32.float;
  ui_positionWeight_prev : F32.float
}.

(** The statics "for camera controls". *)
Record Mouse : Type := mkMouse {
  leftMousePressed : bool;
  rightMousePressed : bool;
  middleMousePressed : bool;
  lastX : F64.double;
  lastY : F64.double
}.

(** The fields of [renderState->camera] that main.cpp reads and writes;
    [Camera] is declared in [sceneStructs.h], which is not among the
    sources. *)
Record Camera : Type := mkCamera {
  view : glm.vec3;
  up : glm.vec3;
  right : glm.vec3;
  position : glm.vec3;
  lookAt : glm.vec3
}.

(** The globals of main.cpp that its functions after [main] use, with
    [renderState->camera] as [cam] and [renderState->image] as [image]. *)
Record App : Type := mkApp {
  ui : Ui;
  prev : UiPrev;
  mouse : Mouse;
  lastLoopIterations : Z;
  camchanged : bool;
  zoom : F32.float;
  theta : F32.float;
  phi : F32.float;
  cameraPosition : glm.vec3;
  ogLookAt : glm.vec3;
  cam : Camera;
  iteration : Z;
  width : Z;
  height : Z;
  image : list glm.vec3
}.

Definition set_prev (st : App) (v : UiPrev) : App :=
  mkApp (ui st) v (mouse st) (lastLoopIterations st) (camchanged st) (zoom st) (theta st)
        (phi st) (cameraPosition st) (ogLookAt st) (cam st) (iteration st) (width st)
        (height st) (image st).
Definition set_mouse (st : App) (v : Mouse) : App :=
  mkApp (ui st) (prev st) v (lastLoopIterations st) (camchanged st) (zoom st) (theta st)
        (phi st) (cameraPosition st) (ogLookAt st) (cam st) (iteration st) (width st)
        (height st) (image st).
Definition set_lastLoopIterations (st : App) (v : Z) : App :=
  mkApp (ui st) (prev st) (mouse st) v (camchanged st) (zoom st) (theta st)
        (phi st) (cameraPosition st) (ogLookAt st) (cam st) (iteration st) (width st)
        (height st) (image st).
Definition set_camchanged (st : App) (v : bool) : App :=
  mkApp (ui st) (prev st) (mouse st) (lastLoopIterations st) v (zoom st) (theta st)
        (phi st) (cameraPosition st) (ogLookAt st) (cam st) (iteration st) (width st)
        (height st) (image st).
Definition set_zoom (st : App) (v : F32.float) : App :=
  mkApp (ui st) (prev st) (mouse st) (lastLoopIterations st) (camchanged st) v (theta st)
        (phi st) (cameraPosition st) (ogLookAt st) (cam st) (iteration st) (width st)
        (height st) (image st).
Definition set_theta (st : App) (v : F32.float) : App :=
  mkApp (ui st) (prev st) (mouse st) (lastLoopIterations st) (camchanged st) (zoom st) v
        (phi st) (cameraPosition st) (ogLookAt st) (cam st) (iteration st) (width st)
        (height st) (image st).
Definition set_phi (st : App) (v : F32.float) : App :=
  mkApp (ui st) (prev st) (mouse st) (lastLoopIterations st) (camchanged st) (zoom st) (theta st)
        v (cameraPosition st) (ogLookAt st) (cam st) (iteration st) (width st)
        (height st) (image st).
Definition set_cameraPosition (st : App) (v : glm.vec3) : App :=
  mkApp (ui st) (prev st) (mouse st) (lastLoopIterations st) (camchanged st) (zoom st) (theta st)
        (phi st) v (ogLookAt st) (cam st) (iteration st) (width st)
        (height st) (image st).
Definition set_cam (st : App) (v : Camera) : App :=
  mkApp (ui st) (prev st) (mouse st) (lastLoopIterations st) (camchanged st) (zoom st) (theta st)
        (phi st) (cameraPosition st) (ogLookAt st) v (iteration st) (width st)
        (height st) (image st).
Definition set_iteration (st : App) (v : Z) : App :=
  mkApp (ui st) (prev st) (mouse st) (lastLoopIterations st) (camchanged st) (zoom st) (theta st)
        (phi st) (cameraPosition st) (ogLookAt st) (cam st) v (width st)
        (height st) (image st).

(** ** main.cpp: the functions *)

(** The calls into CUDA, the path tracer, the preview and GLFW, in the
    order they are made.  [PathtraceInit c] is [pathtraceInit(scene)] with
    the camera [c] of the scene at the time of the call; [SaveImage ps] is
    a call of [saveImage()] that hands the pixels [ps] to [img.setPixel]. *)
Inductive event : Type :=
| PathtraceFree
| PathtraceInit (c : Camera)
| MapBufferObject
| Pathtrace (frame iter : Z) (denoise : bool) (filterSize : Z)
            (colorWeight normalWeight positionWeight : F32.float)
| ShowGBuffer
| ShowImage (iter : Z)
| UnmapBufferObject
| SaveImage (ps : option (list (Z * Z * glm.vec3)))
| DeviceReset
| Exit
| SetWindowShouldClose.

(** The literals [0.001f], [0.1f] and [0.01f]. *)
Definition f0_001 : F32.float := S754_finite false 8589935 (-33).
Definition f0_1 : F32.float := S754_finite false 13421773 (-27).
Definition f0_01 : F32.float := S754_finite false 10737418 (-30).

(** *** saveImage *)

(** The inner loop [for (int y = 0; y < height; y++)] at column [x]: the
    arguments of the calls of [img.setPixel], [None] when
    [renderState->image] is read outside its elements. *)
Fixpoint saveImage_column (st : App) (samples : F32.float) (x : Z) (ys : list Z)
  : option (list (Z * Z * glm.vec3)) :=
  match ys with
  | [] => Some []
  | y :: ys' =>
      let index := (x + y * width st)%Z in
      match at_ (image st) index with
      | None => None
      | Some pix =>
          match saveImage_column st samples x ys' with
          | None => None
          | Some ps => Some (((width st - 1 - x)%Z, y, vdiv pix samples) :: ps)
          end
      end
  end.

(** The outer loop [for (int x = 0; x < width; x++)]. *)
Fixpoint saveImage_columns (st : App) (samples : F32.float) (xs : list Z)
  : option (list (Z * Z * glm.vec3)) :=
  match xs with
  | [] => Some []
  | x :: xs' =>
      match saveImage_column st samples x (range 0 (height st)) with
      | None => None
      | Some ps =>
          match saveImage_columns st samples xs' with
          | None => None
          | Some qs => Some (ps ++ qs)
          end
      end
  end.

(** The pixels [saveImage] sets.  The file name it builds and the PNG it
    writes belong to the stream library and to [image.h]. *)
Definition saveImage (st : App) : option (list (Z * Z * glm.vec3)) :=
  let samples := F32.lit (iteration st) 0 in
  saveImage_columns st samples (range 0 (width st)).

(** *** uiStateChanged and runCuda *)

(** [a != b] on two floats: true as soon as one is a NaN. *)
Definition fneq (a b : F32.float) : bool := negb (F32.eqb a b).

Definition uiStateChanged (st : App) : bool :=
  negb (Bool.eqb (ui_denoise (ui st)) (ui_denoise_prev (prev st))) ||
  negb (ui_filterSize (ui st) =? ui_filterSize_prev (prev st))%Z ||
  fneq (ui_colorWeight (ui st)) (ui_colorWeight_prev (prev st)) ||
  fneq (ui_normalWeight (ui st)) (ui_normalWeight_prev (prev st)) ||
  fneq (ui_positionWeight (ui st)) (ui_positionWeight_prev (prev st)).

(** The body of [if (camchanged)]: the camera on its orbit around
    [cam.lookAt].  [sin] and [cos] are those of the C++ library on
    [float], which are not among the sources. *)
Definition orbit (sin cos : F32.float -> F32.float) (st : App) : App :=
  let st := set_iteration st 0 in
  let cameraPosition0 :=
    glm.Vec3 (zoom st * sin (phi st) * sin (theta st))
             (zoom st * cos (theta st))
             (zoom st * cos (phi st) * sin (theta st)) in
  let v := glm.vneg (glm.normalize cameraPosition0) in
  let u := glm.Vec3 F32.zero F32.one F32.zero in
  let r := glm.cross v u in
  let cameraPosition1 := glm.vadd cameraPosition0 (lookAt (cam st)) in
  let st := set_cam st (mkCamera v (glm.cross r v) r cameraPosition1 (lookAt (cam st))) in
  let st := set_cameraPosition st cameraPosition1 in
  set_camchanged st false.

(** [runCuda]: the globals after the call and the calls it makes.  After
    [Exit] the process is over. *)
Definition runCuda (sin cos : F32.float -> F32.float) (st : App) : App * list event :=
  let st :=
    if negb (lastLoopIterations st =? ui_iterations (ui st))%Z
    then set_camchanged (set_lastLoopIterations st (ui_iterations (ui st))) true
    else st in
  let st :=
    if uiStateChanged st
    then set_iteration
           (set_prev st (mkUiPrev (ui_denoise (ui st)) (ui_filterSize (ui st))
                                  (ui_colorWeight (ui st)) (ui_normalWeight (ui st))
                                  (ui_positionWeight (ui st)))) 0
    else st in
  let st := if camchanged st then orbit sin cos st else st in
  let init := if (iteration st =? 0)%Z then [PathtraceFree; PathtraceInit (cam st)] else [] in
  let '(st, trace) :=
    if (iteration st <? ui_iterations (ui st))%Z
    then
      let st := set_iteration st (iteration st + 1)%Z in
      (st, [Pathtrace 0 (iteration st) (ui_denoise (ui st)) (ui_filterSize (ui st))
                      (ui_colorWeight (ui st)) (ui_normalWeight (ui st))
                      (ui_positionWeight (ui st))])
    else (st, []) in
  let show := if ui_showGbuffer (ui st) then [ShowGBuffer] else [ShowImage (iteration st)] in
  let bye :=
    if ui_saveAndExit (ui st)
    then [SaveImage (saveImage st); PathtraceFree; DeviceReset; Exit]
    else [] in
  (st, init ++ [MapBufferObject] ++ trace ++ show ++ [UnmapBufferObject] ++ bye).

(** *** The GLFW callbacks *)

Definition keyCallback (key action : Z) (st : App) : App * list event :=
  if (action =? GLFW_PRESS)%Z then
    if (key =? GLFW_KEY_ESCAPE)%Z then (st, [SaveImage (saveImage st); SetWindowShouldClose])
    else if (key =? GLFW_KEY_S)%Z then (st, [SaveImage (saveImage st)])
    else if (key =? GLFW_KEY_SPACE)%Z then
      let st := set_camchanged st true in
      (set_cam st (mkCamera (view (cam st)) (up (cam st)) (right (cam st))
                            (position (cam st)) (ogLookAt st)), [])
    else (st, [])
  else (st, []).

(** [wantCaptureMouse] is [ImGui::GetIO().WantCaptureMouse]. *)
Definition mouseButtonCallback (wantCaptureMouse : bool) (button action : Z) (st : App) : App :=
  if wantCaptureMouse then st else
  set_mouse st
    (mkMouse ((button =? GLFW_MOUSE_BUTTON_LEFT)%Z && (action =? GLFW_PRESS)%Z)
             ((button =? GLFW_MOUSE_BUTTON_RIGHT)%Z && (action =? GLFW_PRESS)%Z)
             ((button =? GLFW_MOUSE_BUTTON_MIDDLE)%Z && (action =? GLFW_PRESS)%Z)
             (lastX (mouse st)) (lastY (mouse st))).

(** [PI] is the macro of [utilities.h], which is not among the sources. *)
Definition mousePositionCallback (PI : F32.float) (xpos ypos : F64.double) (st : App) : App :=
  if F64.eqb xpos (lastX (mouse st)) || F64.eqb ypos (lastY (mouse st)) then st else
  let dx := F64.sub xpos (lastX (mouse st)) in
  let dy := F64.sub ypos (lastY (mouse st)) in
  let st :=
    if leftMousePressed (mouse st) then
      let st := set_phi st
        (F64.to_float (F64.sub (F64.of_float (phi st)) (F64.div dx (F64.of_int (width st))))) in
      let st := set_theta st
        (F64.to_float (F64.sub (F64.of_float (theta st)) (F64.div dy (F64.of_int (height st))))) in
      let st := set_theta st (std_fmax f0_001 (std_fmin (theta st) PI)) in
      set_camchanged st true
    else if rightMousePressed (mouse st) then
      let st := set_zoom st
        (F64.to_float
           (F64.add (F64.of_float (zoom st))
                    (F64.div (F64.mul (F64.of_int 10) dy) (F64.of_int (height st))))) in
      let st := set_zoom st (std_fmax f0_1 (zoom st)) in
      set_camchanged st true
    else if middleMousePressed (mouse st) then
      let forward := glm.normalize (glm.set (view (cam st)) 1 F32.zero) in
      let right_ := glm.normalize (glm.set (right (cam st)) 1 F32.zero) in
      let lookAt1 :=
        glm.vsub (lookAt (cam st))
                 (glm.vscale (glm.smul (F64.to_float dx) right_) f0_01) in
      let lookAt2 :=
        glm.vadd lookAt1 (glm.vscale (glm.smul (F64.to_float dy) forward) f0_01) in
      let st := set_cam st (mkCamera (view (cam st)) (up (cam st)) (right (cam st))
                                     (position (cam st)) lookAt2) in
      set_camchanged st true
    else st in
  set_mouse st (mkMouse (leftMousePressed (mouse st)) (rightMousePressed (mouse st))
                        (middleMousePressed (mouse st)) xpos ypos).

(** ** Specification-side definitions *)

(** *** The order of binary32 values *)

(** Finite values of one sign compare by exponent, then by mantissa. *)
Definition lex (e1 : Z) (m1 : positive) (e2 : Z) (m2 : positive) : comparison :=
  match Z.compare e1 e2 with
  | Lt => Lt
  | Gt => Gt
  | Eq => Pos.compare_cont Eq m1 m2
  end.
Arguments lex : simpl never.

Definition fin_cmp (s1 : bool) (m1 : positive) (e1 : Z)
                   (s2 : bool) (m2 : positive) (e2 : Z) : comparison :=
  match s1, s2 with
  | true, false => Lt
  | false, true => Gt
  | false, false => lex e1 m1 e2 m2
  | true, true => CompOpp (lex e1 m1 e2 m2)
  end.

(** *** Box *)

(** [tmin] on its own: the running maximum of the near parameters, an axis
    counting only when its near parameter is positive. *)
Definition running_tmin (q : Ray) : F32.float :=
  fold_left (fun m xyz =>
               let ta := axis_ta q xyz in
               if (ta >? F32.zero) && (ta >? m) then ta else m)
            [0%nat; 1%nat; 2%nat] F32.mbig.

(** [tmax] on its own: the running minimum of the far parameters. *)
Definition running_tmax (q : Ray) : F32.float :=
  fold_left (fun m xyz =>
               let tb := axis_tb q xyz in
               if tb <? m then tb else m)
            [0%nat; 1%nat; 2%nat] F32.big.

(** The hit condition of the box test. *)
Definition box_hit (q : Ray) : bool :=
  let s := box_slabs q in
  (tmax s >=? tmin s) && (tmax s >? F32.zero).

(** What the box test reports for the local parameter [t] with candidate
    normal [n] and flag [o]. *)
Definition box_report (box : Geom) (r : Ray) (t : F32.float) (n : glm.vec3) (o : bool)
  : F32.float * Out :=
  let p := multiplyMV (transform box)
             (glm.mk_vec4 (getPointOnRay (localRay box r) t) F32.one) in
  (glm.length (glm.vsub (origin r) p),
   mkOut p (glm.normalize (multiplyMV (invTranspose box) (glm.mk_vec4 n F32.zero))) o).

(** The near side of the slab loop: [tmin] is still [-1e38f], or it is the
    positive near parameter of an axis and [tmin_n] the normal of that axis. *)
Definition near_side (q : Ray) (s : Slabs) : Prop :=
  tmin s = F32.mbig \/
  ((tmin s >? F32.zero) = true /\
   exists xyz, (xyz < 3)%nat /\ tmin s = axis_ta q xyz /\ tmin_n s = axis_n q xyz).

(** The far side: [tmax] is still [1e38f] and [tmax_n] the zero vector, or
    it is the far parameter of an axis and [tmax_n] the normal of that axis. *)
Definition far_side (q : Ray) (s : Slabs) : Prop :=
  (tmax s = F32.big /\ tmax_n s = glm.vec3_default) \/
  (exists xyz, (xyz < 3)%nat /\ tmax s = axis_tb q xyz /\ tmax_n s = axis_n q xyz).

(** *** Sphere *)

Definition sphere_hit (rt : Ray) : bool :=
  negb (sphere_radicand rt <? F32.zero) &&
  negb ((sphere_t1 rt <? F32.zero) && (sphere_t2 rt <? F32.zero)).

(** What the sphere test reports for the root [t]; the normal derived from
    the local point is reversed when [o] is false. *)
Definition sphere_report (sphere : Geom) (r : Ray) (t : F32.float) (o : bool)
  : F32.float * Out :=
  let p := getPointOnRay (localRay sphere r) t in
  let n := glm.normalize (multiplyMV (invTranspose sphere) (glm.mk_vec4 p F32.zero)) in
  let pw := multiplyMV (transform sphere) (glm.mk_vec4 p F32.one) in
  (glm.length (glm.vsub (origin r) pw), mkOut pw (if o then n else glm.vneg n) o).

(** *** Triangles *)

(** The point a triangle loop computes from the barycentric position. *)
Definition tri_point (tri : Triangle) (barycentric : glm.vec3) : glm.vec3 :=
  glm.vadd (glm.vadd (vertices0 tri)
              (glm.smul (glm.x barycentric) (glm.vsub (vertices1 tri) (vertices0 tri))))
           (glm.smul (glm.y barycentric) (glm.vsub (vertices2 tri) (vertices0 tri))).

(** The flat normal of a triangle. *)
Definition tri_normal (tri : Triangle) : glm.vec3 :=
  glm.normalize (glm.cross (glm.vsub (vertices1 tri) (vertices0 tri))
                           (glm.vsub (vertices2 tri) (vertices0 tri))).

(** When the local ray [rt] intersects [tri]: the local-space distance from
    the ray origin to the intersection point, and that point. *)
Definition tri_hit (rt : Ray) (tri : Triangle) : option (F32.float * glm.vec3) :=
  match glm.intersectRayTriangle (origin rt) (direction rt)
          (vertices0 tri) (vertices1 tri) (vertices2 tri) with
  | Some barycentric =>
      Some (glm.length (glm.vsub (tri_point tri barycentric) (origin rt)),
            tri_point tri barycentric)
  | None => None
  end.

(** [b] holds the hit of the [k]-th triangle of [tris], no intersected
    triangle of [tris] is strictly closer, and no intersected triangle
    before the [k]-th is at the same distance. *)
Definition selected (rt : Ray) (tris : list Triangle) (k : nat) (b : Best) : Prop :=
  exists tri d p,
    nth_error tris k = Some tri /\
    tri_hit rt tri = Some (d, p) /\
    best_t b = d /\
    intersectionPoint (best_out b) = p /\
    normal (best_out b) = tri_normal tri /\
    (forall j trj dj pj,
        nth_error tris j = Some trj -> tri_hit rt trj = Some (dj, pj) ->
        (dj <? d) = false) /\
    (forall j trj dj pj,
        (j < k)%nat ->
        nth_error tris j = Some trj -> tri_hit rt trj = Some (dj, pj) ->
        F32.eqb dj d = false).

(** No triangle of [tris] is intersected. *)
Definition no_hit (rt : Ray) (tris : list Triangle) : Prop :=
  Forall (fun tri => tri_hit rt tri = None) tris.

(** Some triangle of [tris] is intersected. *)
Definition some_hit (rt : Ray) (tris : list Triangle) : Prop :=
  Exists (fun tri => tri_hit rt tri <> None) tris.

(** *** Mesh *)

Fixpoint mapM {A B : Type} (f : A -> outcome B) (l : list A) : outcome (list B) :=
  match l with
  | [] => Returns []
  | a :: l' =>
      b <- f a ;;
      bs <- mapM f l' ;;
      Returns (b :: bs)
  end.

(** The triangles of a mesh, in the order the loop visits them. *)
Definition mesh_triangles (mesh : Mesh) : outcome (list Triangle) :=
  mapM (mesh_triangle mesh) (range3 (numIndices mesh)).

(** The invariant of a mesh: the index count is a multiple of 3 within the
    index array, and every index names three floats of the vertex array. *)
Definition mesh_wf (mesh : Mesh) : bool :=
  ((0 <=? numIndices mesh) && (numIndices mesh mod 3 =? 0) &&
   (numIndices mesh <=? Z.of_nat (length (indices mesh))) &&
   forallb (fun idx => (0 <=? idx) && (idx * 3 + 2 <? Z.of_nat (length (vertices mesh))))
           (firstn (Z.to_nat (numIndices mesh)) (indices mesh)))%Z.

(** A triangle loop over the triangles [tris], in order. *)
Definition triangle_loop (rt : Ray) (tris : list Triangle) (b : Best) : Best :=
  fold_left (fun acc tri => triangleStep rt tri acc) tris b.

(** *** Octree traversal, on the list of pending nodes *)

(** The nodes on the traversal stack, the top of the stack first. *)
Definition pending (st : Traversal) : list Z :=
  rev (firstn (Z.to_nat (stackSize st)) (stack st)).

(** The stack array has its 512 cells and [stackSize] is within it. *)
Definition stack_ok (st : Traversal) : Prop :=
  length (stack st) = Z.to_nat STACK_CAPACITY /\
  (0 <= stackSize st <= STACK_CAPACITY)%Z.

(** The children of a node that are not the sentinel [-1]. *)
Definition present (cs : list Z) : list Z :=
  filter (fun c => negb (c =? -1)%Z) cs.

(** The triangles of the range [dataStarts[i], dataStarts[i+1]) of a leaf. *)
Definition node_triangles (octree : OctreeDev) (nodeIndex : Z) : outcome (list Triangle) :=
  lo <- read (dataStarts octree) nodeIndex ;;
  hi <- read (dataStarts octree) (nodeIndex + 1)%Z ;;
  mapM (read (triangles octree)) (range lo hi).

(** The box test of a node on the world ray [r]: whether its result is
    positive, and the [outside] flag it leaves behind. *)
Definition box_pass (r : Ray) (boundingBox : Geom) : bool :=
  fst (boxIntersectionTest boundingBox r
         (mkOut glm.vec3_default glm.vec3_default false)) >? F32.zero.

Definition box_outside (r : Ray) (boundingBox : Geom) (o : bool) : bool :=
  outside (snd (boxIntersectionTest boundingBox r
                  (mkOut glm.vec3_default glm.vec3_default o))).

(** One step of the traversal as the specification words it: pop
    [nodeIndex], test its box against the world ray; on a miss drop the
    subtree; on a hit a leaf runs its triangles against the local ray,
    carrying the closest hit so far, and an internal node pushes its
    present children. *)
Definition spec_step (octree : OctreeDev) (r rt : Ray)
           (nodeIndex : Z) (rest : list Z) (b : Best) : outcome (list Z * Best) :=
  node <- read (nodes octree) nodeIndex ;;
  boundingBox <- read (boundingBoxes octree) nodeIndex ;;
  let b1 := mkBest (best_t b)
              (set_outside (best_out b) (box_outside r boundingBox (outside (best_out b)))) in
  if box_pass r boundingBox then
    if isLeaf node then
      tris <- node_triangles octree nodeIndex ;;
      Returns (rest, triangle_loop rt tris b1)
    else Returns (rev (present (children node)) ++ rest, b1)
  else Returns (rest, b1).

(** The triangles a traversal tests, in the order it tests them. *)
Fixpoint spec_visit (fuel : nat) (octree : OctreeDev) (r : Ray) (pend : list Z)
  : outcome (list Triangle) :=
  match pend with
  | [] => Returns []
  | nodeIndex :: rest =>
      match fuel with
      | O => NoFuel
      | S fuel' =>
          node <- read (nodes octree) nodeIndex ;;
          boundingBox <- read (boundingBoxes octree) nodeIndex ;;
          if box_pass r boundingBox then
            if isLeaf node then
              tris <- node_triangles octree nodeIndex ;;
              more <- spec_visit fuel' octree r rest ;;
              Returns (tris ++ more)
            else spec_visit fuel' octree r (rev (present (children node)) ++ rest)
          else spec_visit fuel' octree r rest
      end
  end.

(** Two accumulators with the same hit: [t], point and normal. *)
Definition same_hit (b1 b2 : Best) : Prop :=
  best_t b1 = best_t b2 /\
  intersectionPoint (best_out b1) = intersectionPoint (best_out b2) /\
  normal (best_out b1) = normal (best_out b2).

(** The states the loop goes through from a state. *)
Inductive reaches (octree : OctreeDev) (r rt : Ray) : Traversal -> Traversal -> Prop :=
| reaches_refl (st : Traversal) : reaches octree r rt st st
| reaches_step (st st1 st2 : Traversal) :
    (0 < stackSize st)%Z ->
    octree_body octree r rt st = Returns st1 ->
    reaches octree r rt st1 st2 ->
    reaches octree r rt st st2.

(** A run of the loop from [st] to [st'] on which the stack never holds
    more than [bound] nodes. *)
Inductive run_within (octree : OctreeDev) (r rt : Ray) (bound : Z)
  : Traversal -> Traversal -> Prop :=
| run_done (st : Traversal) :
    (stackSize st <= bound)%Z -> run_within octree r rt bound st st
| run_step (st st1 st2 : Traversal) :
    (0 < stackSize st <= bound)%Z ->
    octree_body octree r rt st = Returns st1 ->
    run_within octree r rt bound st1 st2 ->
    run_within octree r rt bound st st2.

(** The pairs of pending list and hit the traversal of the specification
    goes through. *)
Inductive spec_reaches (octree : OctreeDev) (r rt : Ray)
  : list Z * Best -> list Z * Best -> Prop :=
| spec_reaches_refl (s : list Z * Best) : spec_reaches octree r rt s s
| spec_reaches_step (top : Z) (rest : list Z) (b : Best) (s1 s2 : list Z * Best) :
    spec_step octree r rt top rest b = Returns s1 ->
    spec_reaches octree r rt s1 s2 ->
    spec_reaches octree r rt (top :: rest, b) s2.

(** The bound the stack relies on: during the traversal of [octree] by the
    ray, the number of pending nodes never exceeds the capacity. *)
Definition pending_bounded (octree : OctreeDev) (r : Ray) (out : Out) : Prop :=
  forall pend b,
    spec_reaches octree r (localRay (octree_geom octree) r)
                 ([root octree], mkBest F32.mone out) (pend, b) ->
    (Z.of_nat (length pend) <= STACK_CAPACITY)%Z.

(** The subtree of node [i] is readable and at most [h] levels of internal
    nodes deep: every node and box is in its table, a leaf has its range
    within the triangle array, an internal node has its eight child slots. *)
Fixpoint tree_ok (octree : OctreeDev) (h : nat) (i : Z) : bool :=
  match at_ (nodes octree) i, at_ (boundingBoxes octree) i with
  | Some node, Some _ =>
      if isLeaf node then
        match at_ (dataStarts octree) i, at_ (dataStarts octree) (i + 1)%Z with
        | Some lo, Some hi =>
            ((hi <=? lo) ||
             ((0 <=? lo) && (hi <=? Z.of_nat (length (triangles octree)))))%Z
        | _, _ => false
        end
      else
        match h with
        | O => false
        | S h' =>
            (length (children node) =? 8)%nat &&
            forallb (fun c => (c =? -1)%Z || tree_ok octree h' c) (children node)
        end
  | _, _ => false
  end.

(** *** The end of a mesh or octree hit *)

(** What the mesh and octree tests report for the local point [p] and
    local normal [n] of the selected triangle: the world normal [nw] is
    kept when it faces the local ray direction ([dot < 0], [outside] true)
    and negated otherwise ([outside] false). *)
Definition facing_report (g : Geom) (r rt : Ray) (p n : glm.vec3) : F32.float * Out :=
  let pw := multiplyMV (transform g) (glm.mk_vec4 p F32.one) in
  let nw := glm.normalize (multiplyMV (invTranspose g) (glm.mk_vec4 n F32.zero)) in
  let facing := glm.dot nw (direction rt) <? F32.zero in
  (glm.length (glm.vsub (origin r) pw),
   mkOut pw (if facing then nw else glm.vneg nw) facing).

(** The world-space point of the biased local point at parameter [t]. *)
Definition biased_point (g : Geom) (r : Ray) (t : F32.float) : glm.vec3 :=
  multiplyMV (transform g) (glm.mk_vec4 (getPointOnRay (localRay g r) t) F32.one).

(** The local parameter the box test reports, and the root the sphere test uses. *)
Definition box_t (q : Ray) : F32.float :=
  let s := box_slabs q in
  if tmin s <=? F32.zero then tmax s else tmin s.

Definition sphere_t (rt : Ray) : F32.float :=
  if (sphere_t1 rt >? F32.zero) && (sphere_t2 rt >? F32.zero)
  then fmin (sphere_t1 rt) (sphere_t2 rt)
  else fmax (sphere_t1 rt) (sphere_t2 rt).

(** *** What the return value says *)

(** [ret] is the sentinel -1 exactly when there is no hit, it is below
    zero exactly when there is no hit, and on a hit it is not below zero
    (and at least zero unless it is a NaN). *)
Definition sign_encodes (hit : Prop) (ret : F32.float) : Prop :=
  (ret = F32.mone <-> ~ hit) /\
  ((ret <? F32.zero) = true <-> ~ hit) /\
  (hit -> (ret <? F32.zero) = false /\
          (F32.is_nan ret = false -> (F32.zero <=? ret) = true)).

(** The facing rule of the mesh and octree tests, for the local normal [n]
    of the selected triangle and the outputs [out']. *)
Definition facing_rule (g : Geom) (rt : Ray) (n : glm.vec3) (out' : Out) : Prop :=
  let nw := glm.normalize (multiplyMV (invTranspose g) (glm.mk_vec4 n F32.zero)) in
  let d := glm.dot nw (direction rt) in
  (outside out' = true <-> (d <? F32.zero) = true) /\
  ((d <? F32.zero) = true -> normal out' = nw) /\
  ((d >=? F32.zero) = true -> outside out' = false /\ normal out' = glm.vneg nw) /\
  ((d <? F32.zero) = false -> outside out' = false /\ normal out' = glm.vneg nw).

(** *** Repeated tests, and the output parameters *)

(** [b] holds a hit that the hit of [tri] does not beat. *)
Definition beaten (rt : Ray) (tri : Triangle) (b : Best) : Prop :=
  forall d p, tri_hit rt tri = Some (d, p) ->
              (best_t b <? F32.zero) = false /\ (d <? best_t b) = false.

(** Two accumulators started from different output parameters: the same
    [t], and the same point and normal once [t] is that of a hit. *)
Definition agree (b1 b2 : Best) : Prop :=
  best_t b1 = best_t b2 /\
  ((best_t b1 <? F32.zero) = false ->
   intersectionPoint (best_out b1) = intersectionPoint (best_out b2) /\
   normal (best_out b1) = normal (best_out b2)).

(** Two results of a test: the same return value, and the same outputs
    when it is that of a hit. *)
Definition same_result (res1 res2 : F32.float * Out) : Prop :=
  fst res1 = fst res2 /\ ((fst res1 <? F32.zero) = false -> snd res1 = snd res2).

(** The same for a test that can fault. *)
Definition same_outcome (m1 m2 : outcome (F32.float * Out)) : Prop :=
  match m1, m2 with
  | Returns res1, Returns res2 => same_result res1 res2
  | OutOfBounds arr1, OutOfBounds arr2 => arr1 = arr2
  | NoFuel, NoFuel => True
  | _, _ => False
  end.

(** No two different triangles of [tris] are hit at distances neither of
    which is below the other (equal distances, or a NaN). *)
Definition no_ties (rt : Ray) (tris : list Triangle) : Prop :=
  forall tri1 tri2 d1 p1 d2 p2,
    In tri1 tris -> In tri2 tris ->
    tri_hit rt tri1 = Some (d1, p1) -> tri_hit rt tri2 = Some (d2, p2) ->
    (d1 <? d2) = false -> (d2 <? d1) = false -> tri1 = tri2.

(** *** Undoing [utilhash] *)

(** The 32-bit words. *)
Definition word32 (a : Z) : Prop := (0 <= a < 2 ^ 32)%Z.

(** [a = (a + c) + (a << k)] multiplies by the odd number [2^k + 1] and
    adds [c]; [inv] is the inverse of [2^k + 1] modulo 2^32. *)
Definition un_add_shl (c inv y : Z) : Z := wrap32 (inv * (y - c))%Z.

(** [a = (a ^ c) ^ (a >> k)] with [2 * k >= 32]. *)
Definition un_xor_shr (c k y : Z) : Z :=
  let z := Z.lxor y c in Z.lxor z (Z.shiftr z k).

(** [a = (a + c) ^ (a << k)]: from a guess [x] right in its low [n] bits,
    one that is right in its low [n + k] bits. *)
Definition sharpen (c k y x : Z) : Z :=
  wrap32 (Z.lxor y (wrap32 (Z.shiftl x k)) - c)%Z.
Definition un_add_xor_shl (c k y : Z) : Z :=
  sharpen c k y (sharpen c k y (sharpen c k y (sharpen c k y 0%Z))).

Definition unhash (y : Z) : Z :=
  let y := un_xor_shr 0xb55a4f09 16 y in
  let y := un_add_shl 0xfd7046c5 954437177 y in
  let y := un_add_xor_shl 0xd3a2646c 9 y in
  let y := un_add_shl 0x165667b1 1041204193 y in
  let y := un_xor_shr 0xc761c23c 19 y in
  let y := un_add_shl 0x7ed55d16 16773121 y in
  y.

(** *** main.cpp *)

(** The camera angles and distance are within the range the drags clamp
    them to. *)
Definition orbit_in_range (PI : F32.float) (st : App) : Prop :=
  (f0_001 <=? theta st) = true /\ (theta st <=? PI) = true /\ (f0_1 <=? zoom st) = true.

(** A motion of the mouse that [mousePositionCallback] does not ignore. *)
Definition accepted (xpos ypos : F64.double) (st : App) : bool :=
  negb (F64.eqb xpos (lastX (mouse st)) || F64.eqb ypos (lastY (mouse st))).

(** The variables [runCuda] compares are copied when they differ. *)
Definition snapshot (u : Ui) : UiPrev :=
  mkUiPrev (ui_denoise u) (ui_filterSize u) (ui_colorWeight u) (ui_normalWeight u)
           (ui_positionWeight u).

(** A frame starts the accumulation again. *)
Definition restarts (st : App) : bool :=
  negb (lastLoopIterations st =? ui_iterations (ui st))%Z || uiStateChanged st || camchanged st.

(** The globals after the three conditionals at the head of [runCuda]. *)
Definition runCuda_head (sin cos : F32.float -> F32.float) (st : App) : App :=
  let st :=
    if negb (lastLoopIterations st =? ui_iterations (ui st))%Z
    then set_camchanged (set_lastLoopIterations st (ui_iterations (ui st))) true
    else st in
  let st :=
    if uiStateChanged st
    then set_iteration (set_prev st (snapshot (ui st))) 0
    else st in
  if camchanged st then orbit sin cos st else st.

(** The state after [k] calls of [runCuda] with no input in between. *)
Fixpoint frames (sin cos : F32.float -> F32.float) (k : nat) (st : App) : App :=
  match k with
  | O => st
  | S k' => frames sin cos k' (fst (runCuda sin cos st))
  end.

(** The calls of a frame that does not exit: [init] says whether the path
    tracer is set up again, [sample] whether a sample is taken, which is
    then the sample number [iter]. *)
Definition frame_calls (init sample : bool) (iter : Z) (st : App) : list event :=
  (if init then [PathtraceFree; PathtraceInit (cam st)] else []) ++
  [MapBufferObject] ++
  (if sample
   then [Pathtrace 0 iter (ui_denoise (ui st)) (ui_filterSize (ui st))
                   (ui_colorWeight (ui st)) (ui_normalWeight (ui st))
                   (ui_positionWeight (ui st))]
   else []) ++
  (if ui_showGbuffer (ui st) then [ShowGBuffer] else [ShowImage iter]) ++
  [UnmapBufferObject].

(** The element of [renderState->image] at [index]. *)
Definition pixel_at (st : App) (index : Z) : glm.vec3 :=
  match at_ (image st) index with Some pix => pix | None => glm.vec3_default end.

(** The call of [img.setPixel] for the element at column [x] and row [y]. *)
Definition mirrored (st : App) (samples : F32.float) (xy : Z * Z) : Z * Z * glm.vec3 :=
  ((width st - 1 - fst xy)%Z, snd xy,
   vdiv (pixel_at st (fst xy + snd xy * width st)%Z) samples).

(** A value that is an infinity or a NaN. *)
Definition not_finite (a : F32.float) : bool :=
  match a with S754_infinity _ | S754_nan => true | _ => false end.

(** ** Concrete scenes *)

Definition identity : glm.mat4 :=
  glm.Mat4 (glm.Vec4 F32.one F32.zero F32.zero F32.zero)
           (glm.Vec4 F32.zero F32.one F32.zero F32.zero)
           (glm.Vec4 F32.zero F32.zero F32.one F32.zero)
           (glm.Vec4 F32.zero F32.zero F32.zero F32.one).

(** The unit cube, or the unit sphere, at the origin. *)
Definition unit_geom : Geom := mkGeom identity identity identity.

Definition out_init : Out := mkOut glm.vec3_default glm.vec3_default false.

(** The vector [(a * 2^-3, b * 2^-3, c * 2^-3)], in eighths. *)
Definition eighths (a b c : Z) : glm.vec3 :=
  glm.Vec3 (F32.lit a (-3)) (F32.lit b (-3)) (F32.lit c (-3)).

(** A ray from [(0, 0, -5)] along [+z]. *)
Definition ray_front : Ray := mkRay (eighths 0 0 (-40)) (eighths 0 0 8).

(** A ray from the centre along [+x]. *)
Definition ray_centre : Ray := mkRay (eighths 0 0 0) (eighths 8 0 0).

(** One triangle [(0,0,0), (1,0,0), (0,1,0)], and a ray from
    [(0.25, 0.25, 1)] along [-z] onto its front face. *)
Definition mesh_one : Mesh :=
  mkMesh unit_geom
    [F32.zero; F32.zero; F32.zero;
     F32.one; F32.zero; F32.zero;
     F32.zero; F32.one; F32.zero]
    [0; 1; 2]%Z 3.

Definition ray_down : Ray := mkRay (eighths 2 2 8) (eighths 0 0 (-8)).

(** The same triangle twice: two hits at the same distance. *)
Definition mesh_twice : Mesh :=
  mkMesh unit_geom
    [F32.zero; F32.zero; F32.zero;
     F32.one; F32.zero; F32.zero;
     F32.zero; F32.one; F32.zero]
    [0; 1; 2; 0; 1; 2]%Z 6.

(** A triangle in the plane [z = 0.5 - 2^-16], inside the unit cube. *)
Definition z_near_face : F32.float := F32.lit 32767 (-16).

Definition tri_near_face : Triangle :=
  mkTriangle (glm.Vec3 (F32.lit (-1) (-2)) (F32.lit 1 (-2)) z_near_face)
             (glm.Vec3 (F32.lit 1 (-2)) (F32.lit 1 (-2)) z_near_face)
             (glm.Vec3 (F32.lit (-1) (-2)) (F32.lit (-1) (-2)) z_near_face).

Definition mesh_near_face : Mesh :=
  mkMesh unit_geom
    [F32.lit (-1) (-2); F32.lit 1 (-2); z_near_face;
     F32.lit 1 (-2); F32.lit 1 (-2); z_near_face;
     F32.lit (-1) (-2); F32.lit (-1) (-2); z_near_face]
    [0; 1; 2]%Z 3.

Definition no_children : list Z := repeat (-1)%Z 8.

(** The octree over [mesh_near_face]: the root is a leaf whose box is the
    unit cube and whose range is the one triangle. *)
Definition octree_near_face : OctreeDev :=
  mkOctreeDev unit_geom 0
    [mkOctreeNode no_children true]
    [unit_geom]
    [0; 1]%Z
    [tri_near_face].

(** A ray along [+z] from inside the cube, about [1e-4] before the face
    [z = 0.5]: its origin is at [z = 0.5f - 0.0001f]. *)
Definition ray_near_face : Ray :=
  mkRay (glm.Vec3 (F32.lit (-1) (-3)) (F32.lit 1 (-3)) (F32.half - F32.bias))
        (eighths 0 0 8).

(** A ray along [+z] through the cube that passes beside the triangle. *)
Definition ray_beside : Ray := mkRay (eighths 3 3 (-40)) (eighths 0 0 8).

(** An octree of two levels: an internal root over the unit cube with two
    leaves, each holding the triangle. *)
Definition octree_two_leaves : OctreeDev :=
  mkOctreeDev unit_geom 0
    [mkOctreeNode [1; -1; -1; 2; -1; -1; -1; -1]%Z false;
     mkOctreeNode no_children true;
     mkOctreeNode no_children true]
    [unit_geom; unit_geom; unit_geom]
    [0; 0; 1; 2]%Z
    [tri_near_face; tri_near_face].

(** An octree whose root is an internal node with itself as its eight
    children, and a traversal state with 506 nodes on the stack. *)
Definition octree_self : OctreeDev :=
  mkOctreeDev unit_geom 0 [mkOctreeNode (repeat 0%Z 8) false] [unit_geom] [] [].

Definition stack_nearly_full : Traversal :=
  mkTraversal stack_uninit 506 (mkBest F32.mone out_init).

(** A ray from [(2^64, 0, 0)] along [+x], away from the unit sphere: a
    finite origin and a unit direction, with [dot(origin, origin)] beyond
    the range of [float]. *)
Definition ray_far : Ray :=
  mkRay (glm.Vec3 (F32.lit 1 64) F32.zero F32.zero) (eighths 8 0 0).

(** *** The globals of main.cpp *)

(** The value of [PI] in [float]. *)
Definition f_pi : F32.float := S754_finite false 13176795 (-22).

(** The GUI variables at their initial values [0.45f], [0.35f], [0.2f] and
    80, with a budget of 3 samples. *)
Definition ui_example : Ui :=
  mkUi 3 false false 80
       (S754_finite false 15099494 (-25)) (S754_finite false 11744051 (-25))
       (S754_finite false 13421773 (-26)) false.

(** The globals as [main] leaves them for a scene of 2 by 2 pixels: no
    sample taken yet, [camchanged] set. *)
Definition app_example : App :=
  mkApp ui_example
        (mkUiPrev false 80 (S754_finite false 15099494 (-25))
                  (S754_finite false 11744051 (-25)) (S754_finite false 13421773 (-26)))
        (mkMouse false false false (F64.of_int 0) (F64.of_int 0))
        0 true (F32.lit 5 0) (F32.lit 3 (-1)) F32.zero
        (eighths 0 0 40) (eighths 0 0 0)
        (mkCamera (eighths 0 0 (-8)) (eighths 0 8 0) (eighths 8 0 0)
                  (eighths 0 0 40) (eighths 0 0 0))
        0 2 2
        [eighths 8 0 0; eighths 0 8 0; eighths 0 0 8; eighths 8 8 8].

(** The same with the left button held. *)
Definition app_dragging : App :=
  mouseButtonCallback false GLFW_MOUSE_BUTTON_LEFT GLFW_PRESS app_example.

(** *** The build-time invariants of an octree over a mesh *)

(** Modelled from the spec: the code that builds an octree is not among
    the sources; the invariants below are the ones the specification states
    for it.  The local point [v] of [g] lies in the bounding box
    [boundingBox] when its world image, taken into the local space of the
    box, is within the unit cube. *)
Definition box_contains (boundingBox g : Geom) (v : glm.vec3) : bool :=
  let w := multiplyMV (transform g) (glm.mk_vec4 v F32.one) in
  let p := multiplyMV (inverseTransform boundingBox) (glm.mk_vec4 w F32.one) in
  (F32.mhalf <=? glm.x p) && (glm.x p <=? F32.half) &&
  (F32.mhalf <=? glm.y p) && (glm.y p <=? F32.half) &&
  (F32.mhalf <=? glm.z p) && (glm.z p <=? F32.half).

Definition box_contains_triangle (boundingBox g : Geom) (tri : Triangle) : bool :=
  box_contains boundingBox g (vertices0 tri) &&
  box_contains boundingBox g (vertices1 tri) &&
  box_contains boundingBox g (vertices2 tri).

(** The triangles of the range of node [i], empty when a table is too short. *)
Definition range_triangles (octree : OctreeDev) (i : Z) : list Triangle :=
  match node_triangles octree i with
  | Returns tris => tris
  | _ => []
  end.

(** Modelled from the spec: every leaf's box contains the triangles of its
    range. *)
Definition leaf_boxes_contain (octree : OctreeDev) : bool :=
  forallb (fun i =>
             match at_ (nodes octree) i, at_ (boundingBoxes octree) i with
             | Some node, Some boundingBox =>
                 negb (isLeaf node) ||
                 forallb (box_contains_triangle boundingBox (octree_geom octree))
                         (range_triangles octree i)
             | _, _ => false
             end)
          (range 0 (Z.of_nat (length (nodes octree)))).

(** How many leaves have the triangle index [k] in their range. *)
Definition leaves_holding (octree : OctreeDev) (k : Z) : nat :=
  length (filter (fun i =>
                    match at_ (nodes octree) i,
                          at_ (dataStarts octree) i, at_ (dataStarts octree) (i + 1)%Z with
                    | Some node, Some lo, Some hi =>
                        isLeaf node && (lo <=? k)%Z && (k <? hi)%Z
                    | _, _, _ => false
                    end)
                 (range 0 (Z.of_nat (length (nodes octree))))).

(** Modelled from the spec: the leaf ranges partition the triangle array. *)
Definition leaf_ranges_partition (octree : OctreeDev) : bool :=
  forallb (fun k => (leaves_holding octree k =? 1)%nat)
          (range 0 (Z.of_nat (length (triangles octree)))).

(** Modelled from the spec: the root box contains every triangle. *)
Definition root_box_contains (octree : OctreeDev) : bool :=
  match at_ (boundingBoxes octree) (root octree) with
  | Some boundingBox =>
      forallb (box_contains_triangle boundingBox (octree_geom octree)) (triangles octree)
  | None => false
  end.

(** Modelled from the spec: the octree is built over the mesh, with the
    same placement, the triangles of the mesh copied into the octree in
    some order, and the three invariants above. *)
Definition built_over (octree : OctreeDev) (mesh : Mesh) : Prop :=
  octree_geom octree = mesh_geom mesh /\
  (exists tris, mesh_triangles mesh = Returns tris /\
                Permutation tris (triangles octree)) /\
  leaf_boxes_contain octree = true /\
  leaf_ranges_partition octree = true /\
  root_box_contains octree = true.

(** ** Facts about binary32 *)

Module F32Facts.

Lemma round_aux_not_neg (mz ez : Z) (lz : location) :
  SFltb (binary_round_aux F32.prec F32.emax false mz ez lz) F32.zero = false.
Proof.
  unfold binary_round_aux.
  destruct (shr_fexp F32.prec F32.emax mz ez lz) as [mrs' e'].
  destruct (shr_fexp F32.prec F32.emax _ e' loc_Exact) as [mrs'' e''].
  destruct (shr_m mrs''); try reflexivity.
  destruct (Z.leb _ _); reflexivity.
Qed.

(** A square root is never below zero: it is a NaN, a zero, or positive. *)
Lemma sqrt_not_neg (a : F32.float) : (F32.sqrt a <? F32.zero) = false.
Proof.
  destruct a as [s|s| |s m e]; try (destruct s; reflexivity); try reflexivity.
  destruct s; [reflexivity|].
  unfold F32.ltb, F32.sqrt, SFsqrt.
  destruct (SFsqrt_core_binary F32.prec F32.emax (Zpos m) e) as [[mz ez] lz].
  apply round_aux_not_neg.
Qed.

Lemma lex_spec (e1 : Z) (m1 : positive) (e2 : Z) (m2 : positive) :
  CompareSpec (e1 = e2 /\ m1 = m2)
              ((e1 < e2)%Z \/ (e1 = e2 /\ (m1 < m2)%positive))
              ((e2 < e1)%Z \/ (e1 = e2 /\ (m2 < m1)%positive))
              (lex e1 m1 e2 m2).
Proof.
  unfold lex. change (Pos.compare_cont Eq m1 m2) with (Pos.compare m1 m2).
  destruct (Z.compare_spec e1 e2); destruct (Pos.compare_spec m1 m2);
    constructor; auto; lia.
Qed.

Lemma fin_compare s1 m1 e1 s2 m2 e2 :
  SFcompare (S754_finite s1 m1 e1) (S754_finite s2 m2 e2)
  = Some (fin_cmp s1 m1 e1 s2 m2 e2).
Proof.
  unfold fin_cmp, lex. simpl.
  destruct s1, s2; try reflexivity; destruct (Z.compare e1 e2); reflexivity.
Qed.

Ltac lex_cases :=
  repeat match goal with
  | |- context [lex ?a ?m ?b ?n] => destruct (lex_spec a m b n)
  end.

(** Decides order facts by cases on the shape of the values. *)
Ltac float_order :=
  unfold F32.gtb, F32.geb, F32.ltb, F32.leb, F32.eqb, F32.is_nan, SFltb, SFleb, SFeqb;
  repeat match goal with x : F32.float |- _ => destruct x end;
  repeat match goal with x : spec_float |- _ => destruct x end;
  rewrite ?fin_compare; unfold fin_cmp; simpl;
  repeat match goal with s : bool |- _ => destruct s end; simpl;
  try discriminate; try reflexivity; try tauto;
  lex_cases; simpl; try discriminate; try reflexivity; try (intros; lia); try tauto.

Lemma ltb_irrefl (a : F32.float) : (a <? a) = false.
Proof. float_order. Qed.

Lemma ltb_trans (a b c : F32.float) :
  (a <? b) = true -> (b <? c) = true -> (a <? c) = true.
Proof. float_order. Qed.

Lemma ltb_asym (a b : F32.float) : (a <? b) = true -> (b <? a) = false.
Proof. float_order. Qed.

Lemma eqb_ltb_trans (a b c : F32.float) :
  F32.eqb a b = true -> (b <? c) = true -> (a <? c) = true.
Proof. float_order. Qed.

Lemma not_ltb_leb (a b : F32.float) :
  F32.is_nan a = false -> F32.is_nan b = false -> (a <? b) = false -> (b <=? a) = true.
Proof. float_order. Qed.

Lemma leb_not_ltb (a b : F32.float) : (a <=? b) = true -> (b <? a) = false.
Proof. float_order. Qed.

Lemma mone_neg : (F32.mone <? F32.zero) = true.
Proof. reflexivity. Qed.

Lemma length_not_neg (v : glm.vec3) : (glm.length v <? F32.zero) = false.
Proof. apply sqrt_not_neg. Qed.

Lemma length_not_mone (v : glm.vec3) : glm.length v <> F32.mone.
Proof.
  intro H. pose proof (length_not_neg v) as Hn.
  rewrite H in Hn. discriminate.
Qed.

End F32Facts.

Import F32Facts.

(** ** The box test *)

Lemma box_axis_tmin (q : Ray) (s : Slabs) (xyz : nat) :
  tmin (box_axis q s xyz) =
  if (axis_ta q xyz >? F32.zero) && (axis_ta q xyz >? tmin s)
  then axis_ta q xyz else tmin s.
Proof.
  unfold box_axis.
  destruct ((axis_ta q xyz >? F32.zero) && (axis_ta q xyz >? tmin s));
    simpl; destruct (axis_tb q xyz <? tmax s); reflexivity.
Qed.

Lemma box_axis_tmax (q : Ray) (s : Slabs) (xyz : nat) :
  tmax (box_axis q s xyz) =
  if axis_tb q xyz <? tmax s then axis_tb q xyz else tmax s.
Proof.
  unfold box_axis.
  destruct ((axis_ta q xyz >? F32.zero) && (axis_ta q xyz >? tmin s));
    simpl; destruct (axis_tb q xyz <? tmax s); reflexivity.
Qed.

Lemma box_loop_tmin (q : Ray) (axes : list nat) (s : Slabs) :
  tmin (fold_left (box_axis q) axes s) =
  fold_left (fun m xyz =>
               let ta := axis_ta q xyz in
               if (ta >? F32.zero) && (ta >? m) then ta else m) axes (tmin s).
Proof.
  revert s. induction axes as [|a axes IH]; intro s; [reflexivity|].
  simpl. rewrite IH, box_axis_tmin. reflexivity.
Qed.

Lemma box_loop_tmax (q : Ray) (axes : list nat) (s : Slabs) :
  tmax (fold_left (box_axis q) axes s) =
  fold_left (fun m xyz =>
               let tb := axis_tb q xyz in
               if tb <? m then tb else m) axes (tmax s).
Proof.
  revert s. induction axes as [|a axes IH]; intro s; [reflexivity|].
  simpl. rewrite IH, box_axis_tmax. reflexivity.
Qed.

(** The box test, by cases on the hit condition and on [tmin <= 0]. *)
Lemma boxIntersectionTest_cases (box : Geom) (r : Ray) (out : Out) :
  boxIntersectionTest box r out =
  let s := box_slabs (localRay box r) in
  if box_hit (localRay box r) then
    if tmin s <=? F32.zero
    then box_report box r (tmax s) (tmax_n s) false
    else box_report box r (tmin s) (tmin_n s) true
  else (F32.mone, out).
Proof.
  unfold boxIntersectionTest, box_hit, box_report. cbv zeta.
  destruct ((tmax (box_slabs (localRay box r)) >=? tmin (box_slabs (localRay box r)))
            && (tmax (box_slabs (localRay box r)) >? F32.zero)); [|reflexivity].
  destruct (tmin (box_slabs (localRay box r)) <=? F32.zero); reflexivity.
Qed.

Lemma box_report_not_mone (box : Geom) (r : Ray) (t : F32.float) (n : glm.vec3) (o : bool) :
  fst (box_report box r t n o) <> F32.mone.
Proof. apply length_not_mone. Qed.

Lemma box_report_not_neg (box : Geom) (r : Ray) (t : F32.float) (n : glm.vec3) (o : bool) :
  (fst (box_report box r t n o) <? F32.zero) = false.
Proof. apply length_not_neg. Qed.

(** The value the box test returns does not depend on the output parameters. *)
Lemma boxIntersectionTest_fst (box : Geom) (r : Ray) (out1 out2 : Out) :
  fst (boxIntersectionTest box r out1) = fst (boxIntersectionTest box r out2).
Proof.
  rewrite !boxIntersectionTest_cases. cbv zeta.
  destruct (box_hit (localRay box r)); reflexivity.
Qed.

(** C3. For every box and ray: [tmin] is the running maximum of the near
    parameters that are positive and [tmax] the running minimum of the far
    parameters; the test reports a hit (a value other than -1) exactly when
    [tmax >= tmin && tmax > 0]; on a hit with [tmin <= 0] it reports the far
    intersection ([tmax], [tmax_n]) with [outside = false], on a hit with
    [tmin > 0] the near one ([tmin], [tmin_n]) with [outside = true], and
    without a hit it returns -1 and leaves the outputs as they were. *)
Theorem box_result_policy (box : Geom) (r : Ray) (out : Out) :
  let q := localRay box r in
  let s := box_slabs q in
  let hit := (tmax s >=? tmin s) && (tmax s >? F32.zero) in
  (tmin s = running_tmin q /\ tmax s = running_tmax q) /\
  (hit = true <-> fst (boxIntersectionTest box r out) <> F32.mone) /\
  (hit = true -> (tmin s <=? F32.zero) = true ->
     boxIntersectionTest box r out = box_report box r (tmax s) (tmax_n s) false) /\
  (hit = true -> (tmin s <=? F32.zero) = false ->
     boxIntersectionTest box r out = box_report box r (tmin s) (tmin_n s) true) /\
  (hit = false -> boxIntersectionTest box r out = (F32.mone, out)).
Proof.
  intros q s hit. subst hit s q.
  split; [split|].
  - apply (box_loop_tmin (localRay box r) [0%nat; 1%nat; 2%nat] slabs_init).
  - apply (box_loop_tmax (localRay box r) [0%nat; 1%nat; 2%nat] slabs_init).
  - rewrite boxIntersectionTest_cases. unfold box_hit. cbv zeta.
    generalize (box_slabs (localRay box r)). intro s.
    destruct ((tmax s >=? tmin s) && (tmax s >? F32.zero)).
    + destruct (tmin s <=? F32.zero).
      * split; [split; [intros _; apply box_report_not_mone | reflexivity]|].
        split; [reflexivity|].
        split; intros; discriminate.
      * split; [split; [intros _; apply box_report_not_mone | reflexivity]|].
        split; [intros; discriminate|].
        split; [reflexivity | intros; discriminate].
    + split; [split; [intros; discriminate | intros H; exfalso; apply H; reflexivity]|].
      split; [intros; discriminate|].
      split; [intros; discriminate | reflexivity].
Qed.

(** ** The sphere test *)

(** The sphere test, by cases on the discriminant and the signs of the roots. *)
Lemma sphereIntersectionTest_cases (sphere : Geom) (r : Ray) (out : Out) :
  sphereIntersectionTest sphere r out =
  let rt := localRay sphere r in
  if sphere_radicand rt <? F32.zero then (F32.mone, out)
  else if (sphere_t1 rt <? F32.zero) && (sphere_t2 rt <? F32.zero) then (F32.mone, out)
  else if (sphere_t1 rt >? F32.zero) && (sphere_t2 rt >? F32.zero)
  then sphere_report sphere r (fmin (sphere_t1 rt) (sphere_t2 rt)) true
  else sphere_report sphere r (fmax (sphere_t1 rt) (sphere_t2 rt)) false.
Proof.
  unfold sphereIntersectionTest, sphere_report. cbv zeta.
  destruct (sphere_radicand (localRay sphere r) <? F32.zero); [reflexivity|].
  destruct ((sphere_t1 (localRay sphere r) <? F32.zero)
            && (sphere_t2 (localRay sphere r) <? F32.zero)); [reflexivity|].
  destruct ((sphere_t1 (localRay sphere r) >? F32.zero)
            && (sphere_t2 (localRay sphere r) >? F32.zero)); reflexivity.
Qed.

Lemma sphere_report_not_mone (sphere : Geom) (r : Ray) (t : F32.float) (o : bool) :
  fst (sphere_report sphere r t o) <> F32.mone.
Proof. apply length_not_mone. Qed.

Lemma sphere_report_not_neg (sphere : Geom) (r : Ray) (t : F32.float) (o : bool) :
  (fst (sphere_report sphere r t o) <? F32.zero) = false.
Proof. apply length_not_neg. Qed.

Lemma fmin_smaller (a b : F32.float) :
  (fmin a b = a \/ fmin a b = b) /\
  (a <? fmin a b) = false /\ (b <? fmin a b) = false.
Proof.
  unfold fmin. destruct (b <? a) eqn:E.
  - split; [right; reflexivity|]. split; [apply ltb_asym; exact E | apply ltb_irrefl].
  - split; [left; reflexivity|]. split; [apply ltb_irrefl | exact E].
Qed.

Lemma fmax_larger (a b : F32.float) :
  (fmax a b = a \/ fmax a b = b) /\
  (fmax a b <? a) = false /\ (fmax a b <? b) = false.
Proof.
  unfold fmax. destruct (a <? b) eqn:E.
  - split; [right; reflexivity|]. split; [apply ltb_asym; exact E | apply ltb_irrefl].
  - split; [left; reflexivity|]. split; [apply ltb_irrefl | exact E].
Qed.

Lemma fmax_mixed_positive (a b : F32.float) :
  ((a >? F32.zero) = true /\ (b <? F32.zero) = true) \/
  ((a <? F32.zero) = true /\ (b >? F32.zero) = true) ->
  (fmax a b >? F32.zero) = true.
Proof.
  unfold fmax, F32.gtb. intros [[Ha Hb]|[Ha Hb]].
  - destruct (a <? b) eqn:E; [|exact Ha].
    apply ltb_trans with a; assumption.
  - destruct (a <? b) eqn:E; [exact Hb|].
    rewrite (ltb_trans _ _ _ Ha Hb) in E. discriminate.
Qed.

(** C4. For every sphere and ray: a negative discriminant gives -1, two
    negative roots give -1 (the outputs untouched in both cases); with two
    positive roots [outside] is true, the smaller root is used and the normal
    is the one derived from the local point; with roots of mixed sign
    [outside] is false, the larger (positive) root is used and that normal
    is negated. *)
Theorem sphere_result_policy (sphere : Geom) (r : Ray) (out : Out) :
  let rt := localRay sphere r in
  let t1 := sphere_t1 rt in
  let t2 := sphere_t2 rt in
  ((sphere_radicand rt <? F32.zero) = true ->
     sphereIntersectionTest sphere r out = (F32.mone, out)) /\
  ((t1 <? F32.zero) = true -> (t2 <? F32.zero) = true ->
     sphereIntersectionTest sphere r out = (F32.mone, out)) /\
  ((sphere_radicand rt <? F32.zero) = false ->
   (t1 >? F32.zero) = true -> (t2 >? F32.zero) = true ->
     sphereIntersectionTest sphere r out = sphere_report sphere r (fmin t1 t2) true /\
     (fmin t1 t2 = t1 \/ fmin t1 t2 = t2) /\
     (t1 <? fmin t1 t2) = false /\ (t2 <? fmin t1 t2) = false) /\
  ((sphere_radicand rt <? F32.zero) = false ->
   ((t1 >? F32.zero) = true /\ (t2 <? F32.zero) = true) \/
   ((t1 <? F32.zero) = true /\ (t2 >? F32.zero) = true) ->
     sphereIntersectionTest sphere r out = sphere_report sphere r (fmax t1 t2) false /\
     (fmax t1 t2 = t1 \/ fmax t1 t2 = t2) /\
     (fmax t1 t2 >? F32.zero) = true /\
     (fmax t1 t2 <? t1) = false /\ (fmax t1 t2 <? t2) = false).
Proof.
  intros rt t1 t2. subst t2 t1 rt.
  rewrite sphereIntersectionTest_cases. cbv zeta.
  generalize (sphere_radicand (localRay sphere r)) as d.
  generalize (sphere_t1 (localRay sphere r)) as t1.
  generalize (sphere_t2 (localRay sphere r)) as t2.
  intros t2 t1 d.
  split; [intros ->; reflexivity|].
  split.
  { intros -> ->. destruct (d <? F32.zero); reflexivity. }
  split.
  { intros -> H1 H2. unfold F32.gtb in H1, H2.
    rewrite (ltb_asym _ _ H1). simpl.
    unfold F32.gtb. rewrite H1, H2. simpl.
    split; [reflexivity|]. apply fmin_smaller. }
  intros -> Hm.
  assert (Hp := fmax_mixed_positive t1 t2 Hm).
  assert (Hn : (t1 <? F32.zero) && (t2 <? F32.zero) = false).
  { destruct Hm as [[H1 _]|[_ H2]]; unfold F32.gtb in *.
    - rewrite (ltb_asym _ _ H1). reflexivity.
    - rewrite (ltb_asym _ _ H2). apply andb_false_r. }
  assert (Hq : (t1 >? F32.zero) && (t2 >? F32.zero) = false).
  { destruct Hm as [[_ H2]|[H1 _]]; unfold F32.gtb in *.
    - rewrite (ltb_asym _ _ H2). apply andb_false_r.
    - rewrite (ltb_asym _ _ H1). reflexivity. }
  rewrite Hn, Hq.
  split; [reflexivity|].
  destruct (fmax_larger t1 t2) as (Ho & Ha & Hb).
  repeat split; assumption.
Qed.

(** ** The triangle loops *)

Lemma triangleStep_hit (rt : Ray) (tri : Triangle) (b : Best) :
  triangleStep rt tri b =
  match tri_hit rt tri with
  | Some (d, p) =>
      if (best_t b <? F32.zero) || (d <? best_t b)
      then mkBest d (mkOut p (tri_normal tri) (outside (best_out b)))
      else b
  | None => b
  end.
Proof.
  unfold triangleStep, tri_hit, tri_point, tri_normal. cbv zeta.
  destruct (glm.intersectRayTriangle (origin rt) (direction rt)
              (vertices0 tri) (vertices1 tri) (vertices2 tri)); reflexivity.
Qed.

Lemma tri_hit_not_neg (rt : Ray) (tri : Triangle) (d : F32.float) (p : glm.vec3) :
  tri_hit rt tri = Some (d, p) -> (d <? F32.zero) = false.
Proof.
  unfold tri_hit.
  destruct (glm.intersectRayTriangle _ _ _ _ _); [|discriminate].
  intros H. injection H as <- _. apply length_not_neg.
Qed.

(** The triangle loop never touches [outside]. *)
Lemma triangleStep_outside (rt : Ray) (tri : Triangle) (b : Best) :
  outside (best_out (triangleStep rt tri b)) = outside (best_out b).
Proof.
  rewrite triangleStep_hit.
  destruct (tri_hit rt tri) as [[d p]|]; [|reflexivity].
  destruct ((best_t b <? F32.zero) || (d <? best_t b)); reflexivity.
Qed.

Lemma selected_app (rt : Ray) (l : list Triangle) (x : Triangle) (k : nat) (b : Best) :
  selected rt l k b ->
  (forall d p, tri_hit rt x = Some (d, p) -> (d <? best_t b) = false) ->
  selected rt (l ++ [x]) k b.
Proof.
  intros (tri & d & p & Hk & Hh & Ht & Hp & Hn & Hmin & Hfirst) Hx.
  assert (Hlen : (k < length l)%nat) by (apply nth_error_Some; congruence).
  exists tri, d, p. repeat split; try assumption.
  - rewrite nth_error_app1; assumption.
  - intros j trj dj pj Hj Hhj.
    destruct (Nat.lt_ge_cases j (length l)) as [Hlt|Hge].
    + rewrite nth_error_app1 in Hj by assumption. eapply Hmin; eassumption.
    + rewrite nth_error_app2 in Hj by assumption.
      destruct (j - length l)%nat as [|n]; simpl in Hj.
      * injection Hj as <-. rewrite <- Ht. eapply Hx; eassumption.
      * destruct n; discriminate.
  - intros j trj dj pj Hjk Hj Hhj.
    rewrite nth_error_app1 in Hj by lia. eapply Hfirst; eassumption.
Qed.

Lemma selected_last (rt : Ray) (l : list Triangle) (x : Triangle)
      (d : F32.float) (p : glm.vec3) (o : bool) :
  tri_hit rt x = Some (d, p) ->
  (forall j trj dj pj,
      nth_error l j = Some trj -> tri_hit rt trj = Some (dj, pj) ->
      (dj <? d) = false /\ F32.eqb dj d = false) ->
  selected rt (l ++ [x]) (length l) (mkBest d (mkOut p (tri_normal x) o)).
Proof.
  intros Hx Hl.
  exists x, d, p. repeat split; try reflexivity; try assumption.
  - rewrite nth_error_app2 by lia. rewrite Nat.sub_diag. reflexivity.
  - intros j trj dj pj Hj Hhj.
    destruct (Nat.lt_ge_cases j (length l)) as [Hlt|Hge].
    + rewrite nth_error_app1 in Hj by assumption.
      apply (Hl j trj dj pj Hj Hhj).
    + rewrite nth_error_app2 in Hj by assumption.
      destruct (j - length l)%nat as [|n]; simpl in Hj.
      * injection Hj as <-. rewrite Hx in Hhj. injection Hhj as <- _.
        apply ltb_irrefl.
      * destruct n; discriminate.
  - intros j trj dj pj Hjk Hj Hhj.
    rewrite nth_error_app1 in Hj by assumption.
    apply (Hl j trj dj pj Hj Hhj).
Qed.

(** A triangle loop started without a hit ends either without one, the
    accumulator untouched, or with the first of the closest hits. *)
Lemma fold_closest (rt : Ray) (tris : list Triangle) (b0 : Best) :
  (best_t b0 <? F32.zero) = true ->
  (no_hit rt tris /\ triangle_loop rt tris b0 = b0) \/
  (exists k, selected rt tris k (triangle_loop rt tris b0) /\
             outside (best_out (triangle_loop rt tris b0))
             = outside (best_out b0)).
Proof.
  intros Hneg.
  induction tris as [|x l IH] using rev_ind.
  - left. split; [constructor | reflexivity].
  - unfold triangle_loop in *. rewrite fold_left_app. simpl.
    set (b := fold_left (fun acc tri => triangleStep rt tri acc) l b0) in *.
    rewrite triangleStep_hit.
    destruct (tri_hit rt x) as [[d p]|] eqn:Hx.
    + right. destruct IH as [[Hno Hb]|[k [Hsel Hout]]].
      * rewrite Hb, Hneg. simpl. exists (length l). split; [|reflexivity].
        apply selected_last; [assumption|].
        intros j trj dj pj Hj Hhj. exfalso.
        unfold no_hit in Hno. rewrite Forall_forall in Hno.
        apply nth_error_In in Hj. rewrite (Hno _ Hj) in Hhj. discriminate.
      * destruct Hsel as (tri & dk & pk & Hk & Hh & Ht & Hp & Hn & Hmin & Hfirst).
        assert (Hnn : (best_t b <? F32.zero) = false).
        { rewrite Ht. eapply tri_hit_not_neg; eassumption. }
        rewrite Hnn. simpl.
        destruct (d <? best_t b) eqn:Hlt.
        -- exists (length l). split; [|simpl; exact Hout].
           apply selected_last; [assumption|].
           intros j trj dj pj Hj Hhj.
           pose proof (Hmin j trj dj pj Hj Hhj) as Hm.
           rewrite Ht in Hlt.
           split.
           ++ destruct (dj <? d) eqn:E; [|reflexivity].
              rewrite (ltb_trans _ _ _ E Hlt) in Hm. discriminate.
           ++ destruct (F32.eqb dj d) eqn:E; [|reflexivity].
              rewrite (eqb_ltb_trans _ _ _ E Hlt) in Hm. discriminate.
        -- exists k. split; [|exact Hout].
           apply selected_app.
           ++ exists tri, dk, pk. repeat split; assumption.
           ++ intros d' p' Hx'. rewrite Hx in Hx'. injection Hx' as <- _. exact Hlt.
    + destruct IH as [[Hno Hb]|[k [Hsel Hout]]].
      * left. split; [|assumption].
        unfold no_hit in *. apply Forall_app. split; [assumption|].
        constructor; [assumption | constructor].
      * right. exists k. split; [|assumption].
        apply selected_app; [assumption|].
        intros d' p' Hx'. rewrite Hx in Hx'. discriminate.
Qed.

(** ** The mesh test *)

Lemma at_in_bounds {A : Type} (l : list A) (i : Z) :
  (0 <= i < Z.of_nat (length l))%Z ->
  exists v, at_ l i = Some v /\ nth_error l (Z.to_nat i) = Some v.
Proof.
  intros [H0 H1]. unfold at_.
  destruct (i <? 0)%Z eqn:E; [apply Z.ltb_lt in E; lia|].
  destruct (nth_error l (Z.to_nat i)) as [v|] eqn:En.
  - exists v. split; reflexivity.
  - apply nth_error_None in En. lia.
Qed.

Lemma read_in_bounds {A : Type} (l : list A) (i : Z) :
  (0 <= i < Z.of_nat (length l))%Z -> exists v, read l i = Returns v.
Proof.
  intros H. destruct (at_in_bounds l i H) as (v & Hv & _).
  exists v. unfold read. rewrite Hv. reflexivity.
Qed.

Lemma mesh_wf_spec (mesh : Mesh) :
  mesh_wf mesh = true ->
  (0 <= numIndices mesh)%Z /\ (numIndices mesh mod 3 = 0)%Z /\
  (numIndices mesh <= Z.of_nat (length (indices mesh)))%Z /\
  (forall k idx, (0 <= k < numIndices mesh)%Z -> at_ (indices mesh) k = Some idx ->
                 (0 <= idx)%Z /\ (idx * 3 + 2 < Z.of_nat (length (vertices mesh)))%Z).
Proof.
  unfold mesh_wf. intros H.
  apply andb_prop in H. destruct H as [H Hall].
  apply andb_prop in H. destruct H as [H Hlen].
  apply andb_prop in H. destruct H as [H0 Hmod].
  apply Z.leb_le in H0. apply Z.eqb_eq in Hmod. apply Z.leb_le in Hlen.
  repeat split; try assumption.
  - rewrite forallb_forall in Hall.
    assert (Hin : In idx (firstn (Z.to_nat (numIndices mesh)) (indices mesh))).
    { unfold at_ in H1. destruct (k <? 0)%Z; [discriminate|].
      apply nth_error_In with (n := Z.to_nat k).
      rewrite nth_error_firstn.
      destruct (Nat.ltb_spec (Z.to_nat k) (Z.to_nat (numIndices mesh))); [assumption | lia]. }
    apply Hall in Hin. apply andb_prop in Hin. destruct Hin as [Ha _].
    apply Z.leb_le in Ha. exact Ha.
  - rewrite forallb_forall in Hall.
    assert (Hin : In idx (firstn (Z.to_nat (numIndices mesh)) (indices mesh))).
    { unfold at_ in H1. destruct (k <? 0)%Z; [discriminate|].
      apply nth_error_In with (n := Z.to_nat k).
      rewrite nth_error_firstn.
      destruct (Nat.ltb_spec (Z.to_nat k) (Z.to_nat (numIndices mesh))); [assumption | lia]. }
    apply Hall in Hin. apply andb_prop in Hin. destruct Hin as [_ Hb].
    apply Z.ltb_lt in Hb. exact Hb.
Qed.

Lemma mesh_vertex_ok (mesh : Mesh) (k : Z) :
  mesh_wf mesh = true -> (0 <= k < numIndices mesh)%Z ->
  exists v, mesh_vertex mesh k = Returns v.
Proof.
  intros Hwf Hk.
  destruct (mesh_wf_spec mesh Hwf) as (H0 & Hmod & Hlen & Hidx).
  destruct (at_in_bounds (indices mesh) k) as (idx & Hat & _); [lia|].
  destruct (Hidx k idx Hk Hat) as [Hi0 Hi1].
  destruct (read_in_bounds (vertices mesh) (idx * 3)) as (a & Ha); [lia|].
  destruct (read_in_bounds (vertices mesh) (idx * 3 + 1)) as (b & Hb); [lia|].
  destruct (read_in_bounds (vertices mesh) (idx * 3 + 2)) as (c & Hc); [lia|].
  exists (glm.Vec3 a b c).
  unfold mesh_vertex. unfold read at 1. rewrite Hat. simpl.
  rewrite Ha. simpl. rewrite Hb. simpl. rewrite Hc. reflexivity.
Qed.

(** [range3 n] holds the values of [i] for which the body of
    [for (int i = 0; i < n; i += 3)] runs. *)
Lemma range3_In (n i : Z) :
  In i (range3 n) <-> (0 <= i < n /\ i mod 3 = 0)%Z.
Proof.
  unfold range3. rewrite in_map_iff. split.
  - intros (k & <- & Hk). apply in_seq in Hk.
    assert (Hd : (Z.of_nat k < (n + 2) / 3)%Z) by lia.
    clear Hk. Z.div_mod_to_equations. lia.
  - intros [Hi Hmod]. exists (Z.to_nat (i / 3)). split.
    + rewrite Z2Nat.id by (Z.div_mod_to_equations; lia).
      Z.div_mod_to_equations. lia.
    + apply in_seq. split; [lia|].
      assert (Hd : (i / 3 < (n + 2) / 3)%Z) by (Z.div_mod_to_equations; lia).
      assert (H0 : (0 <= i / 3)%Z) by (Z.div_mod_to_equations; lia).
      lia.
Qed.

Lemma range3_spec (n i : Z) :
  (n mod 3 = 0)%Z -> In i (range3 n) -> (0 <= i /\ i + 2 < n)%Z.
Proof.
  intros Hmod Hin. apply range3_In in Hin. destruct Hin as [Hi Him].
  Z.div_mod_to_equations. lia.
Qed.

Lemma mesh_triangle_ok (mesh : Mesh) (i : Z) :
  mesh_wf mesh = true -> In i (range3 (numIndices mesh)) ->
  exists tri, mesh_triangle mesh i = Returns tri.
Proof.
  intros Hwf Hin.
  destruct (mesh_wf_spec mesh Hwf) as (H0 & Hmod & _).
  destruct (range3_spec _ _ Hmod Hin) as [Hi0 Hi2].
  destruct (mesh_vertex_ok mesh i Hwf) as (a & Ha); [lia|].
  destruct (mesh_vertex_ok mesh (i + 1) Hwf) as (b & Hb); [lia|].
  destruct (mesh_vertex_ok mesh (i + 2) Hwf) as (c & Hc); [lia|].
  exists (mkTriangle a b c). unfold mesh_triangle.
  rewrite Ha. simpl. rewrite Hb. simpl. rewrite Hc. reflexivity.
Qed.

Lemma mapM_ok {A B : Type} (f : A -> outcome B) (l : list A) :
  (forall a, In a l -> exists b, f a = Returns b) ->
  exists bs, mapM f l = Returns bs.
Proof.
  induction l as [|a l IH]; intros H.
  - exists []. reflexivity.
  - destruct (H a (or_introl eq_refl)) as (b & Hb).
    destruct IH as (bs & Hbs); [intros x Hx; apply H; right; exact Hx|].
    exists (b :: bs). simpl. rewrite Hb. simpl. rewrite Hbs. reflexivity.
Qed.

(** A well-formed mesh is read without a fault. *)
Lemma mesh_triangles_ok (mesh : Mesh) :
  mesh_wf mesh = true -> exists tris, mesh_triangles mesh = Returns tris.
Proof.
  intros Hwf. apply mapM_ok. intros i Hi. apply mesh_triangle_ok; assumption.
Qed.

(** The mesh loop is the triangle loop over the triangles of the mesh. *)
Lemma mesh_for_loop (mesh : Mesh) (rt : Ray) (idxs : list Z) (b : Best) :
  mesh_for mesh rt idxs b =
  (tris <- mapM (mesh_triangle mesh) idxs ;; Returns (triangle_loop rt tris b)).
Proof.
  revert b. induction idxs as [|i idxs IH]; intro b; [reflexivity|].
  simpl. destruct (mesh_triangle mesh i) as [tri| |]; simpl; try reflexivity.
  rewrite IH. destruct (mapM (mesh_triangle mesh) idxs); reflexivity.
Qed.


(** ** The traversal stack *)

Lemma length_list_update {A : Type} (l : list A) (n : nat) (v : A) :
  length (list_update l n v) = length l.
Proof.
  revert n. induction l as [|a l IH]; intros [|n]; simpl; try reflexivity.
  rewrite IH. reflexivity.
Qed.

Lemma firstn_S_list_update {A : Type} (l : list A) (n : nat) (v : A) :
  (n < length l)%nat -> firstn (S n) (list_update l n v) = firstn n l ++ [v].
Proof.
  revert n. induction l as [|a l IH]; intros [|n] H; simpl in *; try lia; try reflexivity.
  rewrite IH by lia. reflexivity.
Qed.

Lemma firstn_S_nth_error {A : Type} (l : list A) (n : nat) (x : A) :
  nth_error l n = Some x -> firstn (S n) l = firstn n l ++ [x].
Proof.
  revert n. induction l as [|a l IH]; intros [|n] H; simpl in *; try discriminate.
  - injection H as ->. reflexivity.
  - rewrite (IH n H). reflexivity.
Qed.

(** Popping: the top of the pending list is the cell below [stackSize]. *)
Lemma pending_pop (st : Traversal) :
  stack_ok st -> (0 < stackSize st)%Z ->
  exists top,
    stack_read (stack st) (stackSize st - 1) = Returns top /\
    pending st = top :: rev (firstn (Z.to_nat (stackSize st - 1)) (stack st)).
Proof.
  intros [Hlen [H0 Hcap]] Hpos.
  destruct (at_in_bounds (stack st) (stackSize st - 1)) as (top & Hat & Hnth); [lia|].
  exists top. split.
  - unfold stack_read.
    destruct ((0 <=? stackSize st - 1) && (stackSize st - 1 <? STACK_CAPACITY))%Z eqn:E.
    + rewrite Hnth. reflexivity.
    + apply andb_false_iff in E. destruct E as [E|E];
        [apply Z.leb_gt in E | apply Z.ltb_ge in E]; lia.
  - unfold pending.
    replace (Z.to_nat (stackSize st)) with (S (Z.to_nat (stackSize st - 1))) by lia.
    rewrite (firstn_S_nth_error _ _ _ Hnth), rev_unit. reflexivity.
Qed.

Lemma STACK_CAPACITY_eq : STACK_CAPACITY = 512%Z.
Proof. reflexivity. Qed.

Lemma present_cons (c : Z) (cs : list Z) :
  present (c :: cs) = if (c =? -1)%Z then present cs else c :: present cs.
Proof. unfold present. simpl. destruct (c =? -1)%Z; reflexivity. Qed.

Lemma present_length (cs : list Z) : (length (present cs) <= length cs)%nat.
Proof. apply filter_length_le. Qed.

(** Pushing the present children of a node, while they fit. *)
Lemma push_children_fits (cs : list Z) (stk : list Z) (size : Z) :
  length stk = Z.to_nat STACK_CAPACITY ->
  (0 <= size)%Z ->
  (size + Z.of_nat (length (present cs)) <= STACK_CAPACITY)%Z ->
  exists stk',
    push_children cs stk size = Returns (stk', size + Z.of_nat (length (present cs)))%Z /\
    length stk' = Z.to_nat STACK_CAPACITY /\
    rev (firstn (Z.to_nat (size + Z.of_nat (length (present cs)))) stk')
    = rev (present cs) ++ rev (firstn (Z.to_nat size) stk).
Proof.
  revert stk size. induction cs as [|c cs IH]; intros stk size Hlen H0 Hfit.
  - exists stk. cbn [push_children present filter length Z.of_nat rev app].
    rewrite Z.add_0_r. repeat split; assumption || reflexivity.
  - cbn [push_children]. rewrite present_cons in *.
    destruct (c =? -1)%Z eqn:Ec.
    + apply IH; assumption.
    + cbn [length] in *. unfold stack_write.
      destruct ((0 <=? size) && (size <? STACK_CAPACITY))%Z eqn:Eb.
      2:{ apply andb_false_iff in Eb. destruct Eb as [E|E];
          [apply Z.leb_gt in E | apply Z.ltb_ge in E]; lia. }
      cbn [bind].
      destruct (IH (list_update stk (Z.to_nat size) c) (size + 1)%Z) as (stk' & Hp & Hl & Hf).
      * rewrite length_list_update. assumption.
      * lia.
      * lia.
      * exists stk'.
        replace (size + Z.of_nat (S (length (present cs))))%Z
          with (size + 1 + Z.of_nat (length (present cs)))%Z by lia.
        split; [exact Hp|]. split; [exact Hl|].
        rewrite Hf.
        replace (Z.to_nat (size + 1)) with (S (Z.to_nat size)) by lia.
        rewrite firstn_S_list_update by (rewrite Hlen, STACK_CAPACITY_eq in *; lia).
        rewrite rev_unit. cbn [rev]. rewrite <- app_assoc. reflexivity.
Qed.

(** Pushing runs off the array when the present children do not fit. *)
Lemma push_children_overflows (cs : list Z) (stk : list Z) (size : Z) :
  (0 <= size <= STACK_CAPACITY)%Z ->
  (STACK_CAPACITY < size + Z.of_nat (length (present cs)))%Z ->
  push_children cs stk size = OutOfBounds StackArray.
Proof.
  revert stk size. induction cs as [|c cs IH]; intros stk size H0 Hover.
  - cbn [present filter length Z.of_nat] in Hover. lia.
  - cbn [push_children]. rewrite present_cons in Hover.
    destruct (c =? -1)%Z eqn:Ec.
    + apply IH; assumption.
    + cbn [length] in Hover. unfold stack_write.
      destruct ((0 <=? size) && (size <? STACK_CAPACITY))%Z eqn:Eb; [|reflexivity].
      apply andb_prop in Eb. destruct Eb as [_ Eb]. apply Z.ltb_lt in Eb.
      cbn [bind]. apply IH; lia.
Qed.

(** ** One iteration of the traversal *)

Section Traversal.

(** An octree, the world ray and the ray taken into the local space of the
    octree, fixed for the lemmas on the traversal. *)
Variable octree : OctreeDev.
Variables r rt : Ray.

Lemma leaf_for_loop (idxs : list Z) (b : Best) :
  leaf_for octree rt idxs b =
  (tris <- mapM (read (triangles octree)) idxs ;; Returns (triangle_loop rt tris b)).
Proof.
  revert b. induction idxs as [|i idxs IH]; intro b; [reflexivity|].
  cbn [leaf_for mapM]. destruct (read (triangles octree) i) as [tri| |]; cbn [bind]; try reflexivity.
  rewrite IH. destruct (mapM (read (triangles octree)) idxs); reflexivity.
Qed.

Lemma read_fuel {A : Type} (a : list A) (i : Z) : read a i <> NoFuel.
Proof. unfold read. destruct (at_ a i); discriminate. Qed.

Lemma mapM_fuel {A B : Type} (f : A -> outcome B) (l : list A) :
  (forall a, f a <> NoFuel) -> mapM f l <> NoFuel.
Proof.
  intros Hf. induction l as [|a l IH]; [discriminate|].
  cbn [mapM]. specialize (Hf a).
  destruct (f a); cbn [bind]; try congruence.
  destruct (mapM f l); cbn [bind]; congruence.
Qed.

Lemma box_pass_eq (boundingBox : Geom) (out : Out) :
  box_pass r boundingBox = (fst (boxIntersectionTest boundingBox r out) >? F32.zero).
Proof.
  unfold box_pass.
  rewrite (boxIntersectionTest_fst boundingBox r _ out). reflexivity.
Qed.

Lemma pending_length (st : Traversal) :
  stack_ok st -> Z.of_nat (length (pending st)) = stackSize st.
Proof.
  intros [Hlen [H0 Hcap]]. unfold pending.
  rewrite length_rev, firstn_length_le by lia. lia.
Qed.

(** The loop body carries out the step of the specification on the pending
    list, and runs off the stack array exactly when the pushed children do
    not fit in it. *)
Lemma octree_body_spec (st : Traversal)
      (top : Z) (rest : list Z) :
  stack_ok st -> pending st = top :: rest ->
  match spec_step octree r rt top rest (best st) with
  | Returns (pend', b') =>
      ((Z.of_nat (length pend') <= STACK_CAPACITY)%Z ->
       exists st', octree_body octree r rt st = Returns st' /\
                   pending st' = pend' /\ best st' = b' /\ stack_ok st') /\
      ((STACK_CAPACITY < Z.of_nat (length pend'))%Z ->
       octree_body octree r rt st = OutOfBounds StackArray)
  | OutOfBounds arr => octree_body octree r rt st = OutOfBounds arr
  | NoFuel => False
  end.
Proof.
  intros Hok Hpend.
  assert (Hsize := pending_length st Hok). rewrite Hpend in Hsize. cbn [length] in Hsize.
  assert (Hpos : (0 < stackSize st)%Z) by lia.
  destruct (pending_pop st Hok Hpos) as (top' & Hread & Hpop).
  rewrite Hpend in Hpop. injection Hpop as <- Hrest.
  destruct Hok as [Hlen [H0 Hcap]].
  unfold octree_body, spec_step. rewrite Hread. cbn [bind].
  destruct (read (nodes octree) top) as [node| |] eqn:En; cbn [bind];
    [| reflexivity | exact (read_fuel _ _ En)].
  destruct (read (boundingBoxes octree) top) as [boundingBox| |] eqn:Eb; cbn [bind];
    [| reflexivity | exact (read_fuel _ _ Eb)].
  rewrite (box_pass_eq boundingBox
             (mkOut glm.vec3_default glm.vec3_default (outside (best_out (best st))))).
  unfold box_outside.
  destruct (boxIntersectionTest boundingBox r
              (mkOut glm.vec3_default glm.vec3_default (outside (best_out (best st)))))
    as [box_intersect box_out].
  cbn [fst snd].
  assert (Hok1 : forall b, stack_ok (mkTraversal (stack st) (stackSize st - 1) b)).
  { intro b. split; cbn [stack stackSize]; [assumption | lia]. }
  assert (Hpop1 : forall b, pending (mkTraversal (stack st) (stackSize st - 1) b) = rest).
  { intro b. unfold pending. cbn [stack stackSize]. symmetry. exact Hrest. }
  assert (Hrl : (Z.of_nat (length rest) <= STACK_CAPACITY)%Z) by lia.
  destruct (box_intersect >? F32.zero).
  - destruct (isLeaf node).
    + unfold node_triangles.
      destruct (read (dataStarts octree) top) as [lo| |] eqn:Elo; cbn [bind];
        [| reflexivity | exact (read_fuel _ _ Elo)].
      destruct (read (dataStarts octree) (top + 1)) as [hi| |] eqn:Ehi; cbn [bind];
        [| reflexivity | exact (read_fuel _ _ Ehi)].
      rewrite leaf_for_loop.
      destruct (mapM (read (triangles octree)) (range lo hi)) as [tris| |] eqn:Etris;
        cbn [bind];
        [| reflexivity | exact (mapM_fuel _ _ (read_fuel (triangles octree)) Etris)].
      split; [intros _ | intros; lia].
      eexists. split; [reflexivity|]. split; [apply Hpop1|]. split; [reflexivity | apply Hok1].
    + rewrite length_app, length_rev. split.
      * intros Hfit.
        destruct (push_children_fits (children node) (stack st) (stackSize st - 1))
          as (stk' & Hp & Hl & Hf); try assumption; try lia.
        rewrite Hp. cbn [bind fst snd]. eexists. split; [reflexivity|].
        split; [|split; [reflexivity|]].
        -- unfold pending. cbn [stack stackSize]. rewrite Hf, <- Hrest. reflexivity.
        -- split; cbn [stack stackSize]; [assumption | lia].
      * intros Hover.
        rewrite push_children_overflows; [reflexivity | lia | lia].
  - split; [intros _ | intros; lia].
    eexists. split; [reflexivity|]. split; [apply Hpop1|]. split; [reflexivity | apply Hok1].
Qed.

(** ** The traversal loop *)

Lemma same_hit_refl (b : Best) : same_hit b b.
Proof. repeat split. Qed.

Lemma same_hit_trans (b1 b2 b3 : Best) :
  same_hit b1 b2 -> same_hit b2 b3 -> same_hit b1 b3.
Proof.
  intros (H1 & H2 & H3) (K1 & K2 & K3). repeat split; congruence.
Qed.

Lemma same_hit_set_outside (b : Best) (o : bool) :
  same_hit (mkBest (best_t b) (set_outside (best_out b) o)) b.
Proof. repeat split. Qed.

Lemma triangleStep_same_hit (tri : Triangle) (b1 b2 : Best) :
  same_hit b1 b2 -> same_hit (triangleStep rt tri b1) (triangleStep rt tri b2).
Proof.
  intros (Ht & Hp & Hn). rewrite !triangleStep_hit.
  destruct (tri_hit rt tri) as [[d p]|]; [|repeat split; assumption].
  rewrite Ht.
  destruct ((best_t b2 <? F32.zero) || (d <? best_t b2));
    repeat split; assumption.
Qed.

Lemma triangle_loop_same_hit (tris : list Triangle) (b1 b2 : Best) :
  same_hit b1 b2 -> same_hit (triangle_loop rt tris b1) (triangle_loop rt tris b2).
Proof.
  unfold triangle_loop. revert b1 b2.
  induction tris as [|tri tris IH]; intros b1 b2 H; [exact H|].
  cbn [fold_left]. apply IH. apply triangleStep_same_hit. exact H.
Qed.

Lemma triangle_loop_app (l1 l2 : list Triangle) (b : Best) :
  triangle_loop rt (l1 ++ l2) b = triangle_loop rt l2 (triangle_loop rt l1 b).
Proof. unfold triangle_loop. apply fold_left_app. Qed.

Lemma triangle_loop_outside (tris : list Triangle) (b : Best) :
  outside (best_out (triangle_loop rt tris b)) = outside (best_out b).
Proof.
  unfold triangle_loop. revert b.
  induction tris as [|tri tris IH]; intro b; [reflexivity|].
  cbn [fold_left]. rewrite IH. apply triangleStep_outside.
Qed.

Lemma pending_empty (st : Traversal) :
  stack_ok st -> (stackSize st >? 0)%Z = false -> pending st = [] /\ stackSize st = 0%Z.
Proof.
  intros [_ [H0 _]] H. rewrite Z.gtb_ltb, Z.ltb_ge in H.
  assert (E : stackSize st = 0%Z) by lia.
  split; [|exact E]. unfold pending. rewrite E. reflexivity.
Qed.

Lemma pending_nonempty (st : Traversal) :
  stack_ok st -> (stackSize st >? 0)%Z = true ->
  exists top rest, pending st = top :: rest.
Proof.
  intros Hok H. rewrite Z.gtb_ltb, Z.ltb_lt in H.
  destruct (pending_pop st Hok H) as (top & _ & Hp).
  eexists; eexists; exact Hp.
Qed.

(** What a completed iteration is, on the pending list. *)
Lemma octree_body_returns (st st1 : Traversal)
      (top : Z) (rest : list Z) :
  stack_ok st -> pending st = top :: rest ->
  octree_body octree r rt st = Returns st1 ->
  spec_step octree r rt top rest (best st) = Returns (pending st1, best st1) /\
  stack_ok st1.
Proof.
  intros Hok Hp Hb.
  pose proof (octree_body_spec st top rest Hok Hp) as Hs.
  destruct (spec_step octree r rt top rest (best st)) as [[pend' b']| |].
  - destruct Hs as [Hfit Hover].
    destruct (Z_le_gt_dec (Z.of_nat (length pend')) STACK_CAPACITY) as [Hle|Hgt].
    + destruct (Hfit Hle) as (st' & Hb' & Hp' & Hbest & Hok').
      rewrite Hb in Hb'. injection Hb' as <-.
      subst. split; [reflexivity | assumption].
    + rewrite Hover in Hb by lia. discriminate.
  - rewrite Hs in Hb. discriminate.
  - contradiction.
Qed.

Lemma bind_returns_app {A : Type} (m : outcome (list A)) :
  (more <- m ;; Returns ([] ++ more)) = m.
Proof. destruct m; reflexivity. Qed.

(** A step of the specification, within [spec_visit]: the triangles it
    tests come first, and its hit is that of a triangle loop over them. *)
Lemma spec_visit_step (fuel : nat)
      (top : Z) (rest : list Z) (b : Best) (pend' : list Z) (b' : Best) :
  spec_step octree r rt top rest b = Returns (pend', b') ->
  exists tris,
    spec_visit (S fuel) octree r (top :: rest)
    = (more <- spec_visit fuel octree r pend' ;; Returns (tris ++ more)) /\
    same_hit b' (triangle_loop rt tris b).
Proof.
  unfold spec_step. cbn [spec_visit].
  destruct (read (nodes octree) top) as [node| |]; cbn [bind]; try discriminate.
  destruct (read (boundingBoxes octree) top) as [boundingBox| |]; cbn [bind];
    try discriminate.
  generalize (box_outside r boundingBox (outside (best_out b))). intro o.
  destruct (box_pass r boundingBox).
  - destruct (isLeaf node).
    + destruct (node_triangles octree top) as [tris| |]; cbn [bind]; try discriminate.
      intros H. injection H as <- <-.
      exists tris. split; [reflexivity|].
      apply triangle_loop_same_hit. apply same_hit_set_outside.
    + intros H. injection H as <- <-.
      exists []. split; [symmetry; apply bind_returns_app|].
      apply same_hit_set_outside.
  - intros H. injection H as <- <-.
    exists []. split; [symmetry; apply bind_returns_app|].
    apply same_hit_set_outside.
Qed.

(** A completed traversal has tested the triangles [spec_visit] lists, in
    that order, and holds the hit of one triangle loop over them. *)
Lemma octree_while_visit (fuel : nat) :
  forall st st',
    stack_ok st ->
    octree_while fuel octree r rt st = Returns st' ->
    exists tris,
      spec_visit fuel octree r (pending st) = Returns tris /\
      same_hit (best st') (triangle_loop rt tris (best st)).
Proof.
  induction fuel as [|fuel IH]; intros st st' Hok Hw.
  - cbn [octree_while] in Hw.
    destruct (stackSize st >? 0)%Z eqn:E; [discriminate|].
    injection Hw as <-.
    destruct (pending_empty st Hok E) as [Hp _]. rewrite Hp.
    exists []. split; [reflexivity | apply same_hit_refl].
  - cbn [octree_while] in Hw.
    destruct (stackSize st >? 0)%Z eqn:E.
    2:{ injection Hw as <-.
        destruct (pending_empty st Hok E) as [Hp _]. rewrite Hp.
        exists []. split; [reflexivity | apply same_hit_refl]. }
    destruct (octree_body octree r rt st) as [st1| |] eqn:Hb; cbn [bind] in Hw;
      try discriminate.
    destruct (pending_nonempty st Hok E) as (top & rest & Hp).
    destruct (octree_body_returns st st1 top rest Hok Hp Hb) as [Hs Hok1].
    destruct (IH st1 st' Hok1 Hw) as (tris1 & Hv1 & Hh1).
    destruct (spec_visit_step fuel top rest (best st) _ _ Hs) as (tris & Hv & Hh).
    exists (tris ++ tris1). rewrite Hp, Hv, Hv1. split; [reflexivity|].
    rewrite triangle_loop_app.
    eapply same_hit_trans; [exact Hh1|].
    apply triangle_loop_same_hit. exact Hh.
Qed.

Lemma octree_start_ok (out : Out) :
  stack_ok (octree_start octree out) /\
  pending (octree_start octree out) = [root octree] /\
  best (octree_start octree out) = mkBest F32.mone out.
Proof.
  split; [|split; reflexivity].
  split; cbn [octree_start stack stackSize].
  - rewrite length_list_update. unfold stack_uninit. apply repeat_length.
  - rewrite STACK_CAPACITY_eq. lia.
Qed.

(** ** Termination and the bound on the stack *)

(** [range lo hi] holds the values of [i] for which the body of
    [for (int i = lo; i < hi; i++)] runs. *)
Lemma range_In (lo hi k : Z) : In k (range lo hi) <-> (lo <= k < hi)%Z.
Proof.
  unfold range. rewrite in_map_iff. split.
  - intros (n & <- & Hn). apply in_seq in Hn. lia.
  - intros Hk. exists (Z.to_nat (k - lo)). split; [lia|].
    apply in_seq. lia.
Qed.

Lemma range_spec (lo hi k : Z) : In k (range lo hi) -> (lo <= k < hi)%Z.
Proof. apply range_In. Qed.

Lemma forallb_present (f : Z -> bool) (cs : list Z) :
  forallb (fun c => (c =? -1)%Z || f c) cs = true ->
  forall c, In c (present cs) -> f c = true.
Proof.
  intros H c Hc. unfold present in Hc. apply filter_In in Hc. destruct Hc as [Hin Hne].
  rewrite forallb_forall in H. specialize (H c Hin).
  destruct (c =? -1)%Z; [discriminate | exact H].
Qed.

(** What [tree_ok] grants at a node. *)
Lemma tree_ok_node (h : nat) (i : Z) :
  tree_ok octree h i = true ->
  exists node boundingBox,
    read (nodes octree) i = Returns node /\
    read (boundingBoxes octree) i = Returns boundingBox /\
    (isLeaf node = true -> exists tris, node_triangles octree i = Returns tris) /\
    (isLeaf node = false ->
     exists h', h = S h' /\ (length (present (children node)) <= 8)%nat /\
                forall c, In c (present (children node)) -> tree_ok octree h' c = true).
Proof.
  intros H.
  assert (H' : match at_ (nodes octree) i, at_ (boundingBoxes octree) i with
               | Some node, Some _ =>
                   if isLeaf node then
                     match at_ (dataStarts octree) i, at_ (dataStarts octree) (i + 1)%Z with
                     | Some lo, Some hi =>
                         ((hi <=? lo) ||
                          ((0 <=? lo) && (hi <=? Z.of_nat (length (triangles octree)))))%Z
                     | _, _ => false
                     end
                   else
                     match h with
                     | O => false
                     | S h' =>
                         (length (children node) =? 8)%nat &&
                         forallb (fun c => (c =? -1)%Z || tree_ok octree h' c) (children node)
                     end
               | _, _ => false
               end = true).
  { destruct h; exact H. }
  clear H. unfold read.
  destruct (at_ (nodes octree) i) as [node|]; [|discriminate].
  destruct (at_ (boundingBoxes octree) i) as [boundingBox|]; [|discriminate].
  exists node, boundingBox. split; [reflexivity|]. split; [reflexivity|].
  destruct (isLeaf node).
  - split; [intros _ | intros; discriminate].
    unfold node_triangles, read.
    destruct (at_ (dataStarts octree) i) as [lo|]; [|discriminate].
    destruct (at_ (dataStarts octree) (i + 1)) as [hi|]; [|discriminate].
    cbn [bind]. apply mapM_ok. intros k Hk. apply range_spec in Hk.
    apply orb_prop in H'. destruct H' as [Hle|Hin].
    + apply Z.leb_le in Hle. lia.
    + apply andb_prop in Hin. destruct Hin as [Hlo Hhi].
      apply Z.leb_le in Hlo. apply Z.leb_le in Hhi.
      apply read_in_bounds. lia.
  - split; [intros; discriminate | intros _].
    destruct h as [|h']; [discriminate|].
    apply andb_prop in H'. destruct H' as [Hlen Hall].
    apply Nat.eqb_eq in Hlen.
    exists h'. split; [reflexivity|]. split.
    + rewrite <- Hlen. apply present_length.
    + apply forallb_present. exact Hall.
Qed.

Lemma run_within_mono (b1 b2 : Z) (st st' : Traversal) :
  (b1 <= b2)%Z -> run_within octree r rt b1 st st' -> run_within octree r rt b2 st st'.
Proof.
  intros Hle H. induction H as [st H|st st1 st2 H Hb Hr IH].
  - apply run_done. lia.
  - eapply run_step; [lia | exact Hb | exact IH].
Qed.

Lemma run_within_trans (b : Z) (st1 st2 st3 : Traversal) :
  run_within octree r rt b st1 st2 -> run_within octree r rt b st2 st3 ->
  run_within octree r rt b st1 st3.
Proof.
  intros H12 H23. induction H12 as [st H|st st1 st2 H Hb Hr IH].
  - exact H23.
  - eapply run_step; [exact H | exact Hb | apply IH; exact H23].
Qed.

(** The step of the specification at a node of a well-formed subtree. *)
Lemma spec_step_tree_ok (h : nat)
      (i : Z) (rest : list Z) (b : Best) :
  tree_ok octree h i = true ->
  exists pend' b',
    spec_step octree r rt i rest b = Returns (pend', b') /\
    (pend' = rest \/
     exists h' cs,
       h = S h' /\ pend' = cs ++ rest /\ (length cs <= 8)%nat /\
       forall c, In c cs -> tree_ok octree h' c = true).
Proof.
  intros Hok.
  destruct (tree_ok_node h i Hok) as (node & boundingBox & Hn & Hb & Hleaf & Hint).
  unfold spec_step. rewrite Hn, Hb. cbn [bind].
  generalize (box_outside r boundingBox (outside (best_out b))). intro o.
  destruct (box_pass r boundingBox).
  - destruct (isLeaf node).
    + destruct (Hleaf eq_refl) as (tris & Ht). rewrite Ht. cbn [bind].
      eexists; eexists. split; [reflexivity | left; reflexivity].
    + destruct (Hint eq_refl) as (h' & -> & Hlen & Hall).
      eexists; eexists. split; [reflexivity|]. right.
      exists h', (rev (present (children node))).
      split; [reflexivity|]. split; [reflexivity|]. split.
      * rewrite length_rev. exact Hlen.
      * intros c Hc. apply Hall. apply in_rev. exact Hc.
  - eexists; eexists. split; [reflexivity | left; reflexivity].
Qed.

(** The nodes [cs] on top of the stack are worked off within the bound,
    when each of their subtrees is. *)
Lemma children_safe (h : nat) :
  (forall i st rest,
      tree_ok octree h i = true -> stack_ok st -> pending st = i :: rest ->
      (Z.of_nat (length rest) + 1 + 7 * Z.of_nat h <= STACK_CAPACITY)%Z ->
      exists st',
        run_within octree r rt (Z.of_nat (length rest) + 1 + 7 * Z.of_nat h) st st' /\
        pending st' = rest /\ stack_ok st') ->
  forall cs st rest,
    (forall c, In c cs -> tree_ok octree h c = true) ->
    stack_ok st -> pending st = cs ++ rest ->
    (Z.of_nat (length rest) + Z.of_nat (length cs) + 7 * Z.of_nat h <= STACK_CAPACITY)%Z ->
    exists st',
      run_within octree r rt
        (Z.of_nat (length rest) + Z.of_nat (length cs) + 7 * Z.of_nat h) st st' /\
      pending st' = rest /\ stack_ok st'.
Proof.
  intros Hsub. induction cs as [|c cs IH]; intros st rest Hall Hok Hp Hcap.
  - exists st. split; [|split; assumption].
    apply run_done. rewrite <- (pending_length st Hok), Hp. cbn [app length]. lia.
  - cbn [app length] in *.
    destruct (Hsub c st (cs ++ rest)) as (st1 & Hr1 & Hp1 & Hok1); try assumption.
    { apply Hall. left. reflexivity. }
    { rewrite length_app. lia. }
    destruct (IH st1 rest) as (st2 & Hr2 & Hp2 & Hok2); try assumption.
    { intros c' Hc'. apply Hall. right. exact Hc'. }
    { lia. }
    exists st2. split; [|split; assumption].
    eapply run_within_trans.
    + eapply run_within_mono; [|exact Hr1]. rewrite length_app. lia.
    + eapply run_within_mono; [|exact Hr2]. lia.
Qed.

(** The subtree of the node on top of the stack is worked off with at most
    seven more cells of the stack per level below it. *)
Lemma subtree_safe (h : nat) :
  forall i st rest,
    tree_ok octree h i = true -> stack_ok st -> pending st = i :: rest ->
    (Z.of_nat (length rest) + 1 + 7 * Z.of_nat h <= STACK_CAPACITY)%Z ->
    exists st',
      run_within octree r rt (Z.of_nat (length rest) + 1 + 7 * Z.of_nat h) st st' /\
      pending st' = rest /\ stack_ok st'.
Proof.
  induction h as [|h IH]; intros i st rest Htree Hok Hp Hcap.
  - destruct (spec_step_tree_ok 0 i rest (best st) Htree)
      as (pend' & b' & Hs & Hshape).
    pose proof (octree_body_spec st i rest Hok Hp) as Hbody.
    rewrite Hs in Hbody. destruct Hbody as [Hfit _].
    destruct Hshape as [->|(h' & cs & Hh & _)]; [|discriminate].
    destruct (Hfit ltac:(lia)) as (st' & Hb & Hp' & _ & Hok').
    exists st'. split; [|split; assumption].
    assert (Hsz := pending_length st Hok). rewrite Hp in Hsz. cbn [length] in Hsz.
    assert (Hsz' := pending_length st' Hok'). rewrite Hp' in Hsz'.
    eapply run_step; [lia | exact Hb | apply run_done; lia].
  - destruct (spec_step_tree_ok (S h) i rest (best st) Htree)
      as (pend' & b' & Hs & Hshape).
    pose proof (octree_body_spec st i rest Hok Hp) as Hbody.
    rewrite Hs in Hbody. destruct Hbody as [Hfit _].
    assert (Hsz := pending_length st Hok). rewrite Hp in Hsz. cbn [length] in Hsz.
    destruct Hshape as [->|(h' & cs & Hh & -> & Hlen & Hall)].
    + destruct (Hfit ltac:(lia)) as (st' & Hb & Hp' & _ & Hok').
      exists st'. split; [|split; assumption].
      assert (Hsz' := pending_length st' Hok'). rewrite Hp' in Hsz'.
      eapply run_step; [lia | exact Hb | apply run_done; lia].
    + injection Hh as <-.
      rewrite length_app in Hfit.
      destruct (Hfit ltac:(lia)) as (st1 & Hb & Hp1 & _ & Hok1).
      destruct (children_safe h IH cs st1 rest Hall Hok1 Hp1 ltac:(lia))
        as (st2 & Hr & Hp2 & Hok2).
      exists st2. split; [|split; assumption].
      eapply run_step; [lia | exact Hb |].
      eapply run_within_mono; [|exact Hr]. lia.
Qed.

(** A bounded run that empties the stack is a completed loop. *)
Lemma run_within_while (b : Z) (st st' : Traversal) :
  run_within octree r rt b st st' -> (stackSize st' <= 0)%Z ->
  exists fuel, octree_while fuel octree r rt st = Returns st'.
Proof.
  intros H Hend. induction H as [st H|st st1 st2 H Hb Hr IH].
  - exists O. cbn [octree_while].
    destruct (stackSize st >? 0)%Z eqn:E; [|reflexivity].
    rewrite Z.gtb_ltb, Z.ltb_lt in E. lia.
  - destruct (IH Hend) as (fuel & Hf). exists (S fuel). cbn [octree_while].
    destruct (stackSize st >? 0)%Z eqn:E.
    + rewrite Hb. cbn [bind]. exact Hf.
    + rewrite Z.gtb_ltb, Z.ltb_ge in E. lia.
Qed.

(** Every state the loop goes through lies on a bounded run that empties
    the stack. *)
Lemma run_within_reaches (b : Z) (st st' : Traversal) :
  run_within octree r rt b st st' -> (stackSize st' <= 0)%Z ->
  forall x, reaches octree r rt st x ->
            (stackSize x <= b)%Z /\
            ((0 < stackSize x)%Z -> exists x', octree_body octree r rt x = Returns x').
Proof.
  intros H Hend. induction H as [st H|st st1 st2 H Hb Hr IH]; intros x Hx.
  - inversion Hx as [|? ? ? Hpos]; subst.
    + split; [exact H | intros; lia].
    + lia.
  - inversion Hx as [|? st1' ? Hpos Hb' Hx']; subst.
    + split; [lia | intros _; exists st1; exact Hb].
    + rewrite Hb in Hb'. injection Hb' as <-. apply IH; assumption.
Qed.

End Traversal.

(** ** The mesh and octree tests as a whole *)

Lemma finishHit_report (g : Geom) (r rt : Ray) (o : Out) :
  finishHit g r rt o = facing_report g r rt (intersectionPoint o) (normal o).
Proof.
  unfold finishHit, facing_report. cbv zeta.
  cbn [set_intersectionPoint set_normal set_outside intersectionPoint normal outside].
  generalize (glm.dot
                (glm.normalize
                   (multiplyMV (invTranspose g) (glm.mk_vec4 (normal o) F32.zero)))
                (direction rt) <? F32.zero).
  intros [|]; reflexivity.
Qed.

Lemma facing_report_not_neg (g : Geom) (r rt : Ray) (p n : glm.vec3) :
  (fst (facing_report g r rt p n) <? F32.zero) = false.
Proof. apply length_not_neg. Qed.

Lemma facing_report_not_mone (g : Geom) (r rt : Ray) (p n : glm.vec3) :
  fst (facing_report g r rt p n) <> F32.mone.
Proof. apply length_not_mone. Qed.

Lemma selected_same_hit (rt : Ray) (tris : list Triangle) (k : nat) (b b' : Best) :
  same_hit b b' -> selected rt tris k b' -> selected rt tris k b.
Proof.
  intros (Ht & Hp & Hn) (tri & d & p & H).
  exists tri, d, p. rewrite Ht, Hp, Hn. exact H.
Qed.

Lemma no_hit_not_some (rt : Ray) (tris : list Triangle) :
  no_hit rt tris -> ~ some_hit rt tris.
Proof.
  unfold no_hit, some_hit. rewrite Forall_forall, Exists_exists.
  intros Hno (tri & Hin & Hh). apply Hh. apply Hno. exact Hin.
Qed.

Lemma selected_some_hit (rt : Ray) (tris : list Triangle) (k : nat) (b : Best) :
  selected rt tris k b -> some_hit rt tris.
Proof.
  intros (tri & d & p & Hk & Hh & _). unfold some_hit. rewrite Exists_exists.
  exists tri. split; [eapply nth_error_In; exact Hk|]. rewrite Hh. discriminate.
Qed.

Lemma selected_hit (rt : Ray) (tris : list Triangle) (k : nat) (b : Best) :
  selected rt tris k b -> ~ no_hit rt tris /\ (best_t b <? F32.zero) = false.
Proof.
  intros (tri & d & p & Hk & Hh & Ht & _). split.
  - intros Hno. unfold no_hit in Hno. rewrite Forall_forall in Hno.
    apply nth_error_In in Hk. rewrite (Hno _ Hk) in Hh. discriminate.
  - rewrite Ht. eapply tri_hit_not_neg. exact Hh.
Qed.

(** The hit a traversal or a mesh loop ends with, started from [t = -1]. *)
Lemma loop_summary (rt : Ray) (tris : list Triangle) (out : Out) (b : Best) :
  same_hit b (triangle_loop rt tris (mkBest F32.mone out)) ->
  (no_hit rt tris /\ best_t b = F32.mone /\
   intersectionPoint (best_out b) = intersectionPoint out /\
   normal (best_out b) = normal out) \/
  (exists k, selected rt tris k b).
Proof.
  intros Hs.
  destruct (fold_closest rt tris (mkBest F32.mone out) mone_neg) as [[Hno Hb]|[k [Hsel _]]].
  - left. rewrite Hb in Hs. destruct Hs as (Ht & Hp & Hn). repeat split; assumption.
  - right. exists k. eapply selected_same_hit; eassumption.
Qed.

(** The mesh test: the triangle loop over the triangles of the mesh, then
    -1 or the report of the hit. *)
Lemma mesh_result (mesh : Mesh) (r : Ray) (out : Out) (res : F32.float * Out) :
  meshIntersectionTest mesh r out = Returns res ->
  exists tris,
    mesh_triangles mesh = Returns tris /\
    mesh_for mesh (localRay (mesh_geom mesh) r) (range3 (numIndices mesh))
             (mkBest F32.mone out)
    = Returns (triangle_loop (localRay (mesh_geom mesh) r) tris (mkBest F32.mone out)) /\
    ((no_hit (localRay (mesh_geom mesh) r) tris /\ res = (F32.mone, out)) \/
     (exists k, selected (localRay (mesh_geom mesh) r) tris k
                  (triangle_loop (localRay (mesh_geom mesh) r) tris (mkBest F32.mone out)) /\
                res = facing_report (mesh_geom mesh) r (localRay (mesh_geom mesh) r)
                        (intersectionPoint (best_out
                           (triangle_loop (localRay (mesh_geom mesh) r) tris
                              (mkBest F32.mone out))))
                        (normal (best_out
                           (triangle_loop (localRay (mesh_geom mesh) r) tris
                              (mkBest F32.mone out)))))).
Proof.
  unfold meshIntersectionTest. cbv zeta.
  generalize (localRay (mesh_geom mesh) r). intro rt.
  rewrite mesh_for_loop. unfold mesh_triangles.
  destruct (mapM (mesh_triangle mesh) (range3 (numIndices mesh))) as [tris| |];
    cbn [bind]; try discriminate.
  intros H. exists tris. split; [reflexivity|]. split; [reflexivity|].
  destruct (fold_closest rt tris (mkBest F32.mone out) mone_neg) as [[Hno Hb]|[k [Hsel _]]].
  - left. split; [exact Hno|]. rewrite Hb in H. cbn [best_t best_out] in H.
    rewrite mone_neg in H. injection H as <-. reflexivity.
  - right. exists k. split; [exact Hsel|].
    destruct (selected_hit _ _ _ _ Hsel) as [_ Hnn]. rewrite Hnn in H.
    injection H as <-. apply finishHit_report.
Qed.

(** The octree test: a triangle loop over the triangles the traversal
    visits, then -1 or the report of the hit. *)
Lemma octree_result (fuel : nat) (octree : OctreeDev) (r : Ray) (out : Out)
      (res : F32.float * Out) :
  octreeIntersectionTest fuel octree r out = Returns res ->
  exists tris st',
    spec_visit fuel octree r [root octree] = Returns tris /\
    octree_while fuel octree r (localRay (octree_geom octree) r) (octree_start octree out)
    = Returns st' /\
    ((no_hit (localRay (octree_geom octree) r) tris /\
      fst res = F32.mone /\
      intersectionPoint (snd res) = intersectionPoint out /\
      normal (snd res) = normal out) \/
     (exists k, selected (localRay (octree_geom octree) r) tris k (best st') /\
                res = facing_report (octree_geom octree) r (localRay (octree_geom octree) r)
                        (intersectionPoint (best_out (best st')))
                        (normal (best_out (best st'))))).
Proof.
  unfold octreeIntersectionTest. cbv zeta.
  generalize (localRay (octree_geom octree) r). intro rt.
  destruct (octree_while fuel octree r rt (octree_start octree out)) as [st'| |] eqn:Hw;
    cbn [bind]; try discriminate.
  intros H.
  destruct (octree_start_ok octree out) as (Hok & Hp & Hb).
  destruct (octree_while_visit octree r rt fuel _ _ Hok Hw) as (tris & Hv & Hh).
  rewrite Hp in Hv. rewrite Hb in Hh.
  exists tris, st'. split; [exact Hv|]. split; [reflexivity|].
  destruct (loop_summary rt tris out (best st') Hh) as [(Hno & Ht & Hpt & Hn)|[k Hsel]].
  - left. split; [exact Hno|]. rewrite Ht, mone_neg in H. injection H as <-.
    cbn [fst snd]. repeat split; assumption.
  - right. exists k. split; [exact Hsel|].
    destruct (selected_hit _ _ _ _ Hsel) as [_ Hnn]. rewrite Hnn in H.
    injection H as <-. apply finishHit_report.
Qed.

(** ** The traversal, step by step *)

Lemma leb_zero_not_pass (a : F32.float) :
  (a <=? F32.zero) = true -> (a >? F32.zero) = false.
Proof. unfold F32.gtb. apply leb_not_ltb. Qed.

(** The step of the specification at a node that is read. *)
Lemma spec_step_eq (octree : OctreeDev) (r rt : Ray) (top : Z) (rest : list Z) (b : Best)
      (node : OctreeNode) (boundingBox : Geom) :
  read (nodes octree) top = Returns node ->
  read (boundingBoxes octree) top = Returns boundingBox ->
  spec_step octree r rt top rest b =
  if box_pass r boundingBox then
    if isLeaf node then
      match node_triangles octree top with
      | Returns tris =>
          Returns (rest, triangle_loop rt tris
                           (mkBest (best_t b)
                              (set_outside (best_out b)
                                 (box_outside r boundingBox (outside (best_out b))))))
      | OutOfBounds arr => OutOfBounds arr
      | NoFuel => NoFuel
      end
    else Returns (rev (present (children node)) ++ rest,
                  mkBest (best_t b)
                    (set_outside (best_out b)
                       (box_outside r boundingBox (outside (best_out b)))))
  else Returns (rest,
                mkBest (best_t b)
                  (set_outside (best_out b)
                     (box_outside r boundingBox (outside (best_out b))))).
Proof.
  intros Hn Hb. unfold spec_step. rewrite Hn, Hb. cbn [bind].
  generalize (box_outside r boundingBox (outside (best_out b))). intro o.
  destruct (box_pass r boundingBox); [|reflexivity].
  destruct (isLeaf node); [|reflexivity].
  destruct (node_triangles octree top); reflexivity.
Qed.

(** The pending list after a step does not depend on the hit held so far. *)
Lemma spec_step_pending (octree : OctreeDev) (r rt : Ray) (top : Z) (rest : list Z)
      (b1 b2 : Best) (pend' : list Z) (b1' : Best) :
  spec_step octree r rt top rest b1 = Returns (pend', b1') ->
  exists b2', spec_step octree r rt top rest b2 = Returns (pend', b2').
Proof.
  unfold spec_step.
  destruct (read (nodes octree) top) as [node| |]; cbn [bind]; try discriminate.
  destruct (read (boundingBoxes octree) top) as [boundingBox| |]; cbn [bind];
    try discriminate.
  generalize (box_outside r boundingBox (outside (best_out b1))). intro o1.
  generalize (box_outside r boundingBox (outside (best_out b2))). intro o2.
  destruct (box_pass r boundingBox).
  - destruct (isLeaf node).
    + destruct (node_triangles octree top) as [tris| |]; cbn [bind]; try discriminate.
      intros H. injection H as <- _. eexists. reflexivity.
    + intros H. injection H as <- _. eexists. reflexivity.
  - intros H. injection H as <- _. eexists. reflexivity.
Qed.


Lemma mapM_fault {A B : Type} (f : A -> outcome B) (l : list A) (arr : array) :
  (forall a arr', f a = OutOfBounds arr' -> arr' = DeviceArray) ->
  mapM f l = OutOfBounds arr -> arr = DeviceArray.
Proof.
  intros Hf. induction l as [|a l IH]; [discriminate|].
  cbn [mapM]. pose proof (Hf a) as Ha.
  destruct (f a) as [b|arr'|]; cbn [bind]; try discriminate.
  - destruct (mapM f l) as [bs|arr'|]; cbn [bind]; try discriminate.
    intros E. apply IH. exact E.
  - intros E. injection E as <-. apply Ha. reflexivity.
Qed.

Lemma read_fault {A : Type} (a : list A) (i : Z) (arr : array) :
  read a i = OutOfBounds arr -> arr = DeviceArray.
Proof.
  unfold read. destruct (at_ a i); [discriminate|].
  intros E. injection E as <-. reflexivity.
Qed.

(** A step of the specification has no stack array to run off. *)
Lemma spec_step_fault (octree : OctreeDev) (r rt : Ray) (top : Z) (rest : list Z)
      (b : Best) (arr : array) :
  spec_step octree r rt top rest b = OutOfBounds arr -> arr = DeviceArray.
Proof.
  unfold spec_step.
  destruct (read (nodes octree) top) as [node|arr'|] eqn:En; cbn [bind];
    [| intros E; injection E as <-; exact (read_fault _ _ _ En) | discriminate].
  destruct (read (boundingBoxes octree) top) as [boundingBox|arr'|] eqn:Eb; cbn [bind];
    [| intros E; injection E as <-; exact (read_fault _ _ _ Eb) | discriminate].
  generalize (box_outside r boundingBox (outside (best_out b))). intro o.
  destruct (box_pass r boundingBox); [|discriminate].
  destruct (isLeaf node); [|discriminate].
  unfold node_triangles.
  destruct (read (dataStarts octree) top) as [lo|arr'|] eqn:Elo; cbn [bind];
    [| intros E; injection E as <-; exact (read_fault _ _ _ Elo) | discriminate].
  destruct (read (dataStarts octree) (top + 1)) as [hi|arr'|] eqn:Ehi; cbn [bind];
    [| intros E; injection E as <-; exact (read_fault _ _ _ Ehi) | discriminate].
  destruct (mapM (read (triangles octree)) (range lo hi)) as [tris|arr'|] eqn:Et;
    cbn [bind]; [discriminate | | discriminate].
  intros E. injection E as <-.
  apply (mapM_fault (read (triangles octree)) (range lo hi)); [|exact Et].
  intros k arr''. apply read_fault.
Qed.

Lemma spec_reaches_snoc (octree : OctreeDev) (r rt : Ray) (s0 : list Z * Best)
      (top : Z) (rest : list Z) (b : Best) (s1 : list Z * Best) :
  spec_reaches octree r rt s0 (top :: rest, b) ->
  spec_step octree r rt top rest b = Returns s1 ->
  spec_reaches octree r rt s0 s1.
Proof.
  intros H Hs. remember (top :: rest, b) as s eqn:Es.
  induction H as [s|top' rest' b' s1' s2 Hs' Hr IH].
  - subst s. eapply spec_reaches_step; [exact Hs | apply spec_reaches_refl].
  - eapply spec_reaches_step; [exact Hs' | apply IH; exact Es].
Qed.

(** The loop goes through states of the traversal of the specification. *)
Lemma reaches_spec (octree : OctreeDev) (r rt : Ray) (st x : Traversal) :
  reaches octree r rt st x -> stack_ok st ->
  spec_reaches octree r rt (pending st, best st) (pending x, best x) /\ stack_ok x.
Proof.
  intros H. induction H as [st|st st1 st2 Hpos Hb Hr IH]; intros Hok.
  - split; [apply spec_reaches_refl | exact Hok].
  - assert (E : (stackSize st >? 0)%Z = true) by (rewrite Z.gtb_ltb, Z.ltb_lt; exact Hpos).
    destruct (pending_nonempty st Hok E) as (top & rest & Hp).
    destruct (octree_body_returns octree r rt st st1 top rest Hok Hp Hb) as [Hs Hok1].
    destruct (IH Hok1) as [Hsr Hok2].
    split; [|exact Hok2].
    rewrite Hp. eapply spec_reaches_step; [exact Hs | exact Hsr].
Qed.

(** When no iteration of the loop faults, the traversal of the
    specification goes through states of the loop only. *)
Lemma spec_reaches_real (octree : OctreeDev) (r rt : Ray) (s0 s : list Z * Best) :
  spec_reaches octree r rt s0 s ->
  forall st0,
    s0 = (pending st0, best st0) -> stack_ok st0 ->
    (forall x, reaches octree r rt st0 x -> (0 < stackSize x)%Z ->
               exists x', octree_body octree r rt x = Returns x') ->
    exists st, reaches octree r rt st0 st /\
               pending st = fst s /\ best st = snd s /\ stack_ok st.
Proof.
  intros H. induction H as [s|top rest b s1 s2 Hs Hr IH]; intros st0 E Hok Hsafe.
  - exists st0. subst s. split; [apply reaches_refl|].
    split; [reflexivity|]. split; [reflexivity | exact Hok].
  - injection E as Hp Hb.
    assert (Hsz := pending_length st0 Hok). rewrite <- Hp in Hsz. cbn [length] in Hsz.
    assert (Hpos : (0 < stackSize st0)%Z) by lia.
    destruct (Hsafe st0 (reaches_refl octree r rt st0) Hpos) as (x' & Hx').
    symmetry in Hp.
    destruct (octree_body_returns octree r rt st0 x' top rest Hok Hp Hx') as [Hs' Hok'].
    rewrite <- Hb, Hs in Hs'. injection Hs' as Hs1.
    destruct (IH x' Hs1 Hok') as (st & Hreach & Hpst & Hbst & Hokst).
    { intros y Hy. apply Hsafe. eapply reaches_step; eassumption. }
    exists st. split; [eapply reaches_step; eassumption|].
    split; [exact Hpst|]. split; [exact Hbst | exact Hokst].
Qed.

(** C9. While the number of pending nodes of the traversal never exceeds
    the capacity 512 of the stack, [0 <= stackSize <= 512] holds in every
    state the loop goes through and no iteration reads or writes outside the
    stack array.  The bound holds when the subtree of the root is readable
    and has at most [h] levels of internal nodes with [7 * h + 1 <= 512]
    (a level leaves at most seven siblings pending below the node that is
    worked on): then the traversal also terminates and no iteration reads
    outside a table of the octree. *)
Theorem octree_stack_in_bounds (octree : OctreeDev) (r : Ray) (out : Out) :
  let rt := localRay (octree_geom octree) r in
  (pending_bounded octree r out ->
   forall st,
     reaches octree r rt (octree_start octree out) st ->
     (0 <= stackSize st <= STACK_CAPACITY)%Z /\
     ((0 < stackSize st)%Z -> octree_body octree r rt st <> OutOfBounds StackArray)) /\
  (forall h,
      tree_ok octree h (root octree) = true ->
      (7 * Z.of_nat h + 1 <= STACK_CAPACITY)%Z ->
      pending_bounded octree r out /\
      (exists fuel res, octreeIntersectionTest fuel octree r out = Returns res) /\
      (forall st,
          reaches octree r rt (octree_start octree out) st ->
          (0 < stackSize st)%Z -> exists st1, octree_body octree r rt st = Returns st1)).
Proof.
  intros rt.
  destruct (octree_start_ok octree out) as (Hok & Hp & Hb).
  split.
  - intros Hbound st Hst.
    destruct (reaches_spec octree r rt _ _ Hst Hok) as [Hsr Hokst].
    rewrite Hp, Hb in Hsr.
    split; [apply Hokst|].
    intros Hpos.
    assert (E : (stackSize st >? 0)%Z = true) by (rewrite Z.gtb_ltb, Z.ltb_lt; exact Hpos).
    destruct (pending_nonempty st Hokst E) as (top & rest & Hpst).
    pose proof (octree_body_spec octree r rt st top rest Hokst Hpst) as Hs.
    rewrite Hpst in Hsr.
    destruct (spec_step octree r rt top rest (best st)) as [[pend' b']|arr|] eqn:Estep.
    + destruct Hs as [Hfit _].
      assert (Hlen : (Z.of_nat (length pend') <= STACK_CAPACITY)%Z).
      { apply (Hbound pend' b'). eapply spec_reaches_snoc; [exact Hsr | exact Estep]. }
      destruct (Hfit Hlen) as (st' & Hst' & _). rewrite Hst'. discriminate.
    + rewrite Hs, (spec_step_fault _ _ _ _ _ _ _ Estep). discriminate.
    + contradiction.
  - intros h Htree Hcap.
    destruct (subtree_safe octree r rt h (root octree) (octree_start octree out) []
                Htree Hok Hp ltac:(cbn [length]; lia)) as (st' & Hrun & Hp' & Hok').
    assert (Hend : (stackSize st' <= 0)%Z).
    { rewrite <- (pending_length st' Hok'), Hp'. cbn [length]. lia. }
    assert (Hsafe : forall st, reaches octree r rt (octree_start octree out) st ->
                               (0 < stackSize st)%Z ->
                               exists st1, octree_body octree r rt st = Returns st1).
    { intros st Hst. apply (run_within_reaches octree r rt _ _ _ Hrun Hend st Hst). }
    split; [|split; [|exact Hsafe]].
    + intros pend b Hsr.
      destruct (spec_reaches_real octree r rt _ _ Hsr (octree_start octree out))
        as (st & _ & Hpst & _ & Hokst).
      * rewrite Hp, Hb. reflexivity.
      * exact Hok.
      * exact Hsafe.
      * cbn [fst] in Hpst. rewrite <- Hpst, (pending_length st Hokst). apply Hokst.
    + destruct (run_within_while octree r rt _ _ _ Hrun Hend) as (fuel & Hw).
      exists fuel. unfold octreeIntersectionTest. fold rt. rewrite Hw. cbn [bind].
      destruct (best_t (best st') <? F32.zero); eexists; reflexivity.
Qed.

(** ** The return value and the outputs *)

Lemma sign_encodes_no_hit (hit : Prop) :
  ~ hit -> sign_encodes hit F32.mone.
Proof.
  intros Hn. split; [|split].
  - split; [intros _; exact Hn | reflexivity].
  - split; [intros _; exact Hn | intros _; apply mone_neg].
  - intros H. contradiction.
Qed.

Lemma sign_encodes_hit (hit : Prop) (ret : F32.float) :
  hit -> (ret <? F32.zero) = false -> sign_encodes hit ret.
Proof.
  intros Hh Hr. split; [|split].
  - split.
    + intros E. rewrite E, mone_neg in Hr. discriminate.
    + intros Hn. contradiction.
  - split.
    + intros E. rewrite E in Hr. discriminate.
    + intros Hn. contradiction.
  - intros _. split; [exact Hr|].
    intros Hnan. apply not_ltb_leb; [exact Hnan | reflexivity | exact Hr].
Qed.

(** C8, as amended.  Each of the four tests returns -1 exactly when there
    is no hit (the slab condition fails; the discriminant is negative or
    both roots are; no triangle of the mesh, or none of the triangles the
    traversal visits, is intersected), and on a hit returns a binary32
    length, which is never below zero: the result is below zero exactly
    when there is no hit.  On a hit the result is at least zero only when
    it is not a NaN, and a NaN it can be. *)
Theorem sentinel_encodes_no_hit :
  (forall box r out,
      sign_encodes (box_hit (localRay box r) = true)
                   (fst (boxIntersectionTest box r out))) /\
  (forall sphere r out,
      sign_encodes (sphere_hit (localRay sphere r) = true)
                   (fst (sphereIntersectionTest sphere r out))) /\
  (forall mesh r out ret out',
      meshIntersectionTest mesh r out = Returns (ret, out') ->
      exists tris,
        mesh_triangles mesh = Returns tris /\
        sign_encodes (some_hit (localRay (mesh_geom mesh) r) tris) ret) /\
  (forall fuel octree r out ret out',
      octreeIntersectionTest fuel octree r out = Returns (ret, out') ->
      exists tris,
        spec_visit fuel octree r [root octree] = Returns tris /\
        sign_encodes (some_hit (localRay (octree_geom octree) r) tris) ret).
Proof.
  split; [|split; [|split]].
  - intros box r out. rewrite boxIntersectionTest_cases. cbv zeta.
    destruct (box_hit (localRay box r)).
    + apply sign_encodes_hit; [reflexivity|].
      destruct (tmin (box_slabs (localRay box r)) <=? F32.zero);
        apply box_report_not_neg.
    + apply sign_encodes_no_hit. discriminate.
  - intros sphere r out. rewrite sphereIntersectionTest_cases. cbv zeta.
    unfold sphere_hit.
    destruct (sphere_radicand (localRay sphere r) <? F32.zero).
    { apply sign_encodes_no_hit. discriminate. }
    destruct ((sphere_t1 (localRay sphere r) <? F32.zero)
              && (sphere_t2 (localRay sphere r) <? F32.zero)).
    { apply sign_encodes_no_hit. discriminate. }
    apply sign_encodes_hit; [reflexivity|].
    destruct ((sphere_t1 (localRay sphere r) >? F32.zero)
              && (sphere_t2 (localRay sphere r) >? F32.zero));
      apply sphere_report_not_neg.
  - intros mesh r out ret out' H.
    destruct (mesh_result mesh r out _ H) as (tris & Ht & _ & [[Hno E]|[k [Hsel E]]]).
    + exists tris. split; [exact Ht|]. injection E as -> _.
      apply sign_encodes_no_hit. apply no_hit_not_some. exact Hno.
    + exists tris. split; [exact Ht|].
      apply sign_encodes_hit; [exact (selected_some_hit _ _ _ _ Hsel)|].
      replace ret with (fst (ret, out')) by reflexivity. rewrite E.
      apply facing_report_not_neg.
  - intros fuel octree r out ret out' H.
    destruct (octree_result fuel octree r out _ H)
      as (tris & st' & Hv & _ & [(Hno & E & _)|[k [Hsel E]]]).
    + exists tris. split; [exact Hv|]. cbn [fst] in E. rewrite E.
      apply sign_encodes_no_hit. apply no_hit_not_some. exact Hno.
    + exists tris. split; [exact Hv|].
      apply sign_encodes_hit; [exact (selected_some_hit _ _ _ _ Hsel)|].
      replace ret with (fst (ret, out')) by reflexivity. rewrite E.
      apply facing_report_not_neg.
Qed.

(** C8 as stated fails for the sphere test: on a hit the value returned
    need not be a non-negative distance.  For the unit sphere and the ray
    [ray_far], finite and with a unit direction, [dot(origin, origin)]
    overflows, the discriminant is a NaN, neither [radicand < 0] nor
    [t1 < 0 && t2 < 0] holds, the test takes its hit branch and returns a
    NaN, which is not at least zero. *)
Lemma sphere_hit_returns_nan :
  sphere_radicand (localRay unit_geom ray_far) = S754_nan /\
  sphere_hit (localRay unit_geom ray_far) = true /\
  fst (sphereIntersectionTest unit_geom ray_far out_init) = S754_nan /\
  fst (sphereIntersectionTest unit_geom ray_far out_init) <> F32.mone /\
  (F32.zero <=? fst (sphereIntersectionTest unit_geom ray_far out_init)) = false.
Proof.
  split; [vm_compute; reflexivity|].
  split; [vm_compute; reflexivity|].
  split; [vm_compute; reflexivity|].
  split; [vm_compute; discriminate|].
  vm_compute. reflexivity.
Qed.

Lemma facing_report_rule (g : Geom) (r rt : Ray) (p n : glm.vec3) :
  facing_rule g rt n (snd (facing_report g r rt p n)).
Proof.
  unfold facing_rule, facing_report. cbv zeta. cbn [snd outside normal].
  generalize (glm.normalize (multiplyMV (invTranspose g) (glm.mk_vec4 n F32.zero))).
  intro nw. unfold F32.geb.
  pose proof (leb_not_ltb F32.zero (glm.dot nw (direction rt))) as Hge.
  destruct (glm.dot nw (direction rt) <? F32.zero).
  - split; [split; reflexivity|]. split; [reflexivity|].
    split; [|discriminate]. intros H. specialize (Hge H). discriminate.
  - split; [split; intros; discriminate|]. split; [discriminate|].
    split; intros _; split; reflexivity.
Qed.


(** C10. When the box, sphere or mesh test returns -1, the three outputs
    are as they were before the call.  When the octree test returns -1,
    [intersectionPoint] and [normal] are as they were; [outside] may have
    been written by the box tests of the traversal, as it is for the ray
    [ray_beside], which enters the root box and passes beside the triangle. *)
Theorem no_hit_frame :
  (forall box r out,
      fst (boxIntersectionTest box r out) = F32.mone ->
      snd (boxIntersectionTest box r out) = out) /\
  (forall sphere r out,
      fst (sphereIntersectionTest sphere r out) = F32.mone ->
      snd (sphereIntersectionTest sphere r out) = out) /\
  (forall mesh r out ret out',
      meshIntersectionTest mesh r out = Returns (ret, out') ->
      ret = F32.mone -> out' = out) /\
  (forall fuel octree r out ret out',
      octreeIntersectionTest fuel octree r out = Returns (ret, out') ->
      ret = F32.mone ->
      intersectionPoint out' = intersectionPoint out /\ normal out' = normal out) /\
  (exists out',
      octreeIntersectionTest 1 octree_near_face ray_beside out_init
      = Returns (F32.mone, out') /\
      outside out_init = false /\ outside out' = true).
Proof.
  split; [|split; [|split; [|split]]].
  - intros box r out. rewrite boxIntersectionTest_cases. cbv zeta.
    destruct (box_hit (localRay box r)); [|reflexivity].
    destruct (tmin (box_slabs (localRay box r)) <=? F32.zero);
      intros E; apply box_report_not_mone in E; contradiction.
  - intros sphere r out. rewrite sphereIntersectionTest_cases. cbv zeta.
    destruct (sphere_radicand (localRay sphere r) <? F32.zero); [reflexivity|].
    destruct ((sphere_t1 (localRay sphere r) <? F32.zero)
              && (sphere_t2 (localRay sphere r) <? F32.zero)); [reflexivity|].
    destruct ((sphere_t1 (localRay sphere r) >? F32.zero)
              && (sphere_t2 (localRay sphere r) >? F32.zero));
      intros E; apply sphere_report_not_mone in E; contradiction.
  - intros mesh r out ret out' H Hret.
    destruct (mesh_result mesh r out _ H) as (tris & _ & _ & [[_ E]|[k [_ E]]]).
    + injection E as _ ->. reflexivity.
    + exfalso. apply (facing_report_not_mone (mesh_geom mesh) r (localRay (mesh_geom mesh) r)
                        (intersectionPoint (best_out
                           (triangle_loop (localRay (mesh_geom mesh) r) tris
                              (mkBest F32.mone out))))
                        (normal (best_out
                           (triangle_loop (localRay (mesh_geom mesh) r) tris
                              (mkBest F32.mone out))))).
      rewrite <- E. exact Hret.
  - intros fuel octree r out ret out' H Hret.
    destruct (octree_result fuel octree r out _ H)
      as (tris & st' & _ & _ & [(_ & _ & Hp & Hn)|[k [_ E]]]).
    + split; assumption.
    + exfalso.
      apply (facing_report_not_mone (octree_geom octree) r (localRay (octree_geom octree) r)
               (intersectionPoint (best_out (best st')))
               (normal (best_out (best st')))).
      rewrite <- E. exact Hret.
  - eexists. split; [vm_compute; reflexivity|]. split; reflexivity.
Qed.

(** ** The reported point *)

Lemma box_report_point (box : Geom) (r : Ray) (t : F32.float) (n : glm.vec3) (o : bool) :
  intersectionPoint (snd (box_report box r t n o)) = biased_point box r t.
Proof. reflexivity. Qed.

Lemma sphere_report_point (sphere : Geom) (r : Ray) (t : F32.float) (o : bool) :
  intersectionPoint (snd (sphere_report sphere r t o)) = biased_point sphere r t.
Proof. reflexivity. Qed.

Lemma facing_report_point (g : Geom) (r rt : Ray) (p n : glm.vec3) :
  intersectionPoint (snd (facing_report g r rt p n))
  = multiplyMV (transform g) (glm.mk_vec4 p F32.one).
Proof. reflexivity. Qed.

Lemma selected_point (rt : Ray) (tris : list Triangle) (k : nat) (b : Best) :
  selected rt tris k b ->
  exists tri barycentric,
    In tri tris /\
    glm.intersectRayTriangle (origin rt) (direction rt)
      (vertices0 tri) (vertices1 tri) (vertices2 tri) = Some barycentric /\
    intersectionPoint (best_out b) = tri_point tri barycentric.
Proof.
  intros (tri & d & p & Hk & Hh & _ & Hp & _).
  unfold tri_hit in Hh.
  destruct (glm.intersectRayTriangle (origin rt) (direction rt)
              (vertices0 tri) (vertices1 tri) (vertices2 tri)) as [barycentric|] eqn:E;
    [|discriminate].
  injection Hh as _ <-.
  exists tri, barycentric. split; [eapply nth_error_In; exact Hk|].
  split; [exact E | exact Hp].
Qed.

(** C2, as the code has it.  On a hit the box test and the sphere test
    report the world image of [getPointOnRay] at the local parameter they
    selected, that is of the local ray at [t - .0001f]; the mesh test and
    the octree test report the world image of the point
    [vert0 + u * (vert1 - vert0) + v * (vert2 - vert0)] of an intersected
    triangle, computed from its barycentric position, with no bias. *)
Theorem point_of_hit :
  (forall box r out,
      box_hit (localRay box r) = true ->
      intersectionPoint (snd (boxIntersectionTest box r out))
      = biased_point box r (box_t (localRay box r))) /\
  (forall sphere r out,
      sphere_hit (localRay sphere r) = true ->
      intersectionPoint (snd (sphereIntersectionTest sphere r out))
      = biased_point sphere r (sphere_t (localRay sphere r))) /\
  (forall mesh r out ret out',
      meshIntersectionTest mesh r out = Returns (ret, out') ->
      ret <> F32.mone ->
      exists tris tri barycentric,
        mesh_triangles mesh = Returns tris /\ In tri tris /\
        glm.intersectRayTriangle
          (origin (localRay (mesh_geom mesh) r)) (direction (localRay (mesh_geom mesh) r))
          (vertices0 tri) (vertices1 tri) (vertices2 tri) = Some barycentric /\
        intersectionPoint out'
        = multiplyMV (transform (mesh_geom mesh))
            (glm.mk_vec4 (tri_point tri barycentric) F32.one)) /\
  (forall fuel octree r out ret out',
      octreeIntersectionTest fuel octree r out = Returns (ret, out') ->
      ret <> F32.mone ->
      exists tris tri barycentric,
        spec_visit fuel octree r [root octree] = Returns tris /\ In tri tris /\
        glm.intersectRayTriangle
          (origin (localRay (octree_geom octree) r))
          (direction (localRay (octree_geom octree) r))
          (vertices0 tri) (vertices1 tri) (vertices2 tri) = Some barycentric /\
        intersectionPoint out'
        = multiplyMV (transform (octree_geom octree))
            (glm.mk_vec4 (tri_point tri barycentric) F32.one)).
Proof.
  split; [|split; [|split]].
  - intros box r out Hhit. rewrite boxIntersectionTest_cases. cbv zeta.
    rewrite Hhit. unfold box_t. cbv zeta.
    destruct (tmin (box_slabs (localRay box r)) <=? F32.zero); apply box_report_point.
  - intros sphere r out. rewrite sphereIntersectionTest_cases. cbv zeta.
    unfold sphere_hit, sphere_t.
    destruct (sphere_radicand (localRay sphere r) <? F32.zero); [discriminate|].
    destruct ((sphere_t1 (localRay sphere r) <? F32.zero)
              && (sphere_t2 (localRay sphere r) <? F32.zero)); [discriminate|].
    intros _.
    destruct ((sphere_t1 (localRay sphere r) >? F32.zero)
              && (sphere_t2 (localRay sphere r) >? F32.zero)); apply sphere_report_point.
  - intros mesh r out ret out' H Hret.
    destruct (mesh_result mesh r out _ H) as (tris & Ht & _ & [[_ E]|[k [Hsel E]]]).
    + injection E as E _. contradiction.
    + destruct (selected_point _ _ _ _ Hsel) as (tri & barycentric & Hin & Hi & Hp).
      exists tris, tri, barycentric.
      split; [exact Ht|]. split; [exact Hin|]. split; [exact Hi|].
      replace out' with (snd (ret, out')) by reflexivity.
      rewrite E, facing_report_point, Hp. reflexivity.
  - intros fuel octree r out ret out' H Hret.
    destruct (octree_result fuel octree r out _ H)
      as (tris & st' & Hv & _ & [(_ & E & _)|[k [Hsel E]]]).
    + cbn [fst] in E. contradiction.
    + destruct (selected_point _ _ _ _ Hsel) as (tri & barycentric & Hin & Hi & Hp).
      exists tris, tri, barycentric.
      split; [exact Hv|]. split; [exact Hin|]. split; [exact Hi|].
      replace out' with (snd (ret, out')) by reflexivity.
      rewrite E, facing_report_point, Hp. reflexivity.
Qed.

(** C2 as stated fails for the mesh test: for the ray [ray_down] onto the
    triangle of [mesh_one] the test hits at local distance 1 and reports the
    point [(0.25, 0.25, 0)] on the triangle, not the point of the local ray
    at [1 - .0001f], which lies [13746176 * 2^-37], about 1e-4, above it. *)
Lemma mesh_point_without_bias :
  mesh_for mesh_one (localRay (mesh_geom mesh_one) ray_down) (range3 (numIndices mesh_one))
           (mkBest F32.mone out_init)
  = Returns (mkBest F32.one (mkOut (eighths 2 2 0) (eighths 0 0 8) false)) /\
  meshIntersectionTest mesh_one ray_down out_init
  = Returns (F32.one, mkOut (eighths 2 2 0) (eighths 0 0 8) true) /\
  biased_point (mesh_geom mesh_one) ray_down F32.one
  = glm.Vec3 (F32.lit 2 (-3)) (F32.lit 2 (-3)) (S754_finite false 13746176 (-37)) /\
  eighths 2 2 0 <> biased_point (mesh_geom mesh_one) ray_down F32.one.
Proof.
  split; [vm_compute; reflexivity|].
  split; [vm_compute; reflexivity|].
  split; [vm_compute; reflexivity|].
  vm_compute. discriminate.
Qed.

(** ** Octree against brute force *)

Lemma no_hit_permutation (rt : Ray) (l l' : list Triangle) :
  Permutation l l' -> no_hit rt l -> no_hit rt l'.
Proof. intros Hp Hn. unfold no_hit in *. eapply Permutation_Forall; eassumption. Qed.

(** When the traversal tests every triangle of the mesh, the two tests
    agree on hit versus no hit: they can differ only by a pruned subtree. *)
Lemma octree_agrees_when_all_visited (fuel : nat) (octree : OctreeDev) (mesh : Mesh)
      (r : Ray) (out : Out) (ret_o ret_m : F32.float) (out_o out_m : Out)
      (visited tris : list Triangle) :
  octree_geom octree = mesh_geom mesh ->
  octreeIntersectionTest fuel octree r out = Returns (ret_o, out_o) ->
  meshIntersectionTest mesh r out = Returns (ret_m, out_m) ->
  spec_visit fuel octree r [root octree] = Returns visited ->
  mesh_triangles mesh = Returns tris ->
  Permutation visited tris ->
  (ret_o = F32.mone <-> ret_m = F32.mone).
Proof.
  intros Hg Ho Hm Hv Ht Hperm.
  destruct (octree_result fuel octree r out _ Ho) as (visited' & st' & Hv' & _ & Hcase_o).
  destruct (mesh_result mesh r out _ Hm) as (tris' & Ht' & _ & Hcase_m).
  rewrite Hv in Hv'. injection Hv' as <-. rewrite Ht in Ht'. injection Ht' as <-.
  rewrite Hg in Hcase_o.
  destruct Hcase_o as [(Hno_o & Eo & _)|[ko [Hsel_o Eo]]];
    destruct Hcase_m as [[Hno_m Em]|[km [Hsel_m Em]]].
  - cbn [fst] in Eo. injection Em as -> _. split; intros _; [reflexivity | exact Eo].
  - exfalso. destruct (selected_hit _ _ _ _ Hsel_m) as [Hhit _].
    apply Hhit. eapply no_hit_permutation; eassumption.
  - exfalso. destruct (selected_hit _ _ _ _ Hsel_o) as [Hhit _].
    apply Hhit. eapply no_hit_permutation; [apply Permutation_sym; exact Hperm | exact Hno_m].
  - split; intros E; exfalso.
    + apply (facing_report_not_mone (mesh_geom mesh) r (localRay (mesh_geom mesh) r)
               (intersectionPoint (best_out (best st')))
               (normal (best_out (best st')))).
      rewrite <- Eo. exact E.
    + apply (facing_report_not_mone (mesh_geom mesh) r (localRay (mesh_geom mesh) r)
               (intersectionPoint (best_out
                  (triangle_loop (localRay (mesh_geom mesh) r) tris (mkBest F32.mone out))))
               (normal (best_out
                  (triangle_loop (localRay (mesh_geom mesh) r) tris (mkBest F32.mone out))))).
      rewrite <- Em. exact E.
Qed.

(** C1 fails on the code.  [octree_near_face] is built over
    [mesh_near_face]: its one leaf box, the unit cube, contains the
    triangle, which lies strictly inside it.  The ray [ray_near_face]
    starts inside the cube and hits the triangle: the mesh test returns the
    distance [11644928 * 2^-37], about 8.47e-5.  The box test of the leaf
    takes its hit branch with [tmax] about 1e-4, but the biased point
    [origin + (tmax - .0001f) * direction] rounds to the ray origin, so the
    distance it returns is 0, the traversal takes it for a miss, and the
    octree test returns -1. *)
Theorem octree_misses_hit_near_face :
  built_over octree_near_face mesh_near_face /\
  tree_ok octree_near_face 0 (root octree_near_face) = true /\
  meshIntersectionTest mesh_near_face ray_near_face out_init
  = Returns (S754_finite false 11644928 (-37),
             mkOut (glm.Vec3 (F32.lit (-1) (-3)) (F32.lit 1 (-3)) z_near_face)
                   (eighths 0 0 (-8)) true) /\
  box_hit (localRay unit_geom ray_near_face) = true /\
  fst (boxIntersectionTest unit_geom ray_near_face out_init) = F32.zero /\
  (forall fuel,
      octreeIntersectionTest (S fuel) octree_near_face ray_near_face out_init
      = Returns (F32.mone, out_init)).
Proof.
  split.
  { split; [reflexivity|]. split.
    - exists [tri_near_face]. split; [vm_compute; reflexivity | apply Permutation_refl].
    - split; [vm_compute; reflexivity|]. split; vm_compute; reflexivity. }
  split; [vm_compute; reflexivity|].
  split; [vm_compute; reflexivity|].
  split; [vm_compute; reflexivity|].
  split; [vm_compute; reflexivity|].
  intros [|fuel]; vm_compute; reflexivity.
Qed.

(** ** The theorems at concrete scenes *)

(** The scenario of the unit cube: the ray from [(0, 0, -5)] along [+z]
    hits from outside, at distance [9436974 * 2^-21], about 4.4999, with
    the normal [(0, 0, -1)]. *)
Example box_from_front :
  boxIntersectionTest unit_geom ray_front out_init
  = (S754_finite false 9436974 (-21),
     mkOut (glm.Vec3 F32.zero F32.zero (S754_finite true 8390288 (-24)))
           (eighths 0 0 (-8)) true).
Proof. vm_compute. reflexivity. Qed.

(** The scenario of the unit sphere: from the centre along [+x] the ray
    leaves through the far root, [outside] is false and the normal is the
    reversed one, [(-1, 0, 0)]. *)
Example sphere_from_centre :
  sphereIntersectionTest unit_geom ray_centre out_init
  = (S754_finite false 16773861 (-25),
     mkOut (glm.Vec3 (S754_finite false 16773861 (-25)) F32.zero F32.zero)
           (glm.Vec3 F32.mone (- F32.zero) (- F32.zero)) false).
Proof. vm_compute. reflexivity. Qed.

(** The proviso of C8 on NaN is needed: for a ray without a direction the
    normalised direction is NaN, no comparison of the slab loop holds, and
    the box test takes its hit branch and returns NaN, which is neither
    below zero nor at least zero. *)
Example box_without_direction :
  box_hit (localRay unit_geom (mkRay (eighths 0 0 (-40)) (eighths 0 0 0))) = true /\
  fst (boxIntersectionTest unit_geom (mkRay (eighths 0 0 (-40)) (eighths 0 0 0)) out_init)
  = S754_nan.
Proof. split; vm_compute; reflexivity. Qed.

(** Two hits at the same distance: the first triangle is kept. *)
Example mesh_twice_keeps_first :
  exists tris b,
    mesh_triangles mesh_twice = Returns tris /\
    mesh_for mesh_twice (localRay (mesh_geom mesh_twice) ray_down)
             (range3 (numIndices mesh_twice)) (mkBest F32.mone out_init) = Returns b /\
    length tris = 2%nat /\
    selected (localRay (mesh_geom mesh_twice) ray_down) tris 0 b.
Proof.
  eexists. eexists.
  split; [vm_compute; reflexivity|].
  split; [vm_compute; reflexivity|].
  split; [reflexivity|].
  eexists. eexists. eexists.
  split; [reflexivity|].
  split; [vm_compute; reflexivity|].
  split; [reflexivity|]. split; [reflexivity|]. split; [vm_compute; reflexivity|].
  split.
  - intros [|[|[|j]]] trj dj pj Hj Hh; vm_compute in Hj; try discriminate Hj;
      injection Hj as <-; vm_compute in Hh; injection Hh as <- _; reflexivity.
  - intros j trj dj pj Hlt. inversion Hlt.
Qed.


(** C9 at the octree [octree_two_leaves], of one level of internal nodes,
    and the ray [ray_front]. *)
Lemma octree_stack_in_bounds_witness :
  tree_ok octree_two_leaves 1 (root octree_two_leaves) = true /\
  (7 * Z.of_nat 1 + 1 <= STACK_CAPACITY)%Z /\
  pending_bounded octree_two_leaves ray_front out_init /\
  (exists fuel res,
      octreeIntersectionTest fuel octree_two_leaves ray_front out_init = Returns res) /\
  (forall st,
      reaches octree_two_leaves ray_front
              (localRay (octree_geom octree_two_leaves) ray_front)
              (octree_start octree_two_leaves out_init) st ->
      (0 < stackSize st)%Z ->
      exists st1,
        octree_body octree_two_leaves ray_front
                    (localRay (octree_geom octree_two_leaves) ray_front) st
        = Returns st1).
Proof.
  split; [reflexivity|]. split; [vm_compute; discriminate|].
  apply (proj2 (octree_stack_in_bounds octree_two_leaves ray_front out_init) 1%nat).
  - reflexivity.
  - vm_compute. discriminate.
Defined.

(** ** The hash *)

Section Hash.

Local Open Scope Z_scope.

Lemma wrap32_word a : word32 (wrap32 a).
Proof. unfold word32, wrap32. apply Z.mod_pos_bound. reflexivity. Qed.

Lemma wrap32_small a : word32 a -> wrap32 a = a.
Proof. unfold word32, wrap32. intros H. apply Z.mod_small. exact H. Qed.

Lemma lxor_mod u v n : 0 <= n ->
  (Z.lxor u v) mod 2^n = Z.lxor (u mod 2^n) (v mod 2^n).
Proof.
  intros Hn. apply Z.bits_inj'. intros i Hi.
  rewrite Z.lxor_spec, !Z.testbit_mod_pow2, Z.lxor_spec by assumption.
  destruct (i <? n); reflexivity.
Qed.

Lemma lxor_word u v : word32 u -> word32 v -> word32 (Z.lxor u v).
Proof.
  intros Hu Hv. rewrite <- (wrap32_small u Hu), <- (wrap32_small v Hv).
  unfold wrap32. rewrite <- lxor_mod by lia. apply wrap32_word.
Qed.

Lemma shiftr_word a k : 0 <= k -> word32 a -> word32 (Z.shiftr a k).
Proof.
  unfold word32. intros Hk [H0 H1]. rewrite Z.shiftr_div_pow2 by assumption.
  assert (0 < 2^k) by (apply Z.pow_pos_nonneg; lia).
  split.
  - apply Z.div_pos; assumption.
  - apply Z.le_lt_trans with a; [|assumption].
    apply Z.div_le_upper_bound; [assumption|]. nia.
Qed.

Lemma add_shl_affine c k a : 0 <= k ->
  add_shl c k a = wrap32 ((2^k + 1) * a + c).
Proof.
  intros Hk. unfold add_shl, wrap32. rewrite Z.shiftl_mul_pow2 by assumption.
  rewrite <- Z.add_mod by discriminate. f_equal. ring.
Qed.

Lemma un_add_shl_left c k inv a : 0 <= k -> wrap32 (inv * (2^k + 1)) = 1 ->
  word32 a -> un_add_shl c inv (add_shl c k a) = a.
Proof.
  intros Hk Hinv Ha. rewrite add_shl_affine by assumption.
  unfold un_add_shl, wrap32 in *.
  rewrite <- Z.mul_mod_idemp_r, Zminus_mod_idemp_l, Z.mul_mod_idemp_r by discriminate.
  replace (inv * ((2^k + 1) * a + c - c)) with (inv * (2^k + 1) * a) by ring.
  rewrite <- Z.mul_mod_idemp_l, Hinv, Z.mul_1_l by discriminate.
  apply Z.mod_small. exact Ha.
Qed.

Lemma un_add_shl_right c k inv y : 0 <= k -> wrap32 (inv * (2^k + 1)) = 1 ->
  word32 y -> add_shl c k (un_add_shl c inv y) = y.
Proof.
  intros Hk Hinv Hy. rewrite add_shl_affine by assumption.
  unfold un_add_shl, wrap32 in *.
  rewrite <- Z.add_mod_idemp_l, Z.mul_mod_idemp_r, Z.add_mod_idemp_l by discriminate.
  replace ((2^k + 1) * (inv * (y - c)) + c) with (inv * (2^k + 1) * (y - c) + c) by ring.
  rewrite <- Z.add_mod_idemp_l, <- Z.mul_mod_idemp_l, Hinv, Z.mul_1_l by discriminate.
  rewrite Z.add_mod_idemp_l by discriminate.
  replace (y - c + c) with y by ring.
  apply Z.mod_small. exact Hy.
Qed.

Lemma shiftr_twice a k : 16 <= k -> word32 a -> Z.shiftr (Z.shiftr a k) k = 0.
Proof.
  intros Hk [H0 H1]. rewrite Z.shiftr_shiftr by lia.
  rewrite Z.shiftr_div_pow2 by lia. apply Z.div_small. split; [assumption|].
  apply Z.lt_le_trans with (2^32); [assumption|].
  apply Z.pow_le_mono_r; lia.
Qed.

Lemma xor_shr_self a k : 16 <= k -> word32 a ->
  let z := Z.lxor a (Z.shiftr a k) in Z.lxor z (Z.shiftr z k) = a.
Proof.
  intros Hk Ha z. subst z.
  rewrite Z.shiftr_lxor, shiftr_twice, Z.lxor_0_r by assumption.
  rewrite Z.lxor_assoc, Z.lxor_nilpotent, Z.lxor_0_r. reflexivity.
Qed.

Lemma un_xor_shr_left c k a : 16 <= k -> word32 a ->
  un_xor_shr c k (xor_shr c k a) = a.
Proof.
  intros Hk Ha. unfold un_xor_shr, xor_shr.
  replace (Z.lxor (Z.lxor (Z.lxor a c) (Z.shiftr a k)) c)
    with (Z.lxor a (Z.shiftr a k)).
  - apply xor_shr_self; assumption.
  - rewrite (Z.lxor_comm a c), !Z.lxor_assoc, (Z.lxor_comm c), !Z.lxor_assoc,
      Z.lxor_nilpotent, Z.lxor_0_r. reflexivity.
Qed.

Lemma un_xor_shr_right c k y : 16 <= k -> word32 c -> word32 y ->
  xor_shr c k (un_xor_shr c k y) = y.
Proof.
  intros Hk Hc Hy. unfold un_xor_shr, xor_shr.
  assert (Hz : word32 (Z.lxor y c)) by (apply lxor_word; assumption).
  set (z := Z.lxor y c) in *.
  rewrite (Z.shiftr_lxor z), shiftr_twice, Z.lxor_0_r by assumption.
  rewrite (Z.lxor_comm (Z.lxor z (Z.shiftr z k)) c), !Z.lxor_assoc,
    Z.lxor_nilpotent, Z.lxor_0_r.
  subst z. rewrite Z.lxor_comm, Z.lxor_assoc, Z.lxor_nilpotent, Z.lxor_0_r.
  reflexivity.
Qed.

Lemma mod_mod_pow2 a m : 0 <= m <= 32 -> (wrap32 a) mod 2^m = a mod 2^m.
Proof.
  intros Hm. unfold wrap32. apply Z.mod_mod_divide.
  exists (2^(32 - m)). rewrite <- Z.pow_add_r by lia. f_equal. lia.
Qed.

Lemma shiftl_agree x x' k n m : 0 <= k -> 0 <= n -> 0 <= m <= n + k ->
  x mod 2^n = x' mod 2^n ->
  (Z.shiftl x k) mod 2^m = (Z.shiftl x' k) mod 2^m.
Proof.
  intros Hk Hn Hm H. apply Z.bits_inj'. intros i Hi.
  rewrite !Z.testbit_mod_pow2, !Z.shiftl_spec by lia.
  destruct (Z.ltb_spec i m) as [L|L]; [|reflexivity]. cbn [andb].
  rewrite <- (Z.mod_pow2_bits_low x n (i - k)), <- (Z.mod_pow2_bits_low x' n (i - k)) by lia.
  rewrite H. reflexivity.
Qed.

Lemma sharpen_agree c k y x x' n m : 0 <= k -> 0 <= n -> 0 <= m <= n + k -> m <= 32 ->
  x mod 2^n = x' mod 2^n ->
  (sharpen c k y x) mod 2^m = (sharpen c k y x') mod 2^m.
Proof.
  intros Hk Hn Hm Hm' H. unfold sharpen.
  assert (0 < 2^m) by (apply Z.pow_pos_nonneg; lia).
  rewrite !mod_mod_pow2 by lia.
  rewrite <- (Zminus_mod_idemp_l (Z.lxor y (wrap32 (Z.shiftl x k)))),
          <- (Zminus_mod_idemp_l (Z.lxor y (wrap32 (Z.shiftl x' k)))).
  rewrite !lxor_mod, !mod_mod_pow2 by lia.
  rewrite (shiftl_agree x x' k n m) by assumption. reflexivity.
Qed.

Lemma sharpen_word c k y x : word32 (sharpen c k y x).
Proof. apply wrap32_word. Qed.

Lemma word_eq a b : word32 a -> word32 b -> a mod 2^32 = b mod 2^32 -> a = b.
Proof.
  intros Ha Hb H. rewrite <- (wrap32_small a Ha), <- (wrap32_small b Hb). exact H.
Qed.

Lemma sharpen_fixed c k a : word32 a -> sharpen c k (add_xor_shl c k a) a = a.
Proof.
  intros Ha. unfold sharpen, add_xor_shl.
  rewrite Z.lxor_assoc, Z.lxor_nilpotent, Z.lxor_0_r.
  unfold wrap32. rewrite Zminus_mod_idemp_l.
  replace (a + c - c) with a by ring. apply Z.mod_small. exact Ha.
Qed.

Lemma fixed_add_xor_shl c k y x : word32 y -> sharpen c k y x = x ->
  add_xor_shl c k x = y.
Proof.
  intros Hy Hx. unfold add_xor_shl. rewrite <- Hx at 1. unfold sharpen.
  assert (HY : word32 (Z.lxor y (wrap32 (Z.shiftl x k))))
    by (apply lxor_word; [assumption|apply wrap32_word]).
  set (Y := Z.lxor y (wrap32 (Z.shiftl x k))) in *.
  unfold wrap32 at 1 2. rewrite Z.add_mod_idemp_l by discriminate.
  replace (Y - c + c) with Y by ring. rewrite (Z.mod_small Y) by exact HY.
  subst Y. rewrite Z.lxor_assoc, Z.lxor_nilpotent, Z.lxor_0_r. reflexivity.
Qed.

Lemma sharpen_towards c k a x n m :
  0 <= k -> 0 <= n -> 0 <= m <= n + k -> m <= 32 -> word32 a ->
  x mod 2^n = a mod 2^n ->
  (sharpen c k (add_xor_shl c k a) x) mod 2^m = a mod 2^m.
Proof.
  intros Hk Hn Hm Hm' Ha H.
  rewrite (sharpen_agree c k _ x a n m) by assumption.
  rewrite sharpen_fixed by assumption. reflexivity.
Qed.

Lemma un_add_xor_shl_left c a : word32 a ->
  un_add_xor_shl c 9 (add_xor_shl c 9 a) = a.
Proof.
  intros Ha. unfold un_add_xor_shl.
  apply word_eq; [apply sharpen_word|assumption|].
  apply (sharpen_towards c 9 a _ 27); try lia; try assumption.
  apply (sharpen_towards c 9 a _ 18); try lia; try assumption.
  apply (sharpen_towards c 9 a _ 9); try lia; try assumption.
  apply (sharpen_towards c 9 a _ 0); try lia; try assumption.
  rewrite !Z.mod_1_r. reflexivity.
Qed.

Lemma un_add_xor_shl_right c y : word32 y ->
  add_xor_shl c 9 (un_add_xor_shl c 9 y) = y.
Proof.
  intros Hy. apply fixed_add_xor_shl; [assumption|].
  unfold un_add_xor_shl.
  apply word_eq; try apply sharpen_word.
  apply (sharpen_agree c 9 y _ _ 27); try lia.
  apply (sharpen_agree c 9 y _ _ 18); try lia.
  apply (sharpen_agree c 9 y _ _ 9); try lia.
  apply (sharpen_agree c 9 y _ _ 0); try lia.
  rewrite !Z.mod_1_r. reflexivity.
Qed.

Lemma add_shl_word c k a : word32 (add_shl c k a).
Proof. apply wrap32_word. Qed.

Lemma xor_shr_word c k a : 0 <= k -> word32 c -> word32 a -> word32 (xor_shr c k a).
Proof.
  intros Hk Hc Ha. unfold xor_shr.
  apply lxor_word; [apply lxor_word; assumption|apply shiftr_word; assumption].
Qed.

Lemma add_xor_shl_word c k a : word32 (add_xor_shl c k a).
Proof. apply lxor_word; apply wrap32_word. Qed.

Lemma un_add_shl_word c inv y : word32 (un_add_shl c inv y).
Proof. apply wrap32_word. Qed.

Lemma un_xor_shr_word c k y : 0 <= k -> word32 c -> word32 y -> word32 (un_xor_shr c k y).
Proof.
  intros Hk Hc Hy. unfold un_xor_shr.
  apply lxor_word; [|apply shiftr_word; [assumption|]]; apply lxor_word; assumption.
Qed.

Lemma un_add_xor_shl_word c k y : word32 (un_add_xor_shl c k y).
Proof. apply sharpen_word. Qed.

Ltac word_const := unfold word32; split; [discriminate|reflexivity].

Ltac word_side :=
  first [ lia | reflexivity | assumption
        | apply add_shl_word | apply add_xor_shl_word
        | apply un_add_shl_word | apply un_add_xor_shl_word
        | apply xor_shr_word; word_side
        | apply un_xor_shr_word; word_side ].

(** X1. [utilhash] is a permutation of the 32-bit words: it maps a word to a
    word, [unhash] takes every hash back to the word it came from, and every
    word is the hash of its [unhash].  So two different seeds never hash to
    the same value. *)
Theorem utilhash_permutation (a : Z) :
  0 <= a < 2^32 ->
  0 <= utilhash a < 2^32 /\ 0 <= unhash a < 2^32 /\
  unhash (utilhash a) = a /\ utilhash (unhash a) = a.
Proof.
  intros Ha. change (word32 a) in Ha.
  change (word32 (utilhash a) /\ word32 (unhash a) /\
          unhash (utilhash a) = a /\ utilhash (unhash a) = a).
  unfold utilhash, unhash. cbv zeta.
  assert (W1 : word32 0xb55a4f09) by word_const.
  assert (W2 : word32 0xc761c23c) by word_const.
  split; [|split; [|split]].
  - word_side.
  - word_side.
  - rewrite un_xor_shr_left by word_side.
    rewrite (un_add_shl_left _ 3) by word_side.
    rewrite un_add_xor_shl_left by word_side.
    rewrite (un_add_shl_left _ 5) by word_side.
    rewrite un_xor_shr_left by word_side.
    apply (un_add_shl_left _ 12); word_side.
  - rewrite (un_add_shl_right _ 12) by word_side.
    rewrite un_xor_shr_right by word_side.
    rewrite (un_add_shl_right _ 5) by word_side.
    rewrite un_add_xor_shl_right by word_side.
    rewrite (un_add_shl_right _ 3) by word_side.
    apply un_xor_shr_right; word_side.
Qed.

End Hash.

Lemma utilhash_permutation_witness :
  (0 <= 12345 < 2 ^ 32)%Z /\
  ((0 <= utilhash 12345 < 2 ^ 32)%Z /\ (0 <= unhash 12345 < 2 ^ 32)%Z /\
   unhash (utilhash 12345) = 12345%Z /\ utilhash (unhash 12345) = 12345%Z).
Proof.
  split; [split; [discriminate|reflexivity]|].
  apply (utilhash_permutation 12345). split; [discriminate|reflexivity].
Defined.

(** ** The box test, slab by slab *)

Lemma box_axis_sides (q : Ray) (s : Slabs) (xyz : nat) :
  (xyz < 3)%nat -> near_side q s /\ far_side q s ->
  near_side q (box_axis q s xyz) /\ far_side q (box_axis q s xyz).
Proof.
  intros Hx [Hn Hf]. unfold box_axis. cbv zeta.
  destruct (axis_ta q xyz >? F32.zero) eqn:E; cbn [andb].
  - destruct (axis_ta q xyz >? tmin s) eqn:E1; cbn [tmax].
    + destruct (axis_tb q xyz <? tmax s) eqn:E2; split.
      * right. cbn [tmin tmin_n]. split; [exact E|]. exists xyz. auto.
      * right. exists xyz. auto.
      * right. cbn [tmin tmin_n]. split; [exact E|]. exists xyz. auto.
      * exact Hf.
    + destruct (axis_tb q xyz <? tmax s) eqn:E2; split.
      * exact Hn.
      * right. exists xyz. auto.
      * exact Hn.
      * exact Hf.
  - destruct (axis_tb q xyz <? tmax s) eqn:E2; split.
    + exact Hn.
    + right. exists xyz. auto.
    + exact Hn.
    + exact Hf.
Qed.

Lemma box_loop_sides (q : Ray) (axes : list nat) (s : Slabs) :
  Forall (fun xyz => (xyz < 3)%nat) axes -> near_side q s /\ far_side q s ->
  near_side q (fold_left (box_axis q) axes s) /\
  far_side q (fold_left (box_axis q) axes s).
Proof.
  revert s. induction axes as [|a axes IH]; intros s Ha Hs; [exact Hs|].
  inversion Ha; subst. cbn [fold_left]. apply IH; [assumption|].
  apply box_axis_sides; assumption.
Qed.

Lemma box_slabs_sides (q : Ray) :
  near_side q (box_slabs q) /\ far_side q (box_slabs q).
Proof.
  apply box_loop_sides.
  - repeat constructor.
  - split; [left; reflexivity|left; split; reflexivity].
Qed.

Lemma near_fold (q : Ray) (axes : list nat) (m : F32.float) :
  let f := fun m xyz =>
             let ta := axis_ta q xyz in
             if (ta >? F32.zero) && (ta >? m) then ta else m in
  ((m >? F32.zero) = true -> (fold_left f axes m >? F32.zero) = true) /\
  (m = F32.mbig ->
   (fold_left f axes m = F32.mbig /\
    forall xyz, In xyz axes -> (axis_ta q xyz >? F32.zero) = false) \/
   ((fold_left f axes m >? F32.zero) = true /\
    exists xyz, In xyz axes /\ (axis_ta q xyz >? F32.zero) = true)).
Proof.
  intro f. revert m. induction axes as [|a axes IH]; intro m.
  - split; [trivial|]. intros ->. left. split; [reflexivity|]. intros ? [].
  - cbn [fold_left]. destruct (IH (f m a)) as [IH1 IH2]. split.
    + intro Hm. apply IH1. unfold f. cbv zeta.
      destruct (axis_ta q a >? F32.zero) eqn:E; cbn [andb]; [|exact Hm].
      destruct (axis_ta q a >? m); [exact E|exact Hm].
    + intros ->. 
      assert (Hf : f F32.mbig a = if axis_ta q a >? F32.zero then axis_ta q a else F32.mbig).
      { unfold f. cbv zeta. destruct (axis_ta q a >? F32.zero) eqn:E; cbn [andb]; [|reflexivity].
        assert (G : (axis_ta q a >? F32.mbig) = true).
        { unfold F32.gtb in *. apply ltb_trans with F32.zero; [reflexivity|exact E]. }
        rewrite G. reflexivity. }
      rewrite Hf in *. clear Hf.
      destruct (axis_ta q a >? F32.zero) eqn:E.
      * right. split; [apply IH1; exact E|].
        exists a. split; [left; reflexivity|exact E].
      * destruct (IH2 eq_refl) as [[H1 H2]|[H1 (x & Hx & Hp)]].
        -- left. split; [exact H1|]. intros x [<-|Hx]; [exact E|apply H2; exact Hx].
        -- right. split; [exact H1|]. exists x. split; [right; exact Hx|exact Hp].
Qed.

Lemma gtb_not_leb (a b : F32.float) : (a >? b) = true -> (a <=? b) = false.
Proof. float_order. Qed.

Lemma tmin_cases (q : Ray) :
  (tmin (box_slabs q) = F32.mbig /\
   forall xyz, (xyz < 3)%nat -> (axis_ta q xyz >? F32.zero) = false) \/
  ((tmin (box_slabs q) >? F32.zero) = true /\
   exists xyz, (xyz < 3)%nat /\ (axis_ta q xyz >? F32.zero) = true).
Proof.
  unfold box_slabs. rewrite box_loop_tmin.
  destruct (near_fold q [0%nat; 1%nat; 2%nat] (tmin slabs_init)) as [_ Hn].
  destruct (Hn eq_refl) as [[H1 H2]|[H1 (x & Hx & Hp)]].
  - left. split; [exact H1|]. intros x Hx. apply H2.
    destruct x as [|[|[|x]]]; [left|right; left|right; right; left|lia]; reflexivity.
  - right. split; [exact H1|]. exists x. split; [|exact Hp].
    destruct Hx as [<-|[<-|[<-|[]]]]; lia.
Qed.

Lemma box_hit_outside (box : Geom) (r : Ray) (out : Out) :
  box_hit (localRay box r) = true ->
  outside (snd (boxIntersectionTest box r out)) =
  negb (tmin (box_slabs (localRay box r)) <=? F32.zero).
Proof.
  intros Hh. rewrite boxIntersectionTest_cases. cbv zeta. rewrite Hh.
  generalize (box_slabs (localRay box r)) as s. intros s.
  destruct (tmin s <=? F32.zero); reflexivity.
Qed.

Lemma box_hit_eq (q : Ray) :
  box_hit q = (tmax (box_slabs q) >=? tmin (box_slabs q)) && (tmax (box_slabs q) >? F32.zero).
Proof. unfold box_hit. cbv zeta. reflexivity. Qed.

Lemma box_hit_far (q : Ray) :
  box_hit q = true -> (tmax (box_slabs q) >? F32.zero) = true.
Proof.
  rewrite box_hit_eq. generalize (box_slabs q). intros s H.
  apply andb_true_iff in H. exact (proj2 H).
Qed.

Lemma flag_cases (s : Slabs) :
  (tmin s = F32.mbig -> negb (tmin s <=? F32.zero) = false) /\
  ((tmin s >? F32.zero) = true -> negb (tmin s <=? F32.zero) = true).
Proof.
  split; intro H.
  - rewrite H. reflexivity.
  - rewrite (gtb_not_leb _ _ H). reflexivity.
Qed.

(** X2. On every hit of the box test, [outside] tells whether the local ray
    origin lies before the near plane of some slab: it is true exactly when
    the near parameter [ta] of one of the three axes is positive. *)
Theorem box_outside_iff_near_positive (box : Geom) (r : Ray) (out : Out) :
  box_hit (localRay box r) = true ->
  (outside (snd (boxIntersectionTest box r out)) = true <->
   exists xyz, (xyz < 3)%nat /\ (axis_ta (localRay box r) xyz >? F32.zero) = true).
Proof.
  intros Hh. rewrite (box_hit_outside box r out Hh).
  destruct (tmin_cases (localRay box r)) as [[H1 H2]|[H1 H2]].
  - rewrite (proj1 (flag_cases _) H1).
    split; [intro H; discriminate H|]. intros (x & Hx & Hp).
    rewrite (H2 x Hx) in Hp. discriminate Hp.
  - rewrite (proj2 (flag_cases _) H1).
    split; [intros _; exact H2|reflexivity].
Qed.

(** The report of a hit, from what the slab loop maintains. *)
Lemma slab_report (box : Geom) (r : Ray) (q : Ray) (s : Slabs) :
  near_side q s -> far_side q s -> (tmax s >? F32.zero) = true ->
  let res := if tmin s <=? F32.zero
             then box_report box r (tmax s) (tmax_n s) false
             else box_report box r (tmin s) (tmin_n s) true in
  (exists xyz, (xyz < 3)%nat /\ (axis_ta q xyz >? F32.zero) = true /\
               res = box_report box r (axis_ta q xyz) (axis_n q xyz) true) \/
  (exists xyz, (xyz < 3)%nat /\ (axis_tb q xyz >? F32.zero) = true /\
               res = box_report box r (axis_tb q xyz) (axis_n q xyz) false) \/
  res = box_report box r F32.big glm.vec3_default false.
Proof.
  intros Hn Hf Hpos res. subst res.
  destruct (tmin s <=? F32.zero) eqn:E.
  - right. destruct Hf as [[H1 H2]|(x & Hx & H1 & H2)].
    + right. rewrite H1, H2. reflexivity.
    + left. exists x. rewrite H1 in Hpos. rewrite H1, H2. auto.
  - left. destruct Hn as [H|[Hp (x & Hx & H1 & H2)]].
    + rewrite H in E. discriminate E.
    + exists x. rewrite H1 in Hp. rewrite H1, H2. auto.
Qed.

(** X3. Every hit of the box test is reported on a slab plane in front of
    the local ray origin: at the positive near parameter of one axis with
    [outside] true, or at the positive far parameter of one axis with
    [outside] false, the local normal being the unit vector of that axis
    with the sign the loop gave it.  The one exception is a hit for which no
    far parameter was below [1e38f]: it is reported at [1e38f] with the zero
    vector as local normal. *)
Theorem box_hit_on_slab (box : Geom) (r : Ray) (out : Out) :
  box_hit (localRay box r) = true ->
  (exists xyz, (xyz < 3)%nat /\ (axis_ta (localRay box r) xyz >? F32.zero) = true /\
               boxIntersectionTest box r out
               = box_report box r (axis_ta (localRay box r) xyz)
                            (axis_n (localRay box r) xyz) true) \/
  (exists xyz, (xyz < 3)%nat /\ (axis_tb (localRay box r) xyz >? F32.zero) = true /\
               boxIntersectionTest box r out
               = box_report box r (axis_tb (localRay box r) xyz)
                            (axis_n (localRay box r) xyz) false) \/
  boxIntersectionTest box r out = box_report box r F32.big glm.vec3_default false.
Proof.
  intros Hh. rewrite boxIntersectionTest_cases. cbv zeta. rewrite Hh.
  pose proof (box_hit_far _ Hh) as Hpos.
  destruct (box_slabs_sides (localRay box r)) as [Hn Hf].
  exact (slab_report box r (localRay box r) (box_slabs (localRay box r)) Hn Hf Hpos).
Qed.

(** X2 at the unit cube and the ray [ray_front]. *)
Lemma box_outside_iff_near_positive_witness :
  box_hit (localRay unit_geom ray_front) = true /\
  (outside (snd (boxIntersectionTest unit_geom ray_front out_init)) = true <->
   exists xyz, (xyz < 3)%nat /\
               (axis_ta (localRay unit_geom ray_front) xyz >? F32.zero) = true).
Proof.
  split; [vm_compute; reflexivity|].
  apply (box_outside_iff_near_positive unit_geom ray_front out_init).
  vm_compute. reflexivity.
Defined.

(** X3 at the unit cube and the ray [ray_front]. *)
Lemma box_hit_on_slab_witness :
  box_hit (localRay unit_geom ray_front) = true /\
  ((exists xyz, (xyz < 3)%nat /\
      (axis_ta (localRay unit_geom ray_front) xyz >? F32.zero) = true /\
      boxIntersectionTest unit_geom ray_front out_init
      = box_report unit_geom ray_front (axis_ta (localRay unit_geom ray_front) xyz)
                   (axis_n (localRay unit_geom ray_front) xyz) true) \/
   (exists xyz, (xyz < 3)%nat /\
      (axis_tb (localRay unit_geom ray_front) xyz >? F32.zero) = true /\
      boxIntersectionTest unit_geom ray_front out_init
      = box_report unit_geom ray_front (axis_tb (localRay unit_geom ray_front) xyz)
                   (axis_n (localRay unit_geom ray_front) xyz) false) \/
   boxIntersectionTest unit_geom ray_front out_init
   = box_report unit_geom ray_front F32.big glm.vec3_default false).
Proof.
  split; [vm_compute; reflexivity|].
  apply (box_hit_on_slab unit_geom ray_front out_init).
  vm_compute. reflexivity.
Defined.

(** ** Triangles tested more than once *)

Lemma not_ltb_trans (a b c : F32.float) :
  (a <? c) = false -> (b <? c) = true -> (a <? b) = false.
Proof.
  intros Hac Hbc. destruct (a <? b) eqn:E; [|reflexivity].
  rewrite (ltb_trans _ _ _ E Hbc) in Hac. discriminate.
Qed.

Lemma triangleStep_beaten (rt : Ray) (tri : Triangle) (b : Best) :
  beaten rt tri (triangleStep rt tri b).
Proof.
  intros d p Hh. rewrite triangleStep_hit, Hh.
  destruct ((best_t b <? F32.zero) || (d <? best_t b)) eqn:E.
  - cbn [best_t]. split; [eapply tri_hit_not_neg; exact Hh | apply ltb_irrefl].
  - apply orb_false_iff in E. exact E.
Qed.

Lemma triangleStep_keeps_beaten (rt : Ray) (tri x : Triangle) (b : Best) :
  beaten rt tri b -> beaten rt tri (triangleStep rt x b).
Proof.
  intros Hb d p Hh. destruct (Hb d p Hh) as [Hn Hd].
  rewrite triangleStep_hit.
  destruct (tri_hit rt x) as [[dx px]|] eqn:Hx; [|split; assumption].
  rewrite Hn. cbn [orb].
  destruct (dx <? best_t b) eqn:E; [|split; assumption].
  cbn [best_t]. split; [eapply tri_hit_not_neg; exact Hx|].
  eapply not_ltb_trans; eassumption.
Qed.

Lemma triangle_loop_keeps_beaten (rt : Ray) (tri : Triangle) (l : list Triangle) (b : Best) :
  beaten rt tri b -> beaten rt tri (triangle_loop rt l b).
Proof.
  unfold triangle_loop. revert b.
  induction l as [|x l IH]; intros b Hb; [exact Hb|].
  cbn [fold_left]. apply IH. apply triangleStep_keeps_beaten. exact Hb.
Qed.

(** After a triangle loop, no triangle it has tested beats the hit held. *)
Lemma triangle_loop_beaten (rt : Ray) (l : list Triangle) (b : Best) (tri : Triangle) :
  In tri l -> beaten rt tri (triangle_loop rt l b).
Proof.
  intros Hin. apply in_split in Hin. destruct Hin as (l1 & l2 & ->).
  rewrite (triangle_loop_app rt l1 (tri :: l2) b).
  change (triangle_loop rt (tri :: l2) (triangle_loop rt l1 b))
    with (triangle_loop rt l2 (triangleStep rt tri (triangle_loop rt l1 b))).
  apply triangle_loop_keeps_beaten. apply triangleStep_beaten.
Qed.

Lemma triangleStep_of_beaten (rt : Ray) (tri : Triangle) (b : Best) :
  beaten rt tri b -> triangleStep rt tri b = b.
Proof.
  intros Hb. rewrite triangleStep_hit.
  destruct (tri_hit rt tri) as [[d p]|] eqn:Hh; [|reflexivity].
  destruct (Hb d p Hh) as [Hn Hd]. rewrite Hn, Hd. reflexivity.
Qed.

Lemma triangle_loop_of_beaten (rt : Ray) (l : list Triangle) (b : Best) :
  (forall tri, In tri l -> beaten rt tri b) -> triangle_loop rt l b = b.
Proof.
  unfold triangle_loop. induction l as [|x l IH]; intros H; [reflexivity|].
  cbn [fold_left]. rewrite triangleStep_of_beaten by (apply H; left; reflexivity).
  apply IH. intros tri Hin. apply H. right. exact Hin.
Qed.

(** X4. Testing again triangles that a loop has already tested changes
    nothing: a triangle loop over [tris] followed by any triangles of
    [tris], as when a triangle is stored in several leaves of the octree,
    ends with the same [t], point, normal and [outside] as the loop over
    [tris] alone. *)
Theorem retest_changes_nothing (rt : Ray) (tris again : list Triangle) (b : Best) :
  incl again tris ->
  triangle_loop rt (tris ++ again) b = triangle_loop rt tris b.
Proof.
  intros Hincl. rewrite triangle_loop_app.
  apply triangle_loop_of_beaten. intros tri Hin.
  apply triangle_loop_beaten. apply Hincl. exact Hin.
Qed.

(** X4 at the triangle [tri_near_face], tested twice. *)
Lemma retest_changes_nothing_witness :
  triangle_loop ray_near_face ([tri_near_face] ++ [tri_near_face]) (mkBest F32.mone out_init)
  = triangle_loop ray_near_face [tri_near_face] (mkBest F32.mone out_init).
Proof.
  apply (retest_changes_nothing ray_near_face [tri_near_face] [tri_near_face]).
  apply incl_refl.
Defined.

(** ** The output parameters are written, never read *)

Lemma agree_start (out1 out2 : Out) : agree (mkBest F32.mone out1) (mkBest F32.mone out2).
Proof. split; [reflexivity|]. cbn [best_t]. rewrite mone_neg. discriminate. Qed.

Lemma agree_set_outside (b1 b2 : Best) (o1 o2 : bool) :
  agree b1 b2 ->
  agree (mkBest (best_t b1) (set_outside (best_out b1) o1))
        (mkBest (best_t b2) (set_outside (best_out b2) o2)).
Proof. intros H. exact H. Qed.

Lemma triangleStep_agree (rt : Ray) (tri : Triangle) (b1 b2 : Best) :
  agree b1 b2 -> agree (triangleStep rt tri b1) (triangleStep rt tri b2).
Proof.
  intros [Ht Hpn]. rewrite !triangleStep_hit.
  destruct (tri_hit rt tri) as [[d p]|]; [|split; assumption].
  rewrite <- Ht.
  destruct ((best_t b1 <? F32.zero) || (d <? best_t b1)).
  - split; [reflexivity|]. intros _. split; reflexivity.
  - split; assumption.
Qed.

Lemma triangle_loop_agree (rt : Ray) (tris : list Triangle) (b1 b2 : Best) :
  agree b1 b2 -> agree (triangle_loop rt tris b1) (triangle_loop rt tris b2).
Proof.
  unfold triangle_loop. revert b1 b2.
  induction tris as [|tri tris IH]; intros b1 b2 H; [exact H|].
  cbn [fold_left]. apply IH. apply triangleStep_agree. exact H.
Qed.

(** The end of the mesh and octree tests, on two agreeing accumulators. *)
Lemma finish_agree (g : Geom) (r rt : Ray) (b1 b2 : Best) :
  agree b1 b2 ->
  same_result
    (if best_t b1 <? F32.zero then (F32.mone, best_out b1)
     else finishHit g r rt (best_out b1))
    (if best_t b2 <? F32.zero then (F32.mone, best_out b2)
     else finishHit g r rt (best_out b2)).
Proof.
  intros [Ht Hpn]. rewrite <- Ht.
  destruct (best_t b1 <? F32.zero).
  - split; [reflexivity|]. cbn [fst]. rewrite mone_neg. discriminate.
  - destruct (Hpn eq_refl) as [Hp Hn].
    rewrite !finishHit_report, Hp, Hn. split; reflexivity.
Qed.

Lemma box_ignores_outputs (box : Geom) (r : Ray) (out1 out2 : Out) :
  same_result (boxIntersectionTest box r out1) (boxIntersectionTest box r out2).
Proof.
  rewrite !boxIntersectionTest_cases. cbv zeta.
  destruct (box_hit (localRay box r)).
  - split; reflexivity.
  - split; [reflexivity|]. cbn [fst]. rewrite mone_neg. discriminate.
Qed.

Lemma sphere_ignores_outputs (sphere : Geom) (r : Ray) (out1 out2 : Out) :
  same_result (sphereIntersectionTest sphere r out1) (sphereIntersectionTest sphere r out2).
Proof.
  assert (Hm : same_result (F32.mone, out1) (F32.mone, out2)).
  { split; [reflexivity|]. cbn [fst]. rewrite mone_neg. discriminate. }
  rewrite !sphereIntersectionTest_cases. cbv zeta.
  destruct (sphere_radicand (localRay sphere r) <? F32.zero); [exact Hm|].
  destruct ((sphere_t1 (localRay sphere r) <? F32.zero)
            && (sphere_t2 (localRay sphere r) <? F32.zero)); [exact Hm|].
  destruct ((sphere_t1 (localRay sphere r) >? F32.zero)
            && (sphere_t2 (localRay sphere r) >? F32.zero)); split; reflexivity.
Qed.

Lemma mesh_ignores_outputs (mesh : Mesh) (r : Ray) (out1 out2 : Out) :
  same_outcome (meshIntersectionTest mesh r out1) (meshIntersectionTest mesh r out2).
Proof.
  unfold meshIntersectionTest. cbv zeta.
  generalize (localRay (mesh_geom mesh) r). intro rt.
  rewrite !mesh_for_loop.
  destruct (mapM (mesh_triangle mesh) (range3 (numIndices mesh))) as [tris| |];
    cbn [bind same_outcome]; [|reflexivity|exact I].
  pose proof (finish_agree (mesh_geom mesh) r rt _ _
                (triangle_loop_agree rt tris _ _ (agree_start out1 out2))) as H.
  revert H.
  generalize (triangle_loop rt tris (mkBest F32.mone out1)).
  generalize (triangle_loop rt tris (mkBest F32.mone out2)).
  intros b2 b1.
  destruct (best_t b1 <? F32.zero); destruct (best_t b2 <? F32.zero); intro H; exact H.
Qed.

(** A step of the traversal on two agreeing accumulators: the same fault
    or the same pending list, and agreeing accumulators again. *)
Lemma spec_step_agree (octree : OctreeDev) (r rt : Ray) (top : Z) (rest : list Z)
      (b1 b2 : Best) :
  agree b1 b2 ->
  match spec_step octree r rt top rest b1, spec_step octree r rt top rest b2 with
  | Returns (pend1, b1'), Returns (pend2, b2') => pend1 = pend2 /\ agree b1' b2'
  | OutOfBounds arr1, OutOfBounds arr2 => arr1 = arr2
  | NoFuel, NoFuel => True
  | _, _ => False
  end.
Proof.
  intros Ha. unfold spec_step.
  destruct (read (nodes octree) top) as [node| |]; cbn [bind]; [|reflexivity|exact I].
  destruct (read (boundingBoxes octree) top) as [boundingBox| |]; cbn [bind];
    [|reflexivity|exact I].
  generalize (box_outside r boundingBox (outside (best_out b1))). intro o1.
  generalize (box_outside r boundingBox (outside (best_out b2))). intro o2.
  pose proof (agree_set_outside b1 b2 o1 o2 Ha) as Ha'.
  destruct (box_pass r boundingBox).
  - destruct (isLeaf node).
    + destruct (node_triangles octree top) as [tris| |]; cbn [bind]; [|reflexivity|exact I].
      split; [reflexivity|]. apply triangle_loop_agree. exact Ha'.
    + split; [reflexivity|exact Ha'].
  - split; [reflexivity|exact Ha'].
Qed.

Lemma octree_body_agree (octree : OctreeDev) (r rt : Ray) (st1 st2 : Traversal) :
  stack_ok st1 -> stack_ok st2 -> pending st1 = pending st2 ->
  (0 < stackSize st1)%Z -> agree (best st1) (best st2) ->
  match octree_body octree r rt st1, octree_body octree r rt st2 with
  | Returns st1', Returns st2' =>
      stack_ok st1' /\ stack_ok st2' /\ pending st1' = pending st2' /\
      agree (best st1') (best st2')
  | OutOfBounds arr1, OutOfBounds arr2 => arr1 = arr2
  | NoFuel, NoFuel => True
  | _, _ => False
  end.
Proof.
  intros Hok1 Hok2 Hp Hpos Ha.
  destruct (pending_pop st1 Hok1 Hpos) as (top & _ & Hp1).
  set (rest := rev (firstn (Z.to_nat (stackSize st1 - 1)) (stack st1))) in Hp1.
  assert (Hp2 : pending st2 = top :: rest) by (rewrite <- Hp; exact Hp1).
  pose proof (octree_body_spec octree r rt st1 top rest Hok1 Hp1) as H1.
  pose proof (octree_body_spec octree r rt st2 top rest Hok2 Hp2) as H2.
  pose proof (spec_step_agree octree r rt top rest _ _ Ha) as Hs.
  destruct (spec_step octree r rt top rest (best st1)) as [[pend1 b1']|arr1|];
    destruct (spec_step octree r rt top rest (best st2)) as [[pend2 b2']|arr2|];
    try contradiction.
  - destruct Hs as [<- Hb]. destruct H1 as [Hfit1 Hover1]. destruct H2 as [Hfit2 Hover2].
    destruct (Z_le_gt_dec (Z.of_nat (length pend1)) STACK_CAPACITY) as [Hle|Hgt].
    + destruct (Hfit1 Hle) as (st1' & E1 & P1 & B1 & O1).
      destruct (Hfit2 Hle) as (st2' & E2 & P2 & B2 & O2).
      rewrite E1, E2. split; [exact O1|]. split; [exact O2|].
      split; [congruence|]. rewrite B1, B2. exact Hb.
    + rewrite Hover1, Hover2 by lia. reflexivity.
  - subst arr2. rewrite H1, H2. reflexivity.
Qed.

Lemma octree_while_agree (octree : OctreeDev) (r rt : Ray) (fuel : nat) :
  forall st1 st2,
    stack_ok st1 -> stack_ok st2 -> pending st1 = pending st2 ->
    agree (best st1) (best st2) ->
    match octree_while fuel octree r rt st1, octree_while fuel octree r rt st2 with
    | Returns st1', Returns st2' => agree (best st1') (best st2')
    | OutOfBounds arr1, OutOfBounds arr2 => arr1 = arr2
    | NoFuel, NoFuel => True
    | _, _ => False
    end.
Proof.
  induction fuel as [|fuel IH]; intros st1 st2 Hok1 Hok2 Hp Ha.
  - cbn [octree_while].
    assert (Hs : stackSize st1 = stackSize st2).
    { rewrite <- (pending_length st1 Hok1), <- (pending_length st2 Hok2), Hp. reflexivity. }
    rewrite <- Hs. destruct (stackSize st1 >? 0)%Z; [exact I|exact Ha].
  - cbn [octree_while].
    assert (Hs : stackSize st1 = stackSize st2).
    { rewrite <- (pending_length st1 Hok1), <- (pending_length st2 Hok2), Hp. reflexivity. }
    rewrite <- Hs. destruct (stackSize st1 >? 0)%Z eqn:E; [|exact Ha].
    rewrite Z.gtb_ltb, Z.ltb_lt in E.
    pose proof (octree_body_agree octree r rt st1 st2 Hok1 Hok2 Hp E Ha) as Hb.
    destruct (octree_body octree r rt st1) as [st1'|arr1|];
      destruct (octree_body octree r rt st2) as [st2'|arr2|];
      try contradiction; cbn [bind].
    + destruct Hb as (O1 & O2 & P & A). apply IH; assumption.
    + exact Hb.
    + exact I.
Qed.

Lemma octree_ignores_outputs (fuel : nat) (octree : OctreeDev) (r : Ray) (out1 out2 : Out) :
  same_outcome (octreeIntersectionTest fuel octree r out1)
               (octreeIntersectionTest fuel octree r out2).
Proof.
  unfold octreeIntersectionTest. cbv zeta.
  generalize (localRay (octree_geom octree) r). intro rt.
  destruct (octree_start_ok octree out1) as (Hok1 & Hp1 & Hb1).
  destruct (octree_start_ok octree out2) as (Hok2 & Hp2 & Hb2).
  assert (Ha : agree (best (octree_start octree out1)) (best (octree_start octree out2))).
  { rewrite Hb1, Hb2. apply agree_start. }
  pose proof (octree_while_agree octree r rt fuel _ _ Hok1 Hok2
                (eq_trans Hp1 (eq_sym Hp2)) Ha) as Hw.
  destruct (octree_while fuel octree r rt (octree_start octree out1)) as [st1| |];
    destruct (octree_while fuel octree r rt (octree_start octree out2)) as [st2| |];
    try contradiction; cbn [bind same_outcome]; try exact Hw.
  pose proof (finish_agree (octree_geom octree) r rt _ _ Hw) as H.
  revert H. generalize (best st1). generalize (best st2). intros b2 b1.
  destruct (best_t b1 <? F32.zero); destruct (best_t b2 <? F32.zero); intro H; exact H.
Qed.

(** X5. The tests write their output parameters and never read them: run
    on the same primitive and ray with different contents of
    [intersectionPoint], [normal] and [outside], each test faults or returns
    alike, returns the same value, and on a hit leaves the same three
    outputs. *)
Theorem results_ignore_outputs (r : Ray) (out1 out2 : Out) :
  (forall box,
      same_result (boxIntersectionTest box r out1) (boxIntersectionTest box r out2)) /\
  (forall sphere,
      same_result (sphereIntersectionTest sphere r out1)
                  (sphereIntersectionTest sphere r out2)) /\
  (forall mesh,
      same_outcome (meshIntersectionTest mesh r out1) (meshIntersectionTest mesh r out2)) /\
  (forall fuel octree,
      same_outcome (octreeIntersectionTest fuel octree r out1)
                   (octreeIntersectionTest fuel octree r out2)).
Proof.
  split; [intro; apply box_ignores_outputs|].
  split; [intro; apply sphere_ignores_outputs|].
  split; [intro; apply mesh_ignores_outputs|].
  intros; apply octree_ignores_outputs.
Qed.

(** ** A mesh whose index count is not a multiple of 3 *)

Lemma read_returns_or_faults {A : Type} (a : list A) (i : Z) :
  (exists v, read a i = Returns v) \/ read a i = OutOfBounds DeviceArray.
Proof. unfold read. destruct (at_ a i) as [v|]; [left; exists v|right]; reflexivity. Qed.

Lemma read_beyond {A : Type} (a : list A) (i : Z) :
  (Z.of_nat (length a) <= i)%Z -> read a i = OutOfBounds DeviceArray.
Proof.
  intros H. unfold read, at_. destruct (i <? 0)%Z; [reflexivity|].
  replace (nth_error a (Z.to_nat i)) with (@None A); [reflexivity|].
  symmetry. apply nth_error_None. lia.
Qed.

Lemma mesh_vertex_returns_or_faults (mesh : Mesh) (k : Z) :
  (exists v, mesh_vertex mesh k = Returns v) \/ mesh_vertex mesh k = OutOfBounds DeviceArray.
Proof.
  unfold mesh_vertex.
  destruct (read_returns_or_faults (indices mesh) k) as [[idx ->]| ->]; cbn [bind];
    [|right; reflexivity].
  destruct (read_returns_or_faults (vertices mesh) (idx * 3)) as [[a ->]| ->]; cbn [bind];
    [|right; reflexivity].
  destruct (read_returns_or_faults (vertices mesh) (idx * 3 + 1)) as [[b ->]| ->]; cbn [bind];
    [|right; reflexivity].
  destruct (read_returns_or_faults (vertices mesh) (idx * 3 + 2)) as [[c ->]| ->]; cbn [bind];
    [|right; reflexivity].
  left. eexists. reflexivity.
Qed.

Lemma mesh_triangle_returns_or_faults (mesh : Mesh) (i : Z) :
  (exists tri, mesh_triangle mesh i = Returns tri) \/
  mesh_triangle mesh i = OutOfBounds DeviceArray.
Proof.
  unfold mesh_triangle.
  destruct (mesh_vertex_returns_or_faults mesh i) as [[a ->]| ->]; cbn [bind];
    [|right; reflexivity].
  destruct (mesh_vertex_returns_or_faults mesh (i + 1)) as [[b ->]| ->]; cbn [bind];
    [|right; reflexivity].
  destruct (mesh_vertex_returns_or_faults mesh (i + 2)) as [[c ->]| ->]; cbn [bind];
    [|right; reflexivity].
  left. eexists. reflexivity.
Qed.

(** A triangle one of whose three indices lies beyond the index array. *)
Lemma mesh_triangle_beyond (mesh : Mesh) (i : Z) :
  (Z.of_nat (length (indices mesh)) <= i + 2)%Z ->
  mesh_triangle mesh i = OutOfBounds DeviceArray.
Proof.
  intros H. unfold mesh_triangle.
  destruct (mesh_vertex_returns_or_faults mesh i) as [[a ->]| ->]; cbn [bind];
    [|reflexivity].
  destruct (mesh_vertex_returns_or_faults mesh (i + 1)) as [[b ->]| ->]; cbn [bind];
    [|reflexivity].
  unfold mesh_vertex. rewrite (read_beyond (indices mesh) (i + 2) H). reflexivity.
Qed.

Lemma mesh_for_fault (mesh : Mesh) (rt : Ray) (idxs : list Z) (i : Z) :
  In i idxs -> mesh_triangle mesh i = OutOfBounds DeviceArray ->
  forall b, mesh_for mesh rt idxs b = OutOfBounds DeviceArray.
Proof.
  intros Hin Hi. induction idxs as [|j idxs IH]; [destruct Hin|]. intro b.
  cbn [mesh_for].
  destruct (mesh_triangle_returns_or_faults mesh j) as [[tri Hj]|Hj]; rewrite Hj; cbn [bind];
    [|reflexivity].
  destruct Hin as [->|Hin]; [rewrite Hi in Hj; discriminate|].
  apply IH. exact Hin.
Qed.

(** X6. The mesh loop steps by 3 and reads [indices[i]], [indices[i+1]] and
    [indices[i+2]] with only [i < numIndices] checked: when [numIndices] is
    positive and not a multiple of 3, and the index array holds no more than
    [numIndices] entries, the last iteration reads beyond the index array. *)
Theorem mesh_ragged_index_count (mesh : Mesh) (r : Ray) (out : Out) :
  (0 < numIndices mesh)%Z ->
  (numIndices mesh mod 3 <> 0)%Z ->
  (Z.of_nat (length (indices mesh)) <= numIndices mesh)%Z ->
  meshIntersectionTest mesh r out = OutOfBounds DeviceArray.
Proof.
  intros Hpos Hmod Hlen. unfold meshIntersectionTest. cbv zeta.
  rewrite (mesh_for_fault mesh _ _ (numIndices mesh - numIndices mesh mod 3)%Z).
  - reflexivity.
  - apply range3_In. Z.div_mod_to_equations. lia.
  - apply mesh_triangle_beyond. Z.div_mod_to_equations. lia.
Qed.

(** X6 at a mesh of four indices. *)
Lemma mesh_ragged_index_count_witness :
  meshIntersectionTest (mkMesh unit_geom (vertices mesh_one) [0; 1; 2; 0]%Z 4) ray_down out_init
  = OutOfBounds DeviceArray.
Proof.
  apply (mesh_ragged_index_count (mkMesh unit_geom (vertices mesh_one) [0; 1; 2; 0]%Z 4));
    cbn [numIndices indices length]; [reflexivity|discriminate|apply Z.le_refl].
Defined.

(** ** The octree test against the mesh test, without ties *)

(** Two selections among the same triangles, in any order, hold the same
    hit when there are no ties. *)
Lemma selected_unique (rt : Ray) (l1 l2 : list Triangle) (k1 k2 : nat) (b1 b2 : Best) :
  Permutation l1 l2 -> no_ties rt l2 ->
  selected rt l1 k1 b1 -> selected rt l2 k2 b2 -> same_hit b1 b2.
Proof.
  intros Hperm Hties
         (tri1 & d1 & p1 & Hk1 & Hh1 & Ht1 & Hp1 & Hn1 & Hmin1 & _)
         (tri2 & d2 & p2 & Hk2 & Hh2 & Ht2 & Hp2 & Hn2 & Hmin2 & _).
  assert (Hin1 : In tri1 l2).
  { eapply Permutation_in; [exact Hperm|]. eapply nth_error_In; exact Hk1. }
  assert (Hin2 : In tri2 l2) by (eapply nth_error_In; exact Hk2).
  assert (Hin2' : In tri2 l1).
  { eapply Permutation_in; [apply Permutation_sym; exact Hperm|exact Hin2]. }
  destruct (In_nth_error _ _ Hin2') as (j2 & Hj2).
  destruct (In_nth_error _ _ Hin1) as (j1 & Hj1).
  pose proof (Hmin1 j2 tri2 d2 p2 Hj2 Hh2) as H21.
  pose proof (Hmin2 j1 tri1 d1 p1 Hj1 Hh1) as H12.
  pose proof (Hties tri1 tri2 d1 p1 d2 p2 Hin1 Hin2 Hh1 Hh2 H12 H21) as E.
  subst tri2. rewrite Hh1 in Hh2. injection Hh2 as <- <-.
  repeat split; congruence.
Qed.



(** ** The ends of the stack array *)

(** X8. The push loop has no check against the capacity of [stack]: when
    the box of an internal node is hit and its present children do not fit
    on top of the nodes left pending, the iteration writes beyond the 512
    cells of the array. *)
Theorem octree_push_overflows (octree : OctreeDev) (r rt : Ray) (st : Traversal)
      (top : Z) (rest : list Z) (node : OctreeNode) (boundingBox : Geom) :
  stack_ok st -> pending st = top :: rest ->
  read (nodes octree) top = Returns node ->
  read (boundingBoxes octree) top = Returns boundingBox ->
  box_pass r boundingBox = true -> isLeaf node = false ->
  (STACK_CAPACITY < Z.of_nat (length (present (children node)) + length rest))%Z ->
  octree_body octree r rt st = OutOfBounds StackArray.
Proof.
  intros Hok Hp Hn Hb Hpass Hleaf Hover.
  pose proof (octree_body_spec octree r rt st top rest Hok Hp) as Hs.
  rewrite (spec_step_eq octree r rt top rest (best st) node boundingBox Hn Hb) in Hs.
  rewrite Hpass, Hleaf in Hs. destruct Hs as [_ Hs]. apply Hs.
  rewrite length_app, length_rev. exact Hover.
Qed.

(** X8 at [octree_self] with 506 nodes pending: 505 and 8 more than 512. *)
Lemma octree_push_overflows_witness :
  octree_body octree_self ray_front (localRay unit_geom ray_front) stack_nearly_full
  = OutOfBounds StackArray.
Proof.
  apply (octree_push_overflows octree_self ray_front (localRay unit_geom ray_front)
           stack_nearly_full 0 (repeat 0%Z 505)
           (mkOctreeNode (repeat 0%Z 8) false) unit_geom).
  - split; [reflexivity|]. vm_compute. split; discriminate.
  - vm_compute. reflexivity.
  - reflexivity.
  - reflexivity.
  - vm_compute. reflexivity.
  - reflexivity.
  - vm_compute. reflexivity.
Defined.

(** X9. When the box test of the root is not positive, the octree test is
    over after one iteration, whatever the rest of the tree holds: it
    returns -1 without reading [dataStarts] or [triangles], leaves
    [intersectionPoint] and [normal] as they were, and [outside] as the box
    test of the root left it. *)
Theorem octree_root_box_missed (octree : OctreeDev) (r : Ray) (out : Out)
      (node : OctreeNode) (boundingBox : Geom) (fuel : nat) :
  read (nodes octree) (root octree) = Returns node ->
  read (boundingBoxes octree) (root octree) = Returns boundingBox ->
  box_pass r boundingBox = false ->
  octreeIntersectionTest (S fuel) octree r out
  = Returns (F32.mone, set_outside out (box_outside r boundingBox (outside out))).
Proof.
  intros Hn Hb Hpass. unfold octreeIntersectionTest. cbv zeta.
  generalize (localRay (octree_geom octree) r). intro rt.
  destruct (octree_start_ok octree out) as (Hok & Hp & Hbest).
  pose proof (octree_body_spec octree r rt _ (root octree) [] Hok Hp) as Hs.
  rewrite (spec_step_eq octree r rt (root octree) [] _ node boundingBox Hn Hb) in Hs.
  rewrite Hpass, Hbest in Hs. cbn [best_t best_out] in Hs.
  destruct Hs as [Hfit _].
  destruct Hfit as (st' & Hbody & Hp' & Hb' & Hok').
  { cbn [length]. rewrite STACK_CAPACITY_eq. lia. }
  assert (Hsz : stackSize st' = 0%Z).
  { rewrite <- (pending_length st' Hok'), Hp'. reflexivity. }
  cbn [octree_while].
  change (stackSize (octree_start octree out)) with 1%Z.
  change (1 >? 0)%Z with true. cbn iota.
  rewrite Hbody. cbn [bind].
  assert (Hw : octree_while fuel octree r rt st' = Returns st').
  { destruct fuel; cbn [octree_while]; rewrite Hsz; reflexivity. }
  rewrite Hw. cbn [bind]. rewrite Hb'. cbn [best_t best_out].
  rewrite mone_neg. reflexivity.
Qed.

(** X9 at the leaf root of [octree_near_face] and a ray that points away
    from the cube. *)
Lemma octree_root_box_missed_witness :
  octreeIntersectionTest 1 octree_near_face
    (mkRay (eighths 0 0 (-40)) (eighths 0 0 (-8))) out_init
  = Returns (F32.mone,
             set_outside out_init
               (box_outside (mkRay (eighths 0 0 (-40)) (eighths 0 0 (-8))) unit_geom
                            (outside out_init))).
Proof.
  apply (octree_root_box_missed octree_near_face
           (mkRay (eighths 0 0 (-40)) (eighths 0 0 (-8))) out_init
           (mkOctreeNode no_children true) unit_geom 0).
  - reflexivity.
  - reflexivity.
  - vm_compute. reflexivity.
Defined.

(** ** Empty inputs *)

Lemma range3_empty (n : Z) : (n <= 0)%Z -> range3 n = [].
Proof.
  intros H. unfold range3.
  replace (Z.to_nat ((n + 2) / 3)) with 0%nat; [reflexivity|].
  assert ((n + 2) / 3 <= 0)%Z by (Z.div_mod_to_equations; lia). lia.
Qed.

(** X10. A mesh without indices is a miss: with [numIndices <= 0] the loop
    body never runs, no array is read (the arrays may be empty), the test
    returns -1 and the outputs are as they were. *)
Theorem mesh_without_indices (mesh : Mesh) (r : Ray) (out : Out) :
  (numIndices mesh <= 0)%Z ->
  meshIntersectionTest mesh r out = Returns (F32.mone, out).
Proof.
  intros H. unfold meshIntersectionTest. cbv zeta.
  rewrite (range3_empty _ H). cbn [mesh_for bind best_t best_out].
  rewrite mone_neg. reflexivity.
Qed.

(** X10 at a mesh with no vertices and no indices. *)
Lemma mesh_without_indices_witness :
  meshIntersectionTest (mkMesh unit_geom [] [] 0) ray_down out_init
  = Returns (F32.mone, out_init).
Proof.
  apply (mesh_without_indices (mkMesh unit_geom [] [] 0) ray_down out_init).
  apply Z.le_refl.
Defined.

(** X11. The traversal reads the node and the box of the root before any
    test: an octree whose root index is outside its node table or its box
    table, such as an octree with no nodes, cannot be traversed, the first
    iteration reads outside the table. *)
Theorem octree_without_root (fuel : nat) (octree : OctreeDev) (r : Ray) (out : Out) :
  read (nodes octree) (root octree) = OutOfBounds DeviceArray \/
  read (boundingBoxes octree) (root octree) = OutOfBounds DeviceArray ->
  octreeIntersectionTest (S fuel) octree r out = OutOfBounds DeviceArray.
Proof.
  intros H. unfold octreeIntersectionTest. cbv zeta.
  generalize (localRay (octree_geom octree) r). intro rt.
  destruct (octree_start_ok octree out) as (Hok & Hp & Hbest).
  pose proof (octree_body_spec octree r rt _ (root octree) [] Hok Hp) as Hs.
  assert (Hstep : spec_step octree r rt (root octree) [] (best (octree_start octree out))
                  = OutOfBounds DeviceArray).
  { unfold spec_step. destruct H as [H|H].
    - rewrite H. reflexivity.
    - destruct (read_returns_or_faults (nodes octree) (root octree)) as [[node ->]| ->];
        cbn [bind]; [|reflexivity].
      rewrite H. reflexivity. }
  rewrite Hstep in Hs.
  cbn [octree_while].
  change (stackSize (octree_start octree out)) with 1%Z.
  change (1 >? 0)%Z with true. cbn iota.
  rewrite Hs. reflexivity.
Qed.

(** X11 at an octree with no nodes. *)
Lemma octree_without_root_witness :
  octreeIntersectionTest 1 (mkOctreeDev unit_geom 0 [] [] [] []) ray_front out_init
  = OutOfBounds DeviceArray.
Proof.
  apply (octree_without_root 0 (mkOctreeDev unit_geom 0 [] [] [] []) ray_front out_init).
  left. reflexivity.
Defined.

(** ** main.cpp: the mouse *)

Lemma leb_refl (a : F32.float) : F32.is_nan a = false -> (a <=? a) = true.
Proof. float_order. Qed.

Lemma ltb_leb (a b : F32.float) : (a <? b) = true -> (a <=? b) = true.
Proof. float_order. Qed.

Lemma leb_not_nan (a b : F32.float) :
  (a <=? b) = true -> F32.is_nan a = false /\ F32.is_nan b = false.
Proof. float_order. Qed.

Lemma std_fmax_lower (a x : F32.float) :
  F32.is_nan a = false -> (a <=? std_fmax a x) = true.
Proof.
  intros Ha. unfold std_fmax. rewrite Ha.
  destruct (F32.is_nan x); [apply leb_refl; exact Ha|].
  destruct (a <? x) eqn:E; [apply ltb_leb; exact E|apply leb_refl; exact Ha].
Qed.

Lemma std_fmin_upper (x b : F32.float) :
  F32.is_nan b = false ->
  (std_fmin x b <=? b) = true /\ F32.is_nan (std_fmin x b) = false.
Proof.
  intros Hb. unfold std_fmin.
  destruct (F32.is_nan x) eqn:Ex; [split; [apply leb_refl|]; exact Hb|].
  rewrite Hb.
  destruct (b <? x) eqn:E; [split; [apply leb_refl|]; exact Hb|].
  split; [apply not_ltb_leb; assumption|exact Ex].
Qed.

Lemma std_fmax_upper (a y b : F32.float) :
  (a <=? b) = true -> (y <=? b) = true -> (std_fmax a y <=? b) = true.
Proof.
  intros Ha Hy. unfold std_fmax.
  destruct (F32.is_nan a); [exact Hy|].
  destruct (F32.is_nan y); [exact Ha|].
  destruct (a <? y); assumption.
Qed.

Ltac app_simpl :=
  cbn [ui prev mouse lastLoopIterations camchanged zoom theta phi cameraPosition
       ogLookAt cam iteration width height image
       set_prev set_mouse set_lastLoopIterations set_camchanged set_zoom set_theta
       set_phi set_cameraPosition set_cam set_iteration
       view up right position lookAt fst snd orb andb negb].

(** X12. The three button flags follow the last button event alone: after
    an event that the GUI does not capture at most one flag is set, the one
    of the button pressed, and none at all unless the event is a press, so
    that releasing any button ends the drag of every button. *)
Theorem mouse_flags_follow_last_event (button action : Z) (st : App) :
  let m := mouse (mouseButtonCallback false button action st) in
  (leftMousePressed m = true <-> button = GLFW_MOUSE_BUTTON_LEFT /\ action = GLFW_PRESS) /\
  (rightMousePressed m = true <-> button = GLFW_MOUSE_BUTTON_RIGHT /\ action = GLFW_PRESS) /\
  (middleMousePressed m = true <-> button = GLFW_MOUSE_BUTTON_MIDDLE /\ action = GLFW_PRESS) /\
  (leftMousePressed m && rightMousePressed m = false) /\
  (leftMousePressed m && middleMousePressed m = false) /\
  (rightMousePressed m && middleMousePressed m = false) /\
  (action <> GLFW_PRESS ->
   leftMousePressed m = false /\ rightMousePressed m = false /\ middleMousePressed m = false).
Proof.
  intro m. subst m. unfold mouseButtonCallback. app_simpl.
  cbn [leftMousePressed rightMousePressed middleMousePressed].
  unfold GLFW_MOUSE_BUTTON_LEFT, GLFW_MOUSE_BUTTON_RIGHT, GLFW_MOUSE_BUTTON_MIDDLE, GLFW_PRESS.
  destruct (Z.eqb_spec button 0); destruct (Z.eqb_spec button 1);
    destruct (Z.eqb_spec button 2); destruct (Z.eqb_spec action 1);
    cbn [andb]; repeat split; intros; try discriminate; try reflexivity; try lia;
    try (exfalso; lia).
  all: try (destruct H; lia).
Qed.

(** The angle and the distance after a motion, by the button held. *)
Lemma mousePositionCallback_ignored (PI : F32.float) (xpos ypos : F64.double) (st : App) :
  accepted xpos ypos st = false -> mousePositionCallback PI xpos ypos st = st.
Proof.
  unfold accepted, mousePositionCallback. intros H.
  apply negb_false_iff in H. rewrite H. reflexivity.
Qed.

Lemma mousePositionCallback_left (PI : F32.float) (xpos ypos : F64.double) (st : App) :
  accepted xpos ypos st = true -> leftMousePressed (mouse st) = true ->
  exists t, theta (mousePositionCallback PI xpos ypos st) = std_fmax f0_001 (std_fmin t PI) /\
            zoom (mousePositionCallback PI xpos ypos st) = zoom st /\
            camchanged (mousePositionCallback PI xpos ypos st) = true.
Proof.
  unfold accepted, mousePositionCallback. intros H Hl.
  apply negb_true_iff in H. rewrite H, Hl. cbv zeta.
  eexists. split; [reflexivity|]. split; reflexivity.
Qed.

Lemma mousePositionCallback_right (PI : F32.float) (xpos ypos : F64.double) (st : App) :
  accepted xpos ypos st = true -> leftMousePressed (mouse st) = false ->
  rightMousePressed (mouse st) = true ->
  exists z, zoom (mousePositionCallback PI xpos ypos st) = std_fmax f0_1 z /\
            theta (mousePositionCallback PI xpos ypos st) = theta st /\
            camchanged (mousePositionCallback PI xpos ypos st) = true.
Proof.
  unfold accepted, mousePositionCallback. intros H Hl Hr.
  apply negb_true_iff in H. rewrite H, Hl, Hr. cbv zeta.
  eexists. split; [reflexivity|]. split; reflexivity.
Qed.

Lemma mousePositionCallback_other (PI : F32.float) (xpos ypos : F64.double) (st : App) :
  leftMousePressed (mouse st) = false -> rightMousePressed (mouse st) = false ->
  zoom (mousePositionCallback PI xpos ypos st) = zoom st /\
  theta (mousePositionCallback PI xpos ypos st) = theta st.
Proof.
  unfold mousePositionCallback. intros Hl Hr.
  destruct (F64.eqb xpos (lastX (mouse st)) || F64.eqb ypos (lastY (mouse st)));
    [split; reflexivity|].
  rewrite Hl, Hr. cbv zeta.
  destruct (middleMousePressed (mouse st)); split; reflexivity.
Qed.

Lemma clamp_theta (PI t : F32.float) :
  (f0_001 <=? PI) = true ->
  (f0_001 <=? std_fmax f0_001 (std_fmin t PI)) = true /\
  (std_fmax f0_001 (std_fmin t PI) <=? PI) = true.
Proof.
  intros H. destruct (leb_not_nan _ _ H) as [_ Hp].
  split; [apply std_fmax_lower; reflexivity|].
  apply std_fmax_upper; [exact H|]. apply std_fmin_upper. exact Hp.
Qed.

Lemma keyCallback_orbit (key action : Z) (st : App) :
  theta (fst (keyCallback key action st)) = theta st /\
  zoom (fst (keyCallback key action st)) = zoom st.
Proof.
  unfold keyCallback.
  destruct (action =? GLFW_PRESS)%Z; [|split; reflexivity].
  destruct (key =? GLFW_KEY_ESCAPE)%Z; [split; reflexivity|].
  destruct (key =? GLFW_KEY_S)%Z; [split; reflexivity|].
  destruct (key =? GLFW_KEY_SPACE)%Z; split; reflexivity.
Qed.

(** ** main.cpp: the frames *)

(** What the camera block leaves in the globals. *)
Lemma orbit_globals (sin cos : F32.float -> F32.float) (st : App) :
  iteration (orbit sin cos st) = 0%Z /\
  lastLoopIterations (orbit sin cos st) = lastLoopIterations st /\
  camchanged (orbit sin cos st) = false /\
  ui (orbit sin cos st) = ui st /\
  prev (orbit sin cos st) = prev st /\
  mouse (orbit sin cos st) = mouse st /\
  zoom (orbit sin cos st) = zoom st /\ theta (orbit sin cos st) = theta st /\
  phi (orbit sin cos st) = phi st /\
  ogLookAt (orbit sin cos st) = ogLookAt st /\
  lookAt (cam (orbit sin cos st)) = lookAt (cam st) /\
  width (orbit sin cos st) = width st /\ height (orbit sin cos st) = height st /\
  image (orbit sin cos st) = image st.
Proof. unfold orbit. cbv zeta. app_simpl. repeat split; reflexivity. Qed.

Lemma runCuda_head_globals (sin cos : F32.float -> F32.float) (st : App) :
  let st' := runCuda_head sin cos st in
  iteration st' = (if restarts st then 0%Z else iteration st) /\
  lastLoopIterations st' = ui_iterations (ui st) /\
  camchanged st' = false /\
  ui st' = ui st /\
  prev st' = (if uiStateChanged st then snapshot (ui st) else prev st) /\
  mouse st' = mouse st /\ zoom st' = zoom st /\ theta st' = theta st /\ phi st' = phi st /\
  ogLookAt st' = ogLookAt st /\ lookAt (cam st') = lookAt (cam st) /\
  width st' = width st /\ height st' = height st /\ image st' = image st.
Proof.
  unfold runCuda_head, restarts. cbv zeta.
  destruct (negb (lastLoopIterations st =? ui_iterations (ui st))%Z) eqn:E1.
  - change (uiStateChanged (set_camchanged (set_lastLoopIterations st (ui_iterations (ui st))) true))
      with (uiStateChanged st).
    destruct (uiStateChanged st) eqn:E2; app_simpl.
    + destruct (orbit_globals sin cos
                  (set_iteration (set_prev (set_camchanged
                     (set_lastLoopIterations st (ui_iterations (ui st))) true)
                     (snapshot (ui st))) 0))
        as (H1 & H2 & H3 & H4 & H5 & H6 & H7 & H8 & H9 & H10 & H11 & H12 & H13 & H14).
      repeat split; assumption.
    + destruct (orbit_globals sin cos
                  (set_camchanged (set_lastLoopIterations st (ui_iterations (ui st))) true))
        as (H1 & H2 & H3 & H4 & H5 & H6 & H7 & H8 & H9 & H10 & H11 & H12 & H13 & H14).
      repeat split; assumption.
  - apply negb_false_iff, Z.eqb_eq in E1.
    destruct (uiStateChanged st) eqn:E2; app_simpl.
    + destruct (camchanged st) eqn:E3.
      * destruct (orbit_globals sin cos (set_iteration (set_prev st (snapshot (ui st))) 0))
          as (H1 & H2 & H3 & H4 & H5 & H6 & H7 & H8 & H9 & H10 & H11 & H12 & H13 & H14).
        repeat split; assumption.
      * app_simpl. repeat split; try reflexivity; assumption.
    + destruct (camchanged st) eqn:E3.
      * destruct (orbit_globals sin cos st)
          as (H1 & H2 & H3 & H4 & H5 & H6 & H7 & H8 & H9 & H10 & H11 & H12 & H13 & H14).
        repeat split; assumption.
      * repeat split; try reflexivity; assumption.
Qed.

Lemma runCuda_state (sin cos : F32.float -> F32.float) (st : App) :
  fst (runCuda sin cos st) =
  let st1 := runCuda_head sin cos st in
  if (iteration st1 <? ui_iterations (ui st1))%Z
  then set_iteration st1 (iteration st1 + 1)%Z else st1.
Proof.
  unfold runCuda. fold (snapshot (ui (if negb (lastLoopIterations st =? ui_iterations (ui st))%Z
    then set_camchanged (set_lastLoopIterations st (ui_iterations (ui st))) true
    else st))).
  fold (runCuda_head sin cos st). cbv zeta.
  destruct (iteration (runCuda_head sin cos st) <? ui_iterations (ui (runCuda_head sin cos st)))%Z;
    reflexivity.
Qed.

(** What a call of [runCuda] leaves in the globals. *)
Lemma runCuda_globals (sin cos : F32.float -> F32.float) (st : App) :
  let st' := fst (runCuda sin cos st) in
  let i1 := if restarts st then 0%Z else iteration st in
  iteration st' = (if (i1 <? ui_iterations (ui st))%Z then i1 + 1 else i1)%Z /\
  lastLoopIterations st' = ui_iterations (ui st) /\
  camchanged st' = false /\
  ui st' = ui st /\
  prev st' = (if uiStateChanged st then snapshot (ui st) else prev st) /\
  mouse st' = mouse st /\ zoom st' = zoom st /\ theta st' = theta st /\ phi st' = phi st /\
  ogLookAt st' = ogLookAt st /\ lookAt (cam st') = lookAt (cam st) /\
  width st' = width st /\ height st' = height st /\ image st' = image st.
Proof.
  cbv zeta. rewrite runCuda_state. cbv zeta.
  destruct (runCuda_head_globals sin cos st)
    as (H1 & H2 & H3 & H4 & H5 & H6 & H7 & H8 & H9 & H10 & H11 & H12 & H13 & H14).
  revert H1 H2 H3 H4 H5 H6 H7 H8 H9 H10 H11 H12 H13 H14.
  generalize (runCuda_head sin cos st). intros st1.
  intros H1 H2 H3 H4 H5 H6 H7 H8 H9 H10 H11 H12 H13 H14.
  rewrite H1, H4.
  destruct ((if restarts st then 0 else iteration st) <? ui_iterations (ui st))%Z;
    app_simpl; repeat split; assumption.
Qed.

Lemma runCuda_calls (sin cos : F32.float -> F32.float) (st : App) :
  ui_saveAndExit (ui st) = false ->
  snd (runCuda sin cos st) =
  frame_calls (iteration (runCuda_head sin cos st) =? 0)%Z
              (iteration (runCuda_head sin cos st) <? ui_iterations (ui st))%Z
              (iteration (fst (runCuda sin cos st)))
              (fst (runCuda sin cos st)).
Proof.
  intros Hs. rewrite runCuda_state. cbv zeta.
  unfold runCuda. fold (snapshot (ui (if negb (lastLoopIterations st =? ui_iterations (ui st))%Z
    then set_camchanged (set_lastLoopIterations st (ui_iterations (ui st))) true
    else st))).
  fold (runCuda_head sin cos st). cbv zeta.
  destruct (runCuda_head_globals sin cos st) as (_ & _ & _ & Hu & _).
  revert Hu. generalize (runCuda_head sin cos st). intros st1 Hu.
  rewrite Hu. unfold frame_calls.
  destruct (iteration st1 <? ui_iterations (ui st))%Z; app_simpl; rewrite Hu, Hs, ?app_nil_r;
    reflexivity.
Qed.

Lemma eqb_refl_not_nan (a : F32.float) : F32.is_nan a = false -> F32.eqb a a = true.
Proof. float_order. Qed.

(** Once the snapshot is taken, nothing differs from it, unless a weight
    is a NaN. *)
Lemma uiStateChanged_snapshot (st st' : App) :
  F32.is_nan (ui_colorWeight (ui st)) = false ->
  F32.is_nan (ui_normalWeight (ui st)) = false ->
  F32.is_nan (ui_positionWeight (ui st)) = false ->
  ui st' = ui st -> prev st' = snapshot (ui st) ->
  uiStateChanged st' = false.
Proof.
  intros H1 H2 H3 Hu Hp. unfold uiStateChanged, fneq. rewrite Hu, Hp. unfold snapshot.
  cbn [ui_denoise_prev ui_filterSize_prev ui_colorWeight_prev ui_normalWeight_prev
       ui_positionWeight_prev].
  rewrite Bool.eqb_reflx, Z.eqb_refl, !eqb_refl_not_nan by assumption. reflexivity.
Qed.

Lemma uiStateChanged_same (st st' : App) :
  ui st' = ui st -> prev st' = prev st -> uiStateChanged st' = uiStateChanged st.
Proof. intros Hu Hp. unfold uiStateChanged. rewrite Hu, Hp. reflexivity. Qed.

(** After any frame the next frame does not start again, unless a weight
    is a NaN. *)
Lemma runCuda_settles (sin cos : F32.float -> F32.float) (st : App) :
  F32.is_nan (ui_colorWeight (ui st)) = false ->
  F32.is_nan (ui_normalWeight (ui st)) = false ->
  F32.is_nan (ui_positionWeight (ui st)) = false ->
  restarts (fst (runCuda sin cos st)) = false.
Proof.
  intros H1 H2 H3.
  destruct (runCuda_globals sin cos st) as (_ & Hl & Hc & Hu & Hp & _).
  cbv zeta in Hl, Hc, Hu, Hp. revert Hl Hc Hu Hp.
  generalize (fst (runCuda sin cos st)). intros st' Hl Hc Hu Hp.
  unfold restarts. rewrite Hl, Hc, Hu, Z.eqb_refl. cbn [negb orb].
  rewrite orb_false_r.
  destruct (uiStateChanged st) eqn:E.
  - apply (uiStateChanged_snapshot st st'); assumption.
  - rewrite <- E. apply uiStateChanged_same; assumption.
Qed.

(** Frames without input, from a state that does not start again. *)
Lemma frames_settled (sin cos : F32.float -> F32.float) (k : nat) :
  forall st,
    restarts st = false ->
    F32.is_nan (ui_colorWeight (ui st)) = false ->
    F32.is_nan (ui_normalWeight (ui st)) = false ->
    F32.is_nan (ui_positionWeight (ui st)) = false ->
    ui (frames sin cos k st) = ui st /\
    restarts (frames sin cos k st) = false /\
    iteration (frames sin cos k st)
    = (if (iteration st <? ui_iterations (ui st))%Z
       then Z.min (iteration st + Z.of_nat k) (ui_iterations (ui st))
       else iteration st).
Proof.
  induction k as [|k IH]; intros st Hr H1 H2 H3.
  - cbn [frames]. split; [reflexivity|]. split; [exact Hr|].
    destruct (Z.ltb_spec (iteration st) (ui_iterations (ui st))); lia.
  - cbn [frames].
    destruct (runCuda_globals sin cos st) as (Hi & _ & _ & Hu & _).
    cbv zeta in Hi, Hu. rewrite Hr in Hi.
    pose proof (runCuda_settles sin cos st H1 H2 H3) as Hr'.
    revert Hi Hu Hr'. generalize (fst (runCuda sin cos st)). intros st1 Hi Hu Hr'.
    destruct (IH st1 Hr') as (Ku & Kr & Ki); try (rewrite Hu; assumption).
    split; [congruence|]. split; [exact Kr|].
    rewrite Ki, Hu, Hi.
    destruct (Z.ltb_spec (iteration st) (ui_iterations (ui st))) as [L|L].
    + destruct (Z.ltb_spec (iteration st + 1) (ui_iterations (ui st))); lia.
    + destruct (Z.ltb_spec (iteration st) (ui_iterations (ui st))); lia.
Qed.

Lemma frames_last (sin cos : F32.float -> F32.float) (k : nat) :
  forall st, frames sin cos (S k) st = fst (runCuda sin cos (frames sin cos k st)).
Proof.
  induction k as [|k IH]; intro st; [reflexivity|].
  change (frames sin cos (S (S k)) st) with (frames sin cos (S k) (fst (runCuda sin cos st))).
  rewrite IH. reflexivity.
Qed.

(** The state before frame [k + 1], when frame 1 starts from sample 0. *)
Lemma frames_before (sin cos : F32.float -> F32.float) (k : nat) (st : App) :
  restarts st = true \/ iteration st = 0%Z ->
  F32.is_nan (ui_colorWeight (ui st)) = false ->
  F32.is_nan (ui_normalWeight (ui st)) = false ->
  F32.is_nan (ui_positionWeight (ui st)) = false ->
  ui (frames sin cos k st) = ui st /\
  (if restarts (frames sin cos k st) then 0%Z else iteration (frames sin cos k st))
  = Z.min (Z.of_nat k) (Z.max 0 (ui_iterations (ui st))).
Proof.
  intros H0 H1 H2 H3. destruct k as [|k].
  - cbn [frames]. split; [reflexivity|].
    destruct (restarts st); [lia|]. destruct H0 as [H0|H0]; [discriminate|]. lia.
  - cbn [frames].
    destruct (runCuda_globals sin cos st) as (Hi & _ & _ & Hu & _).
    cbv zeta in Hi, Hu.
    assert (Hi' : iteration (fst (runCuda sin cos st))
                  = (if (0 <? ui_iterations (ui st))%Z then 1 else 0)%Z).
    { rewrite Hi. destruct (restarts st); [reflexivity|].
      destruct H0 as [H0|H0]; [discriminate|]. rewrite H0. reflexivity. }
    clear Hi.
    pose proof (runCuda_settles sin cos st H1 H2 H3) as Hr'.
    revert Hi' Hu Hr'. generalize (fst (runCuda sin cos st)). intros st1 Hi Hu Hr'.
    destruct (frames_settled sin cos k st1 Hr') as (Ku & Kr & Ki);
      try (rewrite Hu; assumption).
    split; [congruence|]. rewrite Kr, Ki, Hu, Hi.
    destruct (Z.ltb_spec 0 (ui_iterations (ui st))) as [L|L].
    + destruct (Z.ltb_spec 1 (ui_iterations (ui st))); lia.
    + destruct (Z.ltb_spec 0 (ui_iterations (ui st))); lia.
Qed.

(** X13. Frames without input.  From a state in which the next frame
    starts from sample 0, and while no weight is a NaN, the sample count
    after frame [k + 1] is [k + 1] capped at the budget [ui_iterations]:
    one sample per frame, then none.  Frame [k + 1] sets the path tracer up
    again only when it is the first one, or when the budget is not
    positive, in which case every frame does; it takes a sample exactly
    when [k] is below the budget. *)
Theorem frames_without_input (sin cos : F32.float -> F32.float) (st : App) (k : nat) :
  restarts st = true \/ iteration st = 0%Z ->
  F32.is_nan (ui_colorWeight (ui st)) = false ->
  F32.is_nan (ui_normalWeight (ui st)) = false ->
  F32.is_nan (ui_positionWeight (ui st)) = false ->
  ui_saveAndExit (ui st) = false ->
  let budget := ui_iterations (ui st) in
  iteration (frames sin cos (S k) st) = Z.min (Z.of_nat (S k)) (Z.max 0 budget) /\
  snd (runCuda sin cos (frames sin cos k st))
  = frame_calls ((k =? 0)%nat || (budget <=? 0)%Z) (Z.of_nat k <? budget)%Z
                (Z.min (Z.of_nat (S k)) (Z.max 0 budget))
                (frames sin cos (S k) st).
Proof.
  intros H0 H1 H2 H3 Hs budget. subst budget.
  destruct (frames_before sin cos k st H0 H1 H2 H3) as [Hu Hi].
  rewrite frames_last.
  revert Hu Hi. generalize (frames sin cos k st). intros stk Hu Hi.
  destruct (runCuda_globals sin cos stk) as (Gi & _).
  destruct (runCuda_head_globals sin cos stk) as (Gh & _).
  cbv zeta in Gi, Gh. rewrite Hi, Hu in Gi. rewrite Hi in Gh.
  assert (Ei : iteration (fst (runCuda sin cos stk))
               = Z.min (Z.of_nat (S k)) (Z.max 0 (ui_iterations (ui st)))).
  { rewrite Gi.
    destruct (Z.ltb_spec (Z.min (Z.of_nat k) (Z.max 0 (ui_iterations (ui st))))
                         (ui_iterations (ui st))); lia. }
  split; [exact Ei|].
  rewrite runCuda_calls by (rewrite Hu; exact Hs).
  rewrite Gh, Hu, Ei. f_equal.
  - destruct k as [|k].
    + cbn [Nat.eqb orb].
      destruct (Z.eqb_spec (Z.min (Z.of_nat 0) (Z.max 0 (ui_iterations (ui st)))) 0);
        [reflexivity|lia].
    + cbn [Nat.eqb orb].
      destruct (Z.leb_spec (ui_iterations (ui st)) 0);
        destruct (Z.eqb_spec (Z.min (Z.of_nat (S k)) (Z.max 0 (ui_iterations (ui st)))) 0);
        try reflexivity; lia.
  - destruct (Z.ltb_spec (Z.min (Z.of_nat k) (Z.max 0 (ui_iterations (ui st))))
                         (ui_iterations (ui st)));
      destruct (Z.ltb_spec (Z.of_nat k) (ui_iterations (ui st))); try reflexivity; lia.
Qed.

(** X13 at [app_example], for the fourth frame; the statement does not
    depend on what [sin] and [cos] are. *)
Lemma frames_without_input_witness :
  iteration (frames (fun a => a) (fun a => a) 4 app_example) = 3%Z.
Proof.
  apply (frames_without_input (fun a => a) (fun a => a) app_example 3);
    try reflexivity. left. reflexivity.
Defined.

(** ** main.cpp: the camera on its orbit *)

(** X14. The drags keep the camera on its orbit in range, whatever the
    motion of the mouse and whatever the angle and distance were, a NaN
    included: after a drag with the left button [theta] is within
    [[0.001f, PI]], after a drag with the right button [zoom] is at least
    [0.1f]; and once both are in range, no motion of the mouse, button or
    key event, or frame takes them out of it. *)
Theorem orbit_stays_in_range (sin cos : F32.float -> F32.float) (PI : F32.float) (st : App) :
  (f0_001 <=? PI) = true ->
  (forall xpos ypos,
      accepted xpos ypos st = true -> leftMousePressed (mouse st) = true ->
      (f0_001 <=? theta (mousePositionCallback PI xpos ypos st)) = true /\
      (theta (mousePositionCallback PI xpos ypos st) <=? PI) = true) /\
  (forall xpos ypos,
      accepted xpos ypos st = true -> leftMousePressed (mouse st) = false ->
      rightMousePressed (mouse st) = true ->
      (f0_1 <=? zoom (mousePositionCallback PI xpos ypos st)) = true) /\
  (orbit_in_range PI st ->
   (forall xpos ypos, orbit_in_range PI (mousePositionCallback PI xpos ypos st)) /\
   (forall wantCaptureMouse button action,
       orbit_in_range PI (mouseButtonCallback wantCaptureMouse button action st)) /\
   (forall key action, orbit_in_range PI (fst (keyCallback key action st))) /\
   orbit_in_range PI (fst (runCuda sin cos st))).
Proof.
  intros HPI.
  assert (Hleft : forall xpos ypos,
             accepted xpos ypos st = true -> leftMousePressed (mouse st) = true ->
             (f0_001 <=? theta (mousePositionCallback PI xpos ypos st)) = true /\
             (theta (mousePositionCallback PI xpos ypos st) <=? PI) = true).
  { intros xpos ypos Ha Hl.
    destruct (mousePositionCallback_left PI xpos ypos st Ha Hl) as (t & -> & _).
    apply clamp_theta. exact HPI. }
  assert (Hright : forall xpos ypos,
             accepted xpos ypos st = true -> leftMousePressed (mouse st) = false ->
             rightMousePressed (mouse st) = true ->
             (f0_1 <=? zoom (mousePositionCallback PI xpos ypos st)) = true).
  { intros xpos ypos Ha Hl Hr.
    destruct (mousePositionCallback_right PI xpos ypos st Ha Hl Hr) as (z & -> & _).
    apply std_fmax_lower. reflexivity. }
  split; [exact Hleft|]. split; [exact Hright|].
  intros (Ht1 & Ht2 & Hz). split; [|split; [|split]].
  - intros xpos ypos. unfold orbit_in_range.
    destruct (accepted xpos ypos st) eqn:Ha.
    + destruct (leftMousePressed (mouse st)) eqn:Hl.
      * destruct (Hleft xpos ypos Ha eq_refl) as [K1 K2].
        destruct (mousePositionCallback_left PI xpos ypos st Ha Hl) as (t & _ & -> & _).
        repeat split; assumption.
      * destruct (rightMousePressed (mouse st)) eqn:Hr.
        -- pose proof (Hright xpos ypos Ha eq_refl eq_refl) as K.
           destruct (mousePositionCallback_right PI xpos ypos st Ha Hl Hr) as (z & _ & -> & _).
           repeat split; assumption.
        -- destruct (mousePositionCallback_other PI xpos ypos st Hl Hr) as [-> ->].
           repeat split; assumption.
    + rewrite (mousePositionCallback_ignored PI xpos ypos st Ha). repeat split; assumption.
  - intros w button action. unfold mouseButtonCallback.
    destruct w; repeat split; assumption.
  - intros key action. unfold orbit_in_range.
    destruct (keyCallback_orbit key action st) as [-> ->]. repeat split; assumption.
  - unfold orbit_in_range.
    destruct (runCuda_globals sin cos st) as (_ & _ & _ & _ & _ & _ & -> & -> & _).
    repeat split; assumption.
Qed.

(** X14 at [app_dragging], with the value of [PI] in [float]. *)
Lemma orbit_stays_in_range_witness :
  (f0_001 <=? f_pi) = true /\
  (forall xpos ypos,
      accepted xpos ypos app_dragging = true ->
      leftMousePressed (mouse app_dragging) = true ->
      (f0_001 <=? theta (mousePositionCallback f_pi xpos ypos app_dragging)) = true /\
      (theta (mousePositionCallback f_pi xpos ypos app_dragging) <=? f_pi) = true).
Proof.
  split; [reflexivity|].
  apply (orbit_stays_in_range (fun a => a) (fun a => a) f_pi app_dragging). reflexivity.
Defined.

(** ** main.cpp: saveImage *)

Lemma saveImage_column_ok (st : App) (samples : F32.float) (x : Z) (ys : list Z) :
  (forall y, In y ys -> at_ (image st) (x + y * width st)%Z <> None) ->
  saveImage_column st samples x ys = Some (map (fun y => mirrored st samples (x, y)) ys).
Proof.
  induction ys as [|y ys IH]; intros H; [reflexivity|].
  cbn [saveImage_column map]. cbv zeta.
  unfold mirrored at 1, pixel_at. cbn [fst snd].
  specialize (H y (or_introl eq_refl)) as Hy.
  destruct (at_ (image st) (x + y * width st)%Z) as [pix|]; [|contradiction].
  rewrite IH by (intros y' Hy'; apply H; right; exact Hy'). reflexivity.
Qed.

Lemma saveImage_columns_ok (st : App) (samples : F32.float) (xs : list Z) :
  (forall x y, In x xs -> In y (range 0 (height st)) ->
               at_ (image st) (x + y * width st)%Z <> None) ->
  saveImage_columns st samples xs
  = Some (map (mirrored st samples) (list_prod xs (range 0 (height st)))).
Proof.
  induction xs as [|x xs IH]; intros H; [reflexivity|].
  cbn [saveImage_columns list_prod].
  rewrite saveImage_column_ok by (intros y Hy; apply H; [left; reflexivity|exact Hy]).
  rewrite IH by (intros x' y Hx' Hy; apply H; [right; exact Hx'|exact Hy]).
  rewrite map_app, map_map. reflexivity.
Qed.

Lemma at_within {A : Type} (l : list A) (i : Z) :
  (0 <= i < Z.of_nat (length l))%Z -> at_ l i <> None.
Proof.
  intros H. destruct (at_in_bounds l i H) as (v & -> & _). discriminate.
Qed.

Lemma at_beyond {A : Type} (l : list A) (i : Z) :
  (Z.of_nat (length l) <= i)%Z -> at_ l i = None.
Proof.
  intros H. unfold at_. destruct (i <? 0)%Z; [reflexivity|].
  apply nth_error_None. lia.
Qed.

Lemma NoDup_range (lo hi : Z) : NoDup (range lo hi).
Proof.
  unfold range. apply Finite.Injective_map_NoDup_in; [|apply seq_NoDup].
  intros a b _ _ H. lia.
Qed.

Lemma NoDup_list_prod {A B : Type} (l : list A) (l' : list B) :
  NoDup l -> NoDup l' -> NoDup (list_prod l l').
Proof.
  intros Hl Hl'. induction Hl as [|a l Ha Hl IH]; [constructor|].
  cbn [list_prod]. apply NoDup_app.
  - apply Finite.Injective_map_NoDup_in; [|exact Hl'].
    intros x y _ _ H. injection H as ->. reflexivity.
  - exact IH.
  - intros [a' b] Hin Hin'. apply in_map_iff in Hin. destruct Hin as (b' & E & _).
    injection E as <- <-. apply in_prod_iff in Hin'. apply Ha. apply Hin'.
Qed.

(** X15. When [renderState->image] holds [width * height] elements,
    [saveImage] reads within it and sets every pixel of the picture exactly
    once: the pixel [(px, y)] gets the element at index
    [(width - 1 - px) + y * width], the picture mirrored left to right,
    divided by the sample count [iteration]. *)
Theorem saveImage_mirrors (st : App) :
  (width st * height st <= Z.of_nat (length (image st)))%Z ->
  exists ps,
    saveImage st = Some ps /\
    NoDup (map fst ps) /\
    forall px y v,
      In (px, y, v) ps <->
      (0 <= px < width st)%Z /\ (0 <= y < height st)%Z /\
      exists pix, at_ (image st) ((width st - 1 - px) + y * width st)%Z = Some pix /\
                  v = vdiv pix (F32.lit (iteration st) 0).
Proof.
  intros Hlen.
  assert (Hin : forall x y, In x (range 0 (width st)) -> In y (range 0 (height st)) ->
                            at_ (image st) (x + y * width st)%Z <> None).
  { intros x y Hx Hy. apply range_In in Hx. apply range_In in Hy.
    apply at_within. nia. }
  exists (map (mirrored st (F32.lit (iteration st) 0))
              (list_prod (range 0 (width st)) (range 0 (height st)))).
  split; [apply saveImage_columns_ok; exact Hin|]. split.
  - rewrite map_map. apply Finite.Injective_map_NoDup_in.
    + intros [x1 y1] [x2 y2] _ _ H. unfold mirrored in H. cbn [fst snd] in H.
      injection H as Hx Hy. f_equal; lia.
    + apply NoDup_list_prod; apply NoDup_range.
  - intros px y v. rewrite in_map_iff. split.
    + intros ([x y'] & E & Hxy). apply in_prod_iff in Hxy. destruct Hxy as [Hx Hy].
      specialize (Hin x y' Hx Hy).
      apply range_In in Hx. apply range_In in Hy.
      unfold mirrored, pixel_at in E. cbn [fst snd] in E.
      injection E as <- <- <-.
      split; [lia|]. split; [lia|].
      replace (width st - 1 - (width st - 1 - x) + y' * width st)%Z
        with (x + y' * width st)%Z by lia.
      destruct (at_ (image st) (x + y' * width st)%Z) as [pix|]; [|contradiction].
      exists pix. split; reflexivity.
    + intros (Hpx & Hy & pix & Hat & ->).
      exists ((width st - 1 - px)%Z, y). split.
      * unfold mirrored, pixel_at. cbn [fst snd]. rewrite Hat.
        f_equal. f_equal. lia.
      * apply in_prod_iff. split; apply range_In; lia.
Qed.

(** X15 at [app_example]. *)
Lemma saveImage_mirrors_witness :
  exists ps,
    saveImage app_example = Some ps /\
    NoDup (map fst ps) /\
    forall px y v,
      In (px, y, v) ps <->
      (0 <= px < width app_example)%Z /\ (0 <= y < height app_example)%Z /\
      exists pix,
        at_ (image app_example) ((width app_example - 1 - px) + y * width app_example)%Z
        = Some pix /\
        v = vdiv pix (F32.lit (iteration app_example) 0).
Proof.
  apply (saveImage_mirrors app_example). vm_compute. discriminate.
Defined.

Lemma saveImage_column_fault (st : App) (samples : F32.float) (x : Z) (ys : list Z) (y : Z) :
  In y ys -> at_ (image st) (x + y * width st)%Z = None ->
  saveImage_column st samples x ys = None.
Proof.
  intros Hin Hy. induction ys as [|y' ys IH]; [destruct Hin|].
  cbn [saveImage_column]. cbv zeta.
  destruct Hin as [->|Hin].
  - rewrite Hy. reflexivity.
  - rewrite (IH Hin). destruct (at_ (image st) (x + y' * width st)%Z); reflexivity.
Qed.

Lemma saveImage_columns_fault (st : App) (samples : F32.float) (xs : list Z) (x : Z) :
  In x xs -> saveImage_column st samples x (range 0 (height st)) = None ->
  saveImage_columns st samples xs = None.
Proof.
  intros Hin Hx. induction xs as [|x' xs IH]; [destruct Hin|].
  cbn [saveImage_columns].
  destruct Hin as [->|Hin].
  - rewrite Hx. reflexivity.
  - rewrite (IH Hin).
    destruct (saveImage_column st samples x' (range 0 (height st))); reflexivity.
Qed.

(** X16. [saveImage] does not check the size of [renderState->image]: when
    it holds fewer than [width * height] elements, with both positive, the
    loops read beyond its end. *)
Theorem saveImage_short_image (st : App) :
  (0 < width st)%Z -> (0 < height st)%Z ->
  (Z.of_nat (length (image st)) < width st * height st)%Z ->
  saveImage st = None.
Proof.
  intros Hw Hh Hlen. unfold saveImage. cbv zeta.
  apply (saveImage_columns_fault st _ _ (width st - 1)%Z).
  - apply range_In. lia.
  - apply (saveImage_column_fault st _ _ _ (height st - 1)%Z).
    + apply range_In. lia.
    + apply at_beyond. nia.
Qed.

(** X16 at [app_example] with the last pixel missing. *)
Lemma saveImage_short_image_witness :
  saveImage (mkApp (ui app_example) (prev app_example) (mouse app_example) 0 true
                   (zoom app_example) (theta app_example) (phi app_example)
                   (cameraPosition app_example) (ogLookAt app_example) (cam app_example)
                   1 2 2 [eighths 8 0 0; eighths 0 8 0; eighths 0 0 8])
  = None.
Proof.
  apply saveImage_short_image; reflexivity.
Defined.

Lemma div_by_zero_not_finite (a : F32.float) : not_finite (a / F32.lit 0 0) = true.
Proof. destruct a as [s|s| |s m e]; reflexivity. Qed.

(** X17. [saveImage] divides by the sample count: called when [iteration]
    is 0, before the first sample, every channel of every pixel it sets is
    an infinity or a NaN. *)
Theorem saveImage_before_first_sample (st : App) (ps : list (Z * Z * glm.vec3))
        (px y : Z) (v : glm.vec3) :
  iteration st = 0%Z -> saveImage st = Some ps -> In (px, y, v) ps ->
  not_finite (glm.x v) = true /\ not_finite (glm.y v) = true /\
  not_finite (glm.z v) = true.
Proof.
  unfold saveImage. cbv zeta. intros ->.
  generalize (range 0 (width st)). intros xs. revert ps.
  induction xs as [|x xs IH]; intros ps Hs Hin.
  - injection Hs as <-. destruct Hin.
  - cbn [saveImage_columns] in Hs.
    destruct (saveImage_column st (F32.lit 0 0) x (range 0 (height st))) as [col|] eqn:Ec;
      [|discriminate].
    destruct (saveImage_columns st (F32.lit 0 0) xs) as [qs|]; [|discriminate].
    injection Hs as <-. apply in_app_or in Hin. destruct Hin as [Hin|Hin];
      [|apply (IH qs eq_refl Hin)].
    clear IH. revert col Ec Hin. generalize (range 0 (height st)). intros ys.
    induction ys as [|y' ys IHy]; intros col Ec Hin.
    + injection Ec as <-. destruct Hin.
    + cbn [saveImage_column] in Ec. cbv zeta in Ec.
      destruct (at_ (image st) (x + y' * width st)%Z) as [pix|]; [|discriminate].
      destruct (saveImage_column st (F32.lit 0 0) x ys) as [col'|]; [|discriminate].
      injection Ec as <-. destruct Hin as [E|Hin]; [|apply (IHy col' eq_refl Hin)].
      injection E as _ _ <-. unfold vdiv. cbn [glm.x glm.y glm.z].
      repeat split; apply div_by_zero_not_finite.
Qed.

(** X17 at [app_example], where no sample has been taken. *)
Lemma saveImage_before_first_sample_witness :
  not_finite (S754_infinity false) = true /\ not_finite S754_nan = true /\
  not_finite S754_nan = true.
Proof.
  apply (saveImage_before_first_sample app_example
           [(1, 0, glm.Vec3 (S754_infinity false) S754_nan S754_nan);
            (1, 1, glm.Vec3 S754_nan S754_nan (S754_infinity false));
            (0, 0, glm.Vec3 S754_nan (S754_infinity false) S754_nan);
            (0, 1, glm.Vec3 (S754_infinity false) (S754_infinity false) (S754_infinity false))]%Z
           1 0 (glm.Vec3 (S754_infinity false) S754_nan S754_nan)).
  - reflexivity.
  - vm_compute. reflexivity.
  - left. reflexivity.
Defined.

(** ** main.cpp: a weight that is a NaN *)

Lemma fneq_nan (a b : F32.float) : F32.is_nan a = true -> fneq a b = true.
Proof. intros H. destruct a; try discriminate H. reflexivity. Qed.

Lemma uiStateChanged_nan (st : App) :
  F32.is_nan (ui_colorWeight (ui st)) || F32.is_nan (ui_normalWeight (ui st))
  || F32.is_nan (ui_positionWeight (ui st)) = true ->
  uiStateChanged st = true.
Proof.
  intros H. unfold uiStateChanged.
  apply orb_true_iff in H. destruct H as [H|H].
  - apply orb_true_iff in H. destruct H as [H|H].
    + rewrite (fneq_nan _ _ H). rewrite !orb_true_r. reflexivity.
    + rewrite (fneq_nan _ _ H). rewrite !orb_true_r. reflexivity.
  - rewrite (fneq_nan _ _ H). rewrite !orb_true_r. reflexivity.
Qed.

(** X18. [uiStateChanged] compares the weights with [!=], which holds as
    soon as one side is a NaN: while one of the three weights is a NaN,
    every frame finds the GUI state changed and starts from sample 0 again,
    so that the sample count never gets beyond 1. *)
Theorem nan_weight_restarts_every_frame (sin cos : F32.float -> F32.float) (st : App)
        (k : nat) :
  F32.is_nan (ui_colorWeight (ui st)) || F32.is_nan (ui_normalWeight (ui st))
  || F32.is_nan (ui_positionWeight (ui st)) = true ->
  uiStateChanged (frames sin cos k st) = true /\
  iteration (frames sin cos (S k) st) = Z.min 1 (Z.max 0 (ui_iterations (ui st))).
Proof.
  intros H.
  assert (Hk : ui (frames sin cos k st) = ui st).
  { clear H. revert st. induction k as [|k IH]; intro st; [reflexivity|].
    cbn [frames]. rewrite IH.
    destruct (runCuda_globals sin cos st) as (_ & _ & _ & Hu & _). exact Hu. }
  rewrite frames_last.
  revert Hk. generalize (frames sin cos k st). intros stk Hk.
  assert (Hc : uiStateChanged stk = true) by (apply uiStateChanged_nan; rewrite Hk; exact H).
  split; [exact Hc|].
  destruct (runCuda_globals sin cos stk) as (Hi & _). cbv zeta in Hi.
  rewrite Hi. unfold restarts. rewrite Hc, orb_true_r. cbn [orb]. rewrite Hk.
  destruct (Z.ltb_spec 0 (ui_iterations (ui st))); lia.
Qed.

(** X18 at [app_example] with a colour weight that is a NaN. *)
Lemma nan_weight_restarts_every_frame_witness :
  iteration (frames (fun a => a) (fun a => a) 4
               (mkApp (mkUi 3 false false 80 S754_nan (ui_normalWeight ui_example)
                            (ui_positionWeight ui_example) false)
                      (prev app_example) (mouse app_example) 0 true
                      (zoom app_example) (theta app_example) (phi app_example)
                      (cameraPosition app_example) (ogLookAt app_example) (cam app_example)
                      0 2 2 (image app_example)))
  = 1%Z.
Proof.
  apply (nan_weight_restarts_every_frame (fun a => a) (fun a => a)
           (mkApp (mkUi 3 false false 80 S754_nan (ui_normalWeight ui_example)
                        (ui_positionWeight ui_example) false)
                  (prev app_example) (mouse app_example) 0 true
                  (zoom app_example) (theta app_example) (phi app_example)
                  (cameraPosition app_example) (ogLookAt app_example) (cam app_example)
                  0 2 2 (image app_example)) 3).
  reflexivity.
Defined.
